(** * Search.py: identifier audit (near-miss search and A/B count comparison)

    A shallow embedding of the scanning core of [Search.py] and of its
    walk through the source tree, and the proofs of its specification.

    Conventions of the embedding:
    - a Python [str] is a [list ascii]; a character is a code point below
      256 (the Latin-1 range of Python's [str]);
    - a Python [int] is a [Z]; list indices are converted with [Z.to_nat]
      at the point of use, and every index the code uses is within range;
    - a Python [dict] is a [gmap]; the claims below never depend on the
      iteration order of a dictionary;
    - a Python [float] is a [spec_float] in the binary64 format;
    - the directories that [os.walk] reads are a [dir_tree], and a path
      below the root is the list of the names that lead to it. *)

From Stdlib Require Import ZArith List Ascii String Bool Lia Sorted.
From Stdlib Require Import Floats.SpecFloat.
From stdpp Require Import gmap strings list fin_maps sorting.

Local Open Scope Z_scope.

Abbreviation str := (list ascii).

(** [s[j]] on a list, for an index the code keeps within range. *)
Definition zget {A} (d : A) (l : list A) (j : Z) : A := nth (Z.to_nat j) l d.

(** [range(lo, hi)]. *)
Definition py_range (lo hi : Z) : list Z := seqZ lo (hi - lo).

(** [len(s)]. *)
Definition len {A} (l : list A) : Z := Z.of_nat (length l).


(** ** Edit distance (bounded) *)

(** The Levenshtein distance, by its defining recurrence. *)
Fixpoint levenshtein (a b : str) : nat :=
  match a with
  | [] => length b
  | x :: a' =>
      (fix inner (b : str) : nat :=
         match b with
         | [] => length a
         | y :: b' =>
             Nat.min (Nat.min (S (levenshtein a' b)) (S (inner b')))
                     (levenshtein a' b' + (if Ascii.eqb x y then 0 else 1))%nat
         end) b
  end.

(** [edit_cost a b n]: [a] is turned into [b] by [n] insertions, deletions
    and substitutions of one character, read off an alignment of the two
    strings. *)
Inductive edit_cost : str -> str -> nat -> Prop :=
| edit_done : edit_cost [] [] 0
| edit_keep x a b n : edit_cost a b n -> edit_cost (x :: a) (x :: b) n
| edit_substitute x y a b n : edit_cost a b n -> edit_cost (x :: a) (y :: b) (S n)
| edit_delete x a b n : edit_cost a b n -> edit_cost (x :: a) b (S n)
| edit_insert y a b n : edit_cost a b n -> edit_cost a (y :: b) (S n).

Section Banded.
Variable k : Z.

(** Body of [for j in range(start, end + 1)]: the state is
    [(cur, row_min)]. *)
Definition lev_cell (ai : ascii) (b : str) (prev : list Z)
    (st : list Z * Z) (j : Z) : list Z * Z :=
  let '(cur, row_min) := st in
  let cost := if Ascii.eqb ai (zget "000"%char b (j - 1)) then 0 else 1 in
  let v := Z.min (Z.min (zget 0 prev j + 1) (zget 0 cur (j - 1) + 1))
                 (zget 0 prev (j - 1) + cost) in
  (<[Z.to_nat j := v]> cur, if v <? row_min then v else row_min).

(** Body of [for i in range(1, na + 1)] up to the early-exit test:
    returns the new row and its minimum over the band. *)
Definition lev_row (a b : str) (nb : Z) (prev : list Z) (i : Z) : list Z * Z :=
  let big := k + 1 in
  let start := Z.max 1 (i - k) in
  let end_ := Z.min nb (i + k) in
  let cur := <[0%nat := i]> (replicate (Z.to_nat (nb + 1)) big) in
  let ai := zget "000"%char a (i - 1) in
  fold_left (lev_cell ai b prev) (py_range start (end_ + 1)) (cur, big).

(** The outer loop over the remaining values of [i], with its early
    [return big], followed by the final [return]. *)
Fixpoint lev_rows (a b : str) (nb : Z) (rest : list Z) (prev : list Z) : Z :=
  match rest with
  | [] => if zget 0 prev nb <=? k then zget 0 prev nb else k + 1
  | i :: rest' =>
      let '(cur, row_min) := lev_row a b nb prev i in
      if row_min >? k then k + 1 else lev_rows a b nb rest' cur
  end.
End Banded.

Definition bounded_levenshtein (a b : str) (k : Z) : Z :=
  if bool_decide (a = b) then 0 else
  let na := len a in
  let nb := len b in
  if Z.abs (na - nb) >? k then k + 1 else
  let '(a, b, na, nb) := if na >? nb then (b, a, nb, na) else (a, b, na, nb) in
  lev_rows k a b nb (py_range 1 (na + 1)) (py_range 0 (nb + 1)).

(** The cap at [k + 1] and the table of distances between prefixes. *)
Definition capped (k x : Z) : Z := Z.min x (k + 1).

Definition table (a b : str) (i j : Z) : Z :=
  Z.of_nat (levenshtein (take (Z.to_nat i) a) (take (Z.to_nat j) b)).

(** A row of the banded table agrees with the true table up to the cap. *)
Definition row_ok (a b : str) (k i : Z) (r : list Z) : Prop :=
  len r = len b + 1 /\
  forall j, 0 <= j <= len b -> capped k (zget 0 r j) = capped k (table a b i j).

(** The invariant of the loop over [j], before column [j] is written. *)
Definition cell_inv (a b : str) (k i j : Z) (st : list Z * Z) : Prop :=
  len (fst st) = len b + 1 /\
  (forall j', 0 <= j' < j ->
     capped k (zget 0 (fst st) j') = capped k (table a b i j')) /\
  (forall j', j <= j' <= len b -> zget 0 (fst st) j' = k + 1) /\
  (k < snd st -> forall j', Z.max 1 (i - k) <= j' < j -> k < zget 0 (fst st) j').

(** ** Masking comments and strings *)

(** The positions [i], [j], [n] of the masker are natural numbers: they
    start at 0 and only grow; the [-1] of [str.find] is [None]. *)

Section MaskerDefs.
Local Open Scope nat_scope.

Definition ch_nl : ascii := "010"%char.
Definition ch_space : ascii := " "%char.
Definition ch_dquote : ascii := "034"%char.
Definition ch_squote : ascii := "039"%char.
Definition ch_backslash : ascii := "092"%char.

(** [s[i]], read only where the code has checked [i < len(s)]. *)
Definition char_at (s : str) (i : nat) : ascii := nth i s "000"%char.

(** [put_spaces(a, b)]: replace [[a, b)] by spaces, keeping newlines. *)
Definition put_spaces (a b : nat) (out : str) : str :=
  fold_left
    (fun o k => if Ascii.eqb (char_at o k) ch_nl then o else <[k := ch_space]> o)
    (seq a (b - a)) out.

(** [while i < n and src[i] != stop: i += 1], with [rest = src[i:]]. *)
Fixpoint skip_until (stop : ascii) (rest : str) (i : nat) : nat :=
  match rest with
  | [] => i
  | c :: rest' => if Ascii.eqb c stop then i else skip_until stop rest' (S i)
  end.

(** [while i + 1 < n and not (src[i] == "*" and src[i + 1] == "/"): i += 1],
    with [rest = src[i:]]. *)
Fixpoint skip_block (rest : str) (i : nat) : nat :=
  match rest with
  | c :: rest' =>
      match rest' with
      | d :: _ =>
          if Ascii.eqb c "*" && Ascii.eqb d "/" then i
          else skip_block rest' (S i)
      | [] => i
      end
  | [] => i
  end.

(** The body of a string or char literal after its opening quote:
    [while i < n], an escape pair is skipped when [i + 1 < n], the
    closing quote ends the loop after [i += 1]; [rest = src[i:]]. *)
Fixpoint skip_quoted (q : ascii) (rest : str) (i : nat) : nat :=
  match rest with
  | [] => i
  | c :: rest' =>
      match rest' with
      | _ :: rest'' =>
          if Ascii.eqb c ch_backslash then skip_quoted q rest'' (i + 2)
          else if Ascii.eqb c q then i + 1
          else skip_quoted q rest' (i + 1)
      | [] =>
          if Ascii.eqb c q then i + 1 else skip_quoted q rest' (i + 1)
      end
  end.

(** [sub] is a prefix of [rest]. *)
Fixpoint starts_with (sub rest : str) : bool :=
  match sub, rest with
  | [], _ => true
  | x :: sub', y :: rest' => Ascii.eqb x y && starts_with sub' rest'
  | _ :: _, [] => false
  end.

Fixpoint find_from (sub rest : str) (i : nat) : option nat :=
  if starts_with sub rest then Some i
  else match rest with
       | [] => None
       | _ :: rest' => find_from sub rest' (S i)
       end.

(** [s.find(sub, start)]; [None] stands for [-1]. *)
Definition str_find (s sub : str) (start : nat) : option nat :=
  if length s <? start then None else find_from sub (drop start s) start.

(** The variables of the [while] loop; [m_break] records that the loop
    was left by [break]. *)
Record mask_state := MaskState { m_i : nat; m_out : str; m_break : bool }.

(** One iteration of [while i < n]; a state in which the loop has ended
    is left as it is. *)
Definition mask_step (src : str) (st : mask_state) : mask_state :=
  let n := length src in
  let i := m_i st in
  let out := m_out st in
  if m_break st || negb (i <? n) then st else
  let c := char_at src i in
  let next_is (d : ascii) := (i + 1 <? n) && Ascii.eqb (char_at src (i + 1)) d in
  if Ascii.eqb c "/" && next_is "/"%char then
    let j := i in
    let i := skip_until ch_nl (drop (i + 2) src) (i + 2) in
    MaskState i (put_spaces j i out) false
  else if Ascii.eqb c "/" && next_is "*"%char then
    let j := i in
    let i := skip_block (drop (i + 2) src) (i + 2) in
    let i := Nat.min n (i + 2) in
    MaskState i (put_spaces j i out) false
  else if Ascii.eqb c ch_dquote then
    let j := i in
    let i := skip_quoted ch_dquote (drop (i + 1) src) (i + 1) in
    MaskState i (put_spaces j i out) false
  else if Ascii.eqb c ch_squote then
    let j := i in
    let i := skip_quoted ch_squote (drop (i + 1) src) (i + 1) in
    MaskState i (put_spaces j i out) false
  else if Ascii.eqb c "R" && next_is ch_dquote then
    let j := i in
    let i := i + 2 in
    let delim_start := i in
    let i := skip_until "("%char (drop i src) i in
    if n <=? i then MaskState i (put_spaces j n out) true
    else
      let delim := take (i - delim_start) (drop delim_start src) in
      let i := i + 1 in
      let close_seq := ")"%char :: delim ++ [ch_dquote] in
      match str_find src close_seq i with
      | None => MaskState i (put_spaces j n out) true
      | Some close_pos =>
          let i := close_pos + length close_seq in
          MaskState i (put_spaces j i out) false
      end
  else MaskState (i + 1) out false.

(** The loop runs at most [len(src)] times, since every iteration
    moves [i] forward or leaves by [break] ([mask_loop_ended]). *)
Definition mask_cpp_comments_and_strings (src : str) : str :=
  m_out (Nat.iter (length src) (mask_step src) (MaskState 0 src false)).
End MaskerDefs.


(** What the loop of the masker looks for at position [i]: the start of a
    comment, of a string or char literal, or of a raw string. *)
Definition start_at (src : str) (i : nat) : bool :=
  let c := char_at src i in
  let next_is (d : ascii) :=
    (i + 1 <? length src)%nat && Ascii.eqb (char_at src (i + 1)) d in
  Ascii.eqb c "/" && next_is "/"%char
  || Ascii.eqb c "/" && next_is "*"%char
  || Ascii.eqb c ch_dquote
  || Ascii.eqb c ch_squote
  || Ascii.eqb c "R" && next_is ch_dquote.

(** Where the loop stands: [i], or the end of the text after a [break]. *)
Definition frontier (src : str) (st : mask_state) : nat :=
  if m_break st then length src else m_i st.

(** Position [p] of the output can no longer start anything: it holds no
    quote, and a [/] or [R] there is not followed in the source by the
    character that would make it a start. *)
Definition settled (src out : str) (p : nat) : Prop :=
  let c := char_at out p in
  let next_is (d : ascii) :=
    (p + 1 <? length src)%nat && Ascii.eqb (char_at src (p + 1)) d in
  c <> ch_dquote /\ c <> ch_squote /\
  (c = "/"%char -> next_is "/"%char = false /\ next_is "*"%char = false) /\
  (c = "R"%char -> next_is ch_dquote = false).

(** The invariant of the loop of the masker. *)
Definition mask_inv (src : str) (st : mask_state) : Prop :=
  length (m_out st) = length src /\
  (frontier src st <= length src)%nat /\
  (forall p, (frontier src st <= p)%nat -> char_at (m_out st) p = char_at src p) /\
  (forall p, (p < length src)%nat ->
     char_at (m_out st) p = char_at src p \/
     (char_at (m_out st) p = ch_space /\ char_at src p <> ch_nl)) /\
  (forall p, (p < frontier src st)%nat -> settled src (m_out st) p).

(** ** Tokenization per line *)

Section TokenizerDefs.
Local Open Scope nat_scope.

Definition in_range (lo hi : nat) (c : ascii) : bool :=
  (lo <=? nat_of_ascii c) && (nat_of_ascii c <=? hi).

(** [[_A-Za-z]] *)
Definition ident_start (c : ascii) : bool :=
  Ascii.eqb c "_" || in_range 65 90 c || in_range 97 122 c.

(** [[_A-Za-z0-9]] *)
Definition ident_cont (c : ascii) : bool :=
  ident_start c || in_range 48 57 c.

(** [\w] of a [str] pattern: the underscore and the alphanumeric
    characters in the sense of [str.isalnum], here for code points below
    256: the ASCII letters and digits, the Latin-1 letters, the
    superscript digits and the vulgar fractions. *)
Definition is_word (c : ascii) : bool :=
  ident_cont c
  || in_range 170 170 c || in_range 178 179 c || in_range 181 181 c
  || in_range 185 186 c || in_range 188 190 c
  || in_range 192 214 c || in_range 216 246 c || in_range 248 255 c.

(** [\b] at position [p] of [line]: exactly one of the characters before
    and after [p] is a word character, the ends of the line counting as
    non-word. *)
Definition is_boundary (line : str) (p : nat) : bool :=
  xorb ((0 <? p) && is_word (char_at line (p - 1)))
       ((p <? length line) && is_word (char_at line p)).

(** The longest run of [[_A-Za-z0-9]] at the head of [rest]. *)
Fixpoint star_len (rest : str) : nat :=
  match rest with
  | c :: rest' => if ident_cont c then S (star_len rest') else 0
  | [] => 0
  end.

(** The greedy [*] gives back one character at a time until the final
    [\b] holds: the end [s + 1 + m], then [s + 1 + (m - 1)], ... *)
Fixpoint backtrack (line : str) (s m : nat) : option nat :=
  if is_boundary line (s + 1 + m) then Some (s + 1 + m)
  else match m with
       | 0 => None
       | S m' => backtrack line s m'
       end.

(** [IDENT_RE] matched at position [s] exactly: the end of the match. *)
Definition match_at (line : str) (s : nat) : option nat :=
  if is_boundary line s && (s <? length line) && ident_start (char_at line s)
  then backtrack line s (star_len (drop (s + 1) line))
  else None.

(** [IDENT_RE.finditer(line)] from position [pos]: the leftmost match at
    or after [pos], then on from its end.  Each step moves [pos] forward,
    so [len(line) - pos] steps are enough. *)
Fixpoint finditer_from (fuel : nat) (line : str) (pos : nat) : list (nat * nat) :=
  match fuel with
  | 0 => []
  | S fuel' =>
      if length line <=? pos then []
      else match match_at line pos with
           | Some e => (pos, e) :: finditer_from fuel' line e
           | None => finditer_from fuel' line (pos + 1)
           end
  end.

Definition finditer (line : str) : list (nat * nat) :=
  finditer_from (length line) line 0.

(** The line boundaries of [str.splitlines] below code point 256. *)
Definition is_linebreak (c : ascii) : bool :=
  in_range 10 13 c || in_range 28 30 c || in_range 133 133 c.

(** [text.splitlines()]: a carriage return followed by a line feed is
    one boundary; there is no empty last line after a final boundary. *)
Fixpoint splitlines (text : str) : list str :=
  match text with
  | [] => []
  | c :: rest =>
      if is_linebreak c then
        match rest with
        | d :: rest' =>
            if Ascii.eqb c "013" && Ascii.eqb d "010"
            then [] :: splitlines rest'
            else [] :: splitlines rest
        | [] => [] :: splitlines rest
        end
      else
        match splitlines rest with
        | [] => [[c]]
        | l :: ls => (c :: l) :: ls
        end
  end.

(** [enumerate(l, start)]. *)
Fixpoint enumerate {A} (l : list A) (start : Z) : list (Z * A) :=
  match l with
  | [] => []
  | x :: l' => (start, x) :: enumerate l' (start + 1)%Z
  end.

(** [s[a:b]] for [a <= b <= len(s)]. *)
Definition slice (s : str) (a b : nat) : str := take (b - a) (drop a s).

Definition line_tokens (lineno : Z) (line : str) : list (str * Z * Z) :=
  map (fun m => (slice line (fst m) (snd m), lineno, (Z.of_nat (fst m) + 1)%Z))
      (finditer line).

(** The generator, as the list of what it yields:
    [(m.group(0), lineno, m.start() + 1)]. *)
Definition iter_identifiers_with_pos (text : str) : list (str * Z * Z) :=
  flat_map (fun ln => line_tokens (fst ln) (snd ln))
           (enumerate (splitlines text) 1).

(** What [IDENT_RE] accepts between positions [s] and [e] of a line: an
    identifier, with a word boundary on each side. *)
Definition token_at (line : str) (s e : nat) : Prop :=
  s < e <= length line /\
  is_boundary line s = true /\ is_boundary line e = true /\
  ident_start (char_at line s) = true /\
  forall p, s < p < e -> ident_cont (char_at line p) = true.

(** The order of the text: by line, then by column. *)
Definition pos_lt (x y : str * Z * Z) : Prop :=
  (snd (fst x) < snd (fst y))%Z \/
  (snd (fst x) = snd (fst y) /\ (snd x < snd y)%Z).

(** The identifier grammar of the specification: a letter or underscore,
    then letters, digits and underscores. *)
Definition ident_grammar (w : str) : bool :=
  match w with
  | [] => false
  | c :: w' => ident_start c && forallb ident_cont w'
  end.

(** A maximal run of the grammar, after the words of the specification:
    [line[s:e]] matches the grammar and no longer stretch of the line
    around it does. *)
Definition spec_token_at (line : str) (s e : nat) : bool :=
  (s <? e) && (e <=? length line) && ident_grammar (slice line s e) &&
  forallb (fun s' =>
    forallb (fun e' =>
      negb (ident_grammar (slice line s' e')) || ((s' =? s) && (e' =? e)))
      (seq e (S (length line) - e)))
    (seq 0 (S s)).

(** An identifier of the grammar that no word character touches: the
    character before it and the character after it, where there is one,
    are not word characters. *)
Definition delimited_ident (line : str) (s e : nat) : Prop :=
  s < e <= length line /\
  ident_grammar (slice line s e) = true /\
  (s = 0 \/ is_word (char_at line (s - 1)) = false) /\
  (e = length line \/ is_word (char_at line e) = false).

(** The tokenizer as the specification words it: the tokens of a text
    are exactly the maximal runs of the grammar, with their line and
    column. *)
Definition yields_grammar_runs (text : str) : Prop :=
  forall tok ln col,
    In (tok, ln, col) (iter_identifiers_with_pos text) <->
    exists line s e,
      (1 <= ln)%Z /\ splitlines text !! Z.to_nat (ln - 1) = Some line /\
      spec_token_at line s e = true /\ tok = slice line s e /\
      col = (Z.of_nat s + 1)%Z.
End TokenizerDefs.

(** ** Data structures *)

Record Occurrence := mkOccurrence {
  occ_path : str;
  occ_line : Z;
  occ_col : Z
}.

Record NearTokenAggregate := mkNearTokenAggregate {
  agg_token : str;
  agg_count : Z;
  agg_locs : list Occurrence
}.

Record CompareFileRow := mkCompareFileRow {
  row_path : str;
  count_a : Z;
  count_b : Z;
  diff : Z;
  locs_a : list Occurrence;
  locs_b : list Occurrence
}.

(** [dist -> token -> aggregate]. *)
Abbreviation near_result := (gmap Z (gmap str NearTokenAggregate)).

(** [str.lower] below code point 256: the ASCII capitals and the Latin-1
    capitals move up by 32. *)
Definition lower_char (c : ascii) : ascii :=
  if in_range 65 90 c || in_range 192 214 c || in_range 216 222 c
  then ascii_of_nat (nat_of_ascii c + 32) else c.

Definition lower (s : str) : str := map lower_char s.

(** [not s] for a string. *)
Definition is_empty (s : str) : bool :=
  match s with [] => true | _ => false end.

(** [len(locs) < cap], or no cap: the test before an occurrence is stored. *)
Definition under_cap (cap : Z) (locs : list Occurrence) : bool :=
  (cap =? 0) || (len locs <? cap).

Section Scan.
(** The file system.  [load_text path encoding] is [None] when reading or
    decoding the file raises; [relpath_str path root] catches its own
    exception and always gives a string. *)
Variable load_text : str -> str -> option str.
Variable relpath_str : str -> str -> str.

(** *** NEAR mode worker *)

Section NearWorker.
Variables (path root : str) (ncmp : str) (ignore_set : gset str).
Variables (max_dist : Z) (case_insensitive same_first_char : bool).
Variable max_locs_per_token : Z.

(** The body of [for tok, line, col in iter_identifiers_with_pos(text)]. *)
Definition near_step (out : near_result) (t : str * Z * Z) : near_result :=
  let '(tok, line, col) := t in
  let tcmp := if case_insensitive then lower tok else tok in
  if bool_decide (tcmp ∈ ignore_set) then out else
  if same_first_char &&
     (is_empty tcmp || is_empty ncmp ||
      negb (Ascii.eqb (char_at tcmp 0) (char_at ncmp 0)))
  then out else
  if Z.abs (len tcmp - len ncmp) >? max_dist then out else
  let d := bounded_levenshtein tcmp ncmp max_dist in
  if d <=? max_dist then
    let bucket := default ∅ (out !! d) in
    let agg := default (mkNearTokenAggregate tok 0 []) (bucket !! tok) in
    let locs :=
      if under_cap max_locs_per_token (agg_locs agg)
      then agg_locs agg ++ [mkOccurrence (relpath_str path root) line col]
      else agg_locs agg in
    <[d := <[tok := mkNearTokenAggregate (agg_token agg) (agg_count agg + 1) locs]>
             bucket]> out
  else out.
End NearWorker.

Definition scan_file_near (path root needle : str) (max_dist : Z)
    (case_insensitive same_first_char : bool) (ignore_tokens : list str)
    (max_locs_per_token : Z) (mask : bool) (encoding : str) : near_result :=
  match load_text path encoding with
  | None => ∅
  | Some text =>
      let text := if mask then mask_cpp_comments_and_strings text else text in
      let ncmp := if case_insensitive then lower needle else needle in
      let ignore_set : gset str :=
        list_to_set
          (map (fun t => if case_insensitive then lower t else t) ignore_tokens) in
      fold_left
        (near_step path root ncmp ignore_set max_dist case_insensitive
                   same_first_char max_locs_per_token)
        (iter_identifiers_with_pos text) ∅
  end.

(** *** COMPARE mode worker *)

Section CompareWorker.
Variables (rp acmp bcmp : str) (case_insensitive : bool) (locs_per_file : Z).

(** The body of the loop over the tokens; the state is
    [(ca, cb, la, lb)]. *)
Definition compare_step (st : Z * Z * list Occurrence * list Occurrence)
    (t : str * Z * Z) : Z * Z * list Occurrence * list Occurrence :=
  let '(ca, cb, la, lb) := st in
  let '(tok, line, col) := t in
  let tcmp := if case_insensitive then lower tok else tok in
  if bool_decide (tcmp = acmp) then
    (ca + 1, cb,
     if under_cap locs_per_file la then la ++ [mkOccurrence rp line col] else la,
     lb)
  else if bool_decide (tcmp = bcmp) then
    (ca, cb + 1, la,
     if under_cap locs_per_file lb then lb ++ [mkOccurrence rp line col] else lb)
  else st.
End CompareWorker.

Definition scan_file_compare (path root a b : str) (case_insensitive : bool)
    (locs_per_file : Z) (mask : bool) (encoding : str) : CompareFileRow :=
  match load_text path encoding with
  | None => mkCompareFileRow (relpath_str path root) 0 0 0 [] []
  | Some text =>
      let text := if mask then mask_cpp_comments_and_strings text else text in
      let acmp := if case_insensitive then lower a else a in
      let bcmp := if case_insensitive then lower b else b in
      let rp := relpath_str path root in
      let '(ca, cb, la, lb) :=
        fold_left (compare_step rp acmp bcmp case_insensitive locs_per_file)
                  (iter_identifiers_with_pos text) (0, 0, [], []) in
      mkCompareFileRow rp ca cb (ca - cb) la lb
  end.

(** *** The aggregation loop of [cmd_near] *)

(** The body of [for tok, a in token_map.items()]. *)
Definition merge_token (cap : Z) (tok : str) (a : NearTokenAggregate)
    (bucket : gmap str NearTokenAggregate) : gmap str NearTokenAggregate :=
  match bucket !! tok with
  | None => <[tok := mkNearTokenAggregate tok (agg_count a) (agg_locs a)]> bucket
  | Some cur =>
      let locs :=
        if cap =? 0 then agg_locs cur ++ agg_locs a
        else
          let remain := cap - len (agg_locs cur) in
          if remain >? 0 then agg_locs cur ++ take (Z.to_nat remain) (agg_locs a)
          else agg_locs cur in
      <[tok := mkNearTokenAggregate (agg_token cur) (agg_count cur + agg_count a) locs]>
        bucket
  end.

(** The body of [for d, token_map in partial.items()].  The items of a
    dictionary have distinct keys, and the updates made for distinct
    keys do not depend on their order. *)
Definition merge_bucket (cap : Z) (d : Z) (token_map : gmap str NearTokenAggregate)
    (agg : near_result) : near_result :=
  let bucket := default ∅ (agg !! d) in
  <[d := map_fold (merge_token cap) bucket token_map]> agg.

Definition merge_partial (cap : Z) (agg partial : near_result) : near_result :=
  map_fold (merge_bucket cap) agg partial.

(** The arguments of the two commands that the scan uses. *)
Record NearArgs := mkNearArgs {
  near_root : str;
  near_needle : str;
  near_max_dist : Z;
  near_case_insensitive : bool;
  near_same_first_char : bool;
  near_ignore_token : list str;
  near_max_locs_per_token : Z;
  near_no_mask : bool;
  near_encoding : str
}.

Definition near_partial (args : NearArgs) (f : str) : near_result :=
  scan_file_near f (near_root args) (near_needle args) (near_max_dist args)
    (near_case_insensitive args) (near_same_first_char args)
    (near_ignore_token args) (near_max_locs_per_token args)
    (negb (near_no_mask args)) (near_encoding args).

(** [agg] after the loop over the files.  With [jobs >= 2] the partial
    results come from [pool.starmap], in the order of the files, and go
    through the same merge. *)
Definition near_aggregate (args : NearArgs) (files : list str) : near_result :=
  fold_left
    (fun agg f => merge_partial (near_max_locs_per_token args) agg (near_partial args f))
    files ∅.

(** *** Expectation *)

(** [float(n)] as the arithmetic of [float] with [int] does it: rounded to
    the nearest binary64 number, [None] for [OverflowError]. *)
Definition float_of_int (n : Z) : option spec_float :=
  match binary_normalize 53 1024 n 0 false with
  | S754_infinity _ => None
  | f => Some f
  end.

(** [x <= n] for a float [x] and an int [n]: Python compares the exact
    values. *)
Definition float_le_int (x : spec_float) (n : Z) : bool :=
  match x with
  | S754_nan => false
  | S754_infinity sign => sign
  | S754_zero _ => 0 <=? n
  | S754_finite sign m e =>
      let v := if sign then Z.neg m else Z.pos m in
      if 0 <=? e then v * 2 ^ e <=? n else v <=? n * 2 ^ (- e)
  end.

Definition expect_equal : str := list_ascii_of_string "equal".
Definition expect_a_ge_b : str := list_ascii_of_string "a>=b".
Definition expect_b_ge_a : str := list_ascii_of_string "b>=a".
Definition expect_ratio : str := list_ascii_of_string "ratio".

(** [None] when the conversion of a count to [float] raises. *)
Definition check_expectation (row : CompareFileRow) (expect : str)
    (ratio : spec_float) (tolerance : Z) : option bool :=
  if bool_decide (expect = expect_equal) then
    Some (Z.abs (diff row) <=? tolerance)
  else if bool_decide (expect = expect_a_ge_b) then
    Some (diff row >=? - tolerance)
  else if bool_decide (expect = expect_b_ge_a) then
    Some (diff row <=? tolerance)
  else
    match float_of_int (count_b row) with
    | None => None
    | Some fb =>
        let target := SFmul 53 1024 ratio fb in
        match float_of_int (count_a row) with
        | None => None
        | Some fa =>
            Some (float_le_int (SFabs (SFsub 53 1024 fa target)) tolerance)
        end
    end.

(** *** [cmd_compare] *)

Record CompareArgs := mkCompareArgs {
  cmp_root : str;
  cmp_a : str;
  cmp_b : str;
  cmp_case_insensitive : bool;
  cmp_expect : str;
  cmp_ratio : spec_float;
  cmp_tolerance : Z;
  cmp_locs_per_file : Z;
  cmp_no_mask : bool;
  cmp_encoding : str;
  cmp_json : str;
  cmp_csv : str
}.

(** What [cmd_compare] computes before it prints and exports. *)
Record CompareReport := mkCompareReport {
  rep_rows : list CompareFileRow;
  rep_overall_row : CompareFileRow;
  rep_overall_ok : bool;
  rep_mismatches : list CompareFileRow
}.

(** [write_file name] tells whether writing the export file succeeds;
    a failed write raises. *)
Variable write_file : str -> bool.

Definition compare_rows (args : CompareArgs) (files : list str) : list CompareFileRow :=
  map (fun f =>
         scan_file_compare f (cmp_root args) (cmp_a args) (cmp_b args)
           (cmp_case_insensitive args) (cmp_locs_per_file args)
           (negb (cmp_no_mask args)) (cmp_encoding args))
      files.

(** [sum(r.count_a for r in rows)] and the like. *)
Definition sum_of (f : CompareFileRow -> Z) (rows : list CompareFileRow) : Z :=
  fold_left (fun acc r => acc + f r) rows 0.

(** The loop that collects the rows failing the expectation. *)
Fixpoint find_mismatches (args : CompareArgs) (rows : list CompareFileRow)
    : option (list CompareFileRow) :=
  match rows with
  | [] => Some []
  | r :: rows' =>
      match check_expectation r (cmp_expect args) (cmp_ratio args) (cmp_tolerance args) with
      | None => None
      | Some ok =>
          match find_mismatches args rows' with
          | None => None
          | Some ms => Some (if ok then ms else r :: ms)
          end
      end
  end.

(** [cmd_compare] on the files that [collect_files] returned: the report
    and the value returned, or [None] when an exception ends the run.
    Sorting and printing the rows gives nothing back to the function and
    is left out. *)
Definition cmd_compare (args : CompareArgs) (files : list str)
    : option (CompareReport * Z) :=
  let rows := compare_rows args files in
  let total_a := sum_of count_a rows in
  let total_b := sum_of count_b rows in
  let overall_row :=
    mkCompareFileRow (list_ascii_of_string "<TOTAL>") total_a total_b
                     (total_a - total_b) [] [] in
  match check_expectation overall_row (cmp_expect args) (cmp_ratio args)
                          (cmp_tolerance args) with
  | None => None
  | Some overall_ok =>
      match find_mismatches args rows with
      | None => None
      | Some mismatches =>
          if negb (is_empty (cmp_json args)) && negb (write_file (cmp_json args))
          then None
          else if negb (is_empty (cmp_csv args)) && negb (write_file (cmp_csv args))
          then None
          else Some (mkCompareReport rows overall_row overall_ok mismatches, 0)
      end
  end.
End Scan.

(** ** Functions used to state the properties *)

(** The aggregate stored for [tok] in bucket [d], if any. *)
Definition entry (r : near_result) (d : Z) (tok : str) : option NearTokenAggregate :=
  match r !! d with
  | Some bucket => bucket !! tok
  | None => None
  end.

Definition count_in (r : near_result) (d : Z) (tok : str) : Z :=
  from_option agg_count 0 (entry r d tok).

Definition locs_in (r : near_result) (d : Z) (tok : str) : list Occurrence :=
  from_option agg_locs [] (entry r d tok).

Definition zsum (l : list Z) : Z := foldr Z.add 0 l.

(** What a list of occurrences becomes when it is filled one by one under
    a cap: all of it without a cap, its first [cap] elements otherwise. *)
Definition cap_locs (cap : Z) (l : list Occurrence) : list Occurrence :=
  if cap =? 0 then l else take (Z.to_nat cap) l.

(** The bucket in which the near scan stores a token, [None] when the
    token is dropped: the tests of [near_step], in their order. *)
Definition near_key (ncmp : str) (ignore_set : gset str) (max_dist : Z)
    (case_insensitive same_first_char : bool) (tok : str) : option Z :=
  let tcmp := if case_insensitive then lower tok else tok in
  if bool_decide (tcmp ∈ ignore_set) then None else
  if same_first_char &&
     (is_empty tcmp || is_empty ncmp ||
      negb (Ascii.eqb (char_at tcmp 0) (char_at ncmp 0)))
  then None else
  if Z.abs (len tcmp - len ncmp) >? max_dist then None else
  let d := bounded_levenshtein tcmp ncmp max_dist in
  if d <=? max_dist then Some d else None.

(** The occurrences of the exact text [tok] among the tokens of a file. *)
Definition occurrences (rp tok : str) (toks : list (str * Z * Z)) : list Occurrence :=
  map (fun t => mkOccurrence rp (snd (fst t)) (snd t))
      (filter (fun t => fst (fst t) = tok) toks).

(** The text that a scan tokenizes. *)
Definition scanned_text (mask : bool) (text : str) : str :=
  if mask then mask_cpp_comments_and_strings text else text.

(** The result of merging [a] into what the bucket holds for [tok]. *)
Definition merge_agg (cap : Z) (tok : str) (cur : option NearTokenAggregate)
    (a : NearTokenAggregate) : NearTokenAggregate :=
  match cur with
  | None => mkNearTokenAggregate tok (agg_count a) (agg_locs a)
  | Some cur =>
      mkNearTokenAggregate (agg_token cur) (agg_count cur + agg_count a)
        (if cap =? 0 then agg_locs cur ++ agg_locs a
         else if cap - len (agg_locs cur) >? 0
              then agg_locs cur ++ take (Z.to_nat (cap - len (agg_locs cur))) (agg_locs a)
              else agg_locs cur)
  end.

(** [tok.lower() if case_insensitive else tok]. *)
Definition norm_case (case_insensitive : bool) (tok : str) : str :=
  if case_insensitive then lower tok else tok.

(** The tokens that the compare scan counts for A, and those it counts for
    B: the latter are tested only when the former test fails. *)
Definition counts_for_a (ci : bool) (acmp : str) (t : str * Z * Z) : bool :=
  bool_decide (norm_case ci (fst (fst t)) = acmp).

Definition counts_for_b (ci : bool) (acmp bcmp : str) (t : str * Z * Z) : bool :=
  negb (counts_for_a ci acmp t) && bool_decide (norm_case ci (fst (fst t)) = bcmp).

Definition occ_of (rp : str) (t : str * Z * Z) : Occurrence :=
  mkOccurrence rp (snd (fst t)) (snd t).

(** ** A small file system for the examples *)

Definition demo_load_text (path encoding : str) : option str :=
  if bool_decide (path = list_ascii_of_string "near.c")
  then Some (list_ascii_of_string "Root root ROOT Rot // Root")
  else if bool_decide (path = list_ascii_of_string "cmp.c")
  then Some (list_ascii_of_string "Elefant elefant Elefant Giraffe")
  else None.

Definition demo_relpath_str (path root : str) : str := path.

Definition demo_write_file (name : str) : bool := true.

Definition demo_near_args : NearArgs :=
  mkNearArgs (list_ascii_of_string ".") (list_ascii_of_string "Root") 1
             true false [] 20 false (list_ascii_of_string "utf-8").

Definition demo_compare_args (expect : str) : CompareArgs :=
  mkCompareArgs (list_ascii_of_string ".") (list_ascii_of_string "Elefant")
                (list_ascii_of_string "Giraffe") true expect (SFone 53 1024) 0 5
                false (list_ascii_of_string "utf-8") [] [].

(** ** What the masker writes *)

(** What [put_spaces] makes of a character. *)
Definition blank_char (c : ascii) : ascii :=
  if Ascii.eqb c ch_nl then ch_nl else ch_space.

(** A text in which the loop of the masker finds nothing to mask. *)
Definition no_start (src : str) : Prop :=
  forall p, (p < length src)%nat -> start_at src p = false.

(** [*/] occurs in [body]. *)
Definition has_block_end (body : str) : Prop :=
  exists q, body !! q = Some "*"%char /\ body !! S q = Some "/"%char.

(** The body of a string or char literal closed by [q]: characters other
    than the quote and the backslash, and pairs of a backslash and any
    character. *)
Fixpoint literal_body (q : ascii) (body : str) : bool :=
  match body with
  | [] => true
  | c :: body' =>
      if Ascii.eqb c ch_backslash then
        match body' with
        | _ :: body'' => literal_body q body''
        | [] => false
        end
      else negb (Ascii.eqb c q) && literal_body q body'
  end.

(** [sub] occurs in [s] at position [q]. *)
Definition occurs_at (sub s : str) (q : nat) : bool := starts_with sub (drop q s).

(** The state of the loop moved [a] positions to the right, behind a
    prefix [o1] of the output. *)
Definition mask_lift (a : nat) (o1 : str) (st : mask_state) : mask_state :=
  MaskState (a + m_i st) (o1 ++ m_out st) (m_break st).

(** What masking does to a character: nothing, or a character that ends no
    line becomes a space. *)
Definition blanked (c d : ascii) : Prop :=
  c = d \/ (is_linebreak c = false /\ d = ch_space).

(** ** What [cmd_near] prints of the aggregate *)

(** [sum(a.count for a in token_map.values())]. *)
Definition bucket_hits (token_map : gmap str NearTokenAggregate) : Z :=
  map_fold (fun _ a acc => acc + agg_count a) 0 token_map.

(** [sum(a.count for d in agg.values() for a in d.values())]. *)
Definition total_hits (agg : near_result) : Z :=
  map_fold (fun _ token_map acc =>
              map_fold (fun _ a acc => acc + agg_count a) acc token_map)
           0 agg.

(** The header lines of the loop [for dist in range(0, args.max_dist + 1)],
    which passes over the distances without tokens: the distance, the
    number of unique tokens and the hits. *)
Definition printed_buckets (agg : near_result) (max_dist : Z) : list (Z * Z * Z) :=
  flat_map
    (fun dist =>
       let token_map := default ∅ (agg !! dist) in
       if bool_decide (token_map = ∅) then []
       else [(dist, Z.of_nat (size token_map), bucket_hits token_map)])
    (py_range 0 (max_dist + 1)).

(** The sum of [g] over the values of a dictionary. *)
Definition map_sum `{Countable K} {A} (g : A -> Z) (m : gmap K A) : Z :=
  map_fold (fun _ a acc => acc + g a) 0 m.

(** The tokens of a text that the near scan keeps. *)
Definition accepted_tokens (args : NearArgs) (text : str) : list (str * Z * Z) :=
  let ci := near_case_insensitive args in
  filter
    (fun t =>
       is_Some (near_key (norm_case ci (near_needle args))
                  (list_to_set (map (norm_case ci) (near_ignore_token args)))
                  (near_max_dist args) ci (near_same_first_char args) (fst (fst t))))
    (iter_identifiers_with_pos (scanned_text (negb (near_no_mask args)) text)).

(** The keys of a result lie in [range(0, max_dist + 1)] and none of its
    buckets is empty. *)
Definition buckets_in_range (max_dist : Z) (r : near_result) : Prop :=
  forall d b, r !! d = Some b -> 0 <= d <= max_dist /\ b <> ∅.

(** The order of the text on occurrences: by line, then by column. *)
Definition occ_lt (o1 o2 : Occurrence) : Prop :=
  occ_line o1 < occ_line o2 \/ (occ_line o1 = occ_line o2 /\ occ_col o1 < occ_col o2).

(** What the cap leaves of [n] occurrences. *)
Definition capped_len (cap n : Z) : Z :=
  if cap =? 0 then n else Z.min n (Z.max 0 cap).

(** ** Filesystem helpers *)

(** [p.endswith("*")]. *)
Definition ends_with_star (p : str) : bool :=
  match last p with
  | Some c => Ascii.eqb c "*"
  | None => false
  end.

(** [should_skip_dir(dirname, patterns)]; [removelast p] is [p[:-1]] and
    [starts_with q dirname] is [dirname.startswith(q)]. *)
Fixpoint should_skip_dir (dirname : str) (patterns : list str) : bool :=
  match patterns with
  | [] => false
  | p :: patterns' =>
      if ends_with_star p then
        if starts_with (removelast p) dirname then true
        else should_skip_dir dirname patterns'
      else
        if bool_decide (dirname = p) then true
        else should_skip_dir dirname patterns'
  end.

(** A directory as [os.walk] reads it: the names of its files and its
    subdirectories, in the order in which the walk lists them.  A
    directory that the walk does not enter (a symbolic link, a directory
    that cannot be read) is a subdirectory without content.  The name of
    the root is not used. *)
#[local] Unset Elimination Schemes.
Inductive dir_tree := Dir (name : str) (subdirs : list dir_tree) (files : list str).
#[local] Set Elimination Schemes.

(** Induction on a directory, with the property at hand for all its
    subdirectories. *)
Fixpoint dir_tree_ind (P : dir_tree -> Prop)
    (step : forall name subdirs files, Forall P subdirs -> P (Dir name subdirs files))
    (t : dir_tree) : P t :=
  match t with
  | Dir name subdirs files =>
      step name subdirs files
        ((fix all (l : list dir_tree) : Forall P l :=
            match l with
            | [] => @List.Forall_nil _ P
            | t' :: l' => @List.Forall_cons _ P t' l' (dir_tree_ind P step t') (all l')
            end) subdirs)
  end.

Definition tree_name (t : dir_tree) : str :=
  match t with Dir name _ _ => name end.

Definition tree_subdirs (t : dir_tree) : list dir_tree :=
  match t with Dir _ subdirs _ => subdirs end.

Definition tree_files (t : dir_tree) : list str :=
  match t with Dir _ _ files => files end.

(** [name.rfind(".")], counted from position [i] of the name; [None]
    stands for [-1]. *)
Fixpoint rfind_dot (name : str) (i : nat) : option nat :=
  match name with
  | [] => None
  | c :: name' =>
      match rfind_dot name' (S i) with
      | Some j => Some j
      | None => if Ascii.eqb c "." then Some i else None
      end
  end.

(** [Path(dirpath, fn).suffix], which [pathlib] takes from the last
    component [fn]: [fn[i:]] for [i = fn.rfind(".")] when
    [0 < i < len(fn) - 1], the empty string otherwise. *)
Definition suffix (fn : str) : str :=
  match rfind_dot fn 0 with
  | Some i => if (0 <? i)%nat && (i <? length fn - 1)%nat then drop i fn else []
  | None => []
  end.

(** [iter_source_files] on the directory [t], which the walk has reached
    as [dirpath]: first the files of [t] whose suffix is in [exts], then
    the subdirectories that are left in [dirnames], each with all that is
    below it.  A path is the list of the names that lead to it from the
    root. *)
Fixpoint walk_source_files (exts skip_dirs : list str) (t : dir_tree)
    (dirpath : list str) : list (list str) :=
  match t with
  | Dir _ subdirs files =>
      map (fun fn => dirpath ++ [fn])
          (filter (fun fn => suffix fn ∈ exts) files) ++
      (fix below (l : list dir_tree) : list (list str) :=
         match l with
         | [] => []
         | t' :: l' =>
             if should_skip_dir (tree_name t') skip_dirs then below l'
             else walk_source_files exts skip_dirs t' (dirpath ++ [tree_name t']) ++
                  below l'
         end) subdirs
  end.

Definition iter_source_files (root : dir_tree) (exts skip_dirs : list str)
    : list (list str) :=
  walk_source_files exts skip_dirs root [].

(** The file [fn] lies in the directory reached from [t] through the
    directories [dirs]. *)
Fixpoint has_file (t : dir_tree) (dirs : list str) (fn : str) : Prop :=
  match dirs with
  | [] => In fn (tree_files t)
  | d :: dirs' =>
      exists t', In t' (tree_subdirs t) /\ tree_name t' = d /\ has_file t' dirs' fn
  end.

(** * Proofs *)

(** ** Facts about the Levenshtein distance *)

Lemma lev_nil_r a : levenshtein a [] = length a.
Proof. by destruct a. Qed.

Lemma lev_cons x y a b :
  levenshtein (x :: a) (y :: b) =
  Nat.min (Nat.min (S (levenshtein a (y :: b))) (S (levenshtein (x :: a) b)))
          (levenshtein a b + (if Ascii.eqb x y then 0 else 1))%nat.
Proof. reflexivity. Qed.

Lemma lev_sym a b : levenshtein a b = levenshtein b a.
Proof.
  revert b. induction a as [|x a IHa]; intros b.
  - by rewrite lev_nil_r.
  - induction b as [|y b IHb]; [done|].
    rewrite !lev_cons, IHb, (IHa (y :: b)), (IHa b), (Ascii.eqb_sym x y). lia.
Qed.

Lemma lev_refl a : levenshtein a a = 0%nat.
Proof.
  induction a as [|x a IH]; [done|].
  rewrite lev_cons, IH, Ascii.eqb_refl. lia.
Qed.

Lemma lev_length_diff a b :
  (length a - length b <= levenshtein a b)%nat /\
  (length b - length a <= levenshtein a b)%nat.
Proof.
  revert b. induction a as [|x a IHa]; intros b.
  - simpl. lia.
  - induction b as [|y b IHb]; [simpl; lia|].
    rewrite lev_cons. pose proof (IHa (y :: b)). pose proof (IHa b).
    cbn [length] in *. destruct (Ascii.eqb x y); lia.
Qed.

Lemma lev_le_max a b : (levenshtein a b <= Nat.max (length a) (length b))%nat.
Proof.
  revert b. induction a as [|x a IHa]; intros b.
  - simpl. lia.
  - induction b as [|y b IHb]; [simpl; lia|].
    rewrite lev_cons. pose proof (IHa b).
    cbn [length] in *. destruct (Ascii.eqb x y); lia.
Qed.

(** [min (min x y) z <= t] when one of the leaves is below [t]. *)
Ltac min_le :=
  lazymatch goal with
  | |- (Nat.min _ _ <= _)%nat =>
      apply Nat.min_le_iff; ((left; min_le) || (right; min_le))
  | _ => lia
  end.

Lemma lev_nil_l b : levenshtein [] b = length b.
Proof. reflexivity. Qed.

(** The recurrence on the last characters, which is the one the row by
    row table of [bounded_levenshtein] follows. *)
Lemma lev_snoc a b x y :
  levenshtein (a ++ [x]) (b ++ [y]) =
  Nat.min (Nat.min (S (levenshtein a (b ++ [y]))) (S (levenshtein (a ++ [x]) b)))
          (levenshtein a b + (if Ascii.eqb x y then 0 else 1))%nat.
Proof.
  remember (length a + length b)%nat as n eqn:Hn.
  revert a b Hn. induction n as [n IH] using lt_wf_ind. intros a b Hn.
  destruct a as [|a0 a]; destruct b as [|b0 b]; cbn [app length] in *.
  - rewrite lev_cons, !lev_nil_l, !lev_nil_r. cbn [length].
    destruct (Ascii.eqb x y); lia.
  - pose proof (IH (length b) ltac:(lia) [] b eq_refl) as E.
    cbn [app] in E.
    rewrite !lev_cons, E, !lev_nil_l, !length_app. cbn [length].
    destruct (Ascii.eqb x y), (Ascii.eqb x b0); lia.
  - pose proof (IH (length a) ltac:(lia) a [] ltac:(cbn [length]; lia)) as E.
    cbn [app] in E.
    rewrite !lev_cons, E, !lev_nil_r, !length_app. cbn [length].
    destruct (Ascii.eqb x y), (Ascii.eqb a0 y); lia.
  - pose proof (IH (length a + length (b0 :: b))%nat ltac:(cbn [length]; lia)
                  a (b0 :: b) eq_refl) as E1.
    pose proof (IH (length (a0 :: a) + length b)%nat ltac:(cbn [length]; lia)
                  (a0 :: a) b eq_refl) as E2.
    pose proof (IH (length a + length b)%nat ltac:(lia) a b eq_refl) as E3.
    cbn [app] in E1, E2.
    rewrite !lev_cons, E1, E2, E3. clear.
    generalize (levenshtein a (b0 :: b ++ [y])) (levenshtein (a ++ [x]) (b0 :: b))
      (levenshtein a (b0 :: b)) (levenshtein (a0 :: a) (b ++ [y]))
      (levenshtein (a0 :: a ++ [x]) b) (levenshtein (a0 :: a) b)
      (levenshtein a (b ++ [y])) (levenshtein (a ++ [x]) b) (levenshtein a b).
    intros t1 t2 t3 t4 t5 t6 t7 t8 t9.
    rewrite <- !Nat.add_min_distr_r, !Nat.succ_min_distr.
    destruct (Ascii.eqb x y), (Ascii.eqb a0 b0);
      apply Nat.le_antisymm; repeat apply Nat.min_glb; min_le.
Qed.

(** The recurrence gives the least number of edits. *)
Lemma levenshtein_reached a b : edit_cost a b (levenshtein a b).
Proof.
  revert b. induction a as [|x a IHa]; intros b.
  - rewrite lev_nil_l. induction b as [|y b IHb]; [constructor|].
    cbn [length]. by constructor.
  - induction b as [|y b IHb].
    + rewrite lev_nil_r. cbn [length]. apply edit_delete.
      specialize (IHa []). by rewrite lev_nil_r in IHa.
    + rewrite lev_cons.
      destruct (Nat.min_spec (Nat.min (S (levenshtein a (y :: b)))
                                      (S (levenshtein (x :: a) b)))
                  (levenshtein a b + (if Ascii.eqb x y then 0 else 1))%nat)
        as [[_ ->]|[_ ->]].
      * destruct (Nat.min_spec (S (levenshtein a (y :: b)))
                               (S (levenshtein (x :: a) b))) as [[_ ->]|[_ ->]].
        -- apply edit_delete, IHa.
        -- apply edit_insert, IHb.
      * destruct (Ascii.eqb_spec x y) as [->|_].
        -- rewrite Nat.add_0_r. apply edit_keep, IHa.
        -- rewrite Nat.add_1_r. apply edit_substitute, IHa.
Qed.

Lemma lev_delete_le x a b : (levenshtein (x :: a) b <= S (levenshtein a b))%nat.
Proof.
  destruct b as [|y b].
  - rewrite !lev_nil_r. cbn [length]. lia.
  - rewrite lev_cons. lia.
Qed.

Lemma lev_insert_le y a b : (levenshtein a (y :: b) <= S (levenshtein a b))%nat.
Proof. rewrite (lev_sym a (y :: b)), (lev_sym a b). apply lev_delete_le. Qed.

Lemma levenshtein_least a b n : edit_cost a b n -> (levenshtein a b <= n)%nat.
Proof.
  induction 1 as [|x a b n _ IH|x y a b n _ IH|x a b n _ IH|y a b n _ IH].
  - cbn. lia.
  - rewrite lev_cons, Ascii.eqb_refl. lia.
  - rewrite lev_cons. destruct (Ascii.eqb x y); lia.
  - pose proof (lev_delete_le x a b). lia.
  - pose proof (lev_insert_le y a b). lia.
Qed.

(** ** The table of prefix distances *)

Lemma take_S_nth {A} (d : A) (l : list A) (n : nat) :
  (n < length l)%nat -> take (S n) l = take n l ++ [nth n l d].
Proof.
  revert n. induction l as [|x l IH]; intros n Hn; cbn [length] in Hn; [lia|].
  destruct n as [|n]; [done|]. cbn [take nth app]. f_equal. apply IH. lia.
Qed.

Section Table.
Variables a b : str.

Lemma table_0_l j : 0 <= j <= len b -> table a b 0 j = j.
Proof.
  intros Hj. unfold table, len in *. cbn [Z.to_nat take].
  rewrite lev_nil_l, length_take. lia.
Qed.

Lemma table_0_r i : 0 <= i <= len a -> table a b i 0 = i.
Proof.
  intros Hi. unfold table, len in *. cbn [Z.to_nat take].
  rewrite lev_nil_r, length_take. lia.
Qed.

Lemma table_full : table a b (len a) (len b) = Z.of_nat (levenshtein a b).
Proof.
  unfold table, len. rewrite !Nat2Z.id, !firstn_all. reflexivity.
Qed.

Lemma table_rec i j :
  1 <= i <= len a -> 1 <= j <= len b ->
  table a b i j =
  Z.min (Z.min (table a b (i - 1) j + 1) (table a b i (j - 1) + 1))
        (table a b (i - 1) (j - 1) +
         (if Ascii.eqb (zget "000"%char a (i - 1)) (zget "000"%char b (j - 1))
          then 0 else 1)).
Proof.
  intros Hi Hj. unfold table, zget, len in *.
  replace (Z.to_nat i) with (S (Z.to_nat (i - 1))) by lia.
  replace (Z.to_nat j) with (S (Z.to_nat (j - 1))) by lia.
  rewrite (take_S_nth "000"%char a) by lia.
  rewrite (take_S_nth "000"%char b) by lia.
  rewrite lev_snoc.
  destruct (Ascii.eqb _ _); lia.
Qed.

Lemma table_diff i j :
  0 <= i <= len a -> 0 <= j <= len b -> Z.abs (i - j) <= table a b i j.
Proof.
  intros Hi Hj. unfold table, len in *.
  pose proof (lev_length_diff (take (Z.to_nat i) a) (take (Z.to_nat j) b)) as H.
  rewrite !length_take in H. lia.
Qed.

Lemma table_le_max i j :
  0 <= i <= len a -> 0 <= j <= len b -> table a b i j <= Z.max i j.
Proof.
  intros Hi Hj. unfold table, len in *.
  pose proof (lev_le_max (take (Z.to_nat i) a) (take (Z.to_nat j) b)) as H.
  rewrite !length_take in H. lia.
Qed.

(** Every cell of row [i + 1] is at least some cell of row [i] to its
    left or above it. *)
Lemma table_row_step i j :
  0 <= i < len a -> 0 <= j <= len b ->
  exists j', 0 <= j' <= j /\ table a b i j' <= table a b (i + 1) j.
Proof.
  intros Hi Hj. assert (0 <= j) as Hj0 by lia.
  revert Hj. pattern j. apply natlike_ind; [| |exact Hj0]; clear Hj0 j.
  - intros _. exists 0. rewrite !table_0_r by lia. lia.
  - intros j0 Hj0 IH Hj.
    destruct IH as (j' & Hj' & Hle); [lia|].
    pose proof (table_rec (i + 1) (Z.succ j0) ltac:(lia) ltac:(lia)) as E.
    replace (i + 1 - 1) with i in E by lia.
    replace (Z.succ j0 - 1) with j0 in E by lia.
    destruct (Ascii.eqb _ _) in E.
    + destruct (Z.le_gt_cases (table a b i j0) (table a b (i + 1) (Z.succ j0)));
        [exists j0; lia|].
      destruct (Z.le_gt_cases (table a b i (Z.succ j0)) (table a b (i + 1) (Z.succ j0)));
        [exists (Z.succ j0); lia|].
      exists j'. lia.
    + destruct (Z.le_gt_cases (table a b i j0) (table a b (i + 1) (Z.succ j0)));
        [exists j0; lia|].
      destruct (Z.le_gt_cases (table a b i (Z.succ j0)) (table a b (i + 1) (Z.succ j0)));
        [exists (Z.succ j0); lia|].
      exists j'. lia.
Qed.

(** The final distance is at least some cell of every row. *)
Lemma table_row_lower i :
  0 <= i <= len a ->
  exists j, 0 <= j <= len b /\ table a b i j <= Z.of_nat (levenshtein a b).
Proof.
  intros Hi.
  assert (forall n : nat, forall i j, 0 <= i -> i + Z.of_nat n <= len a ->
            0 <= j <= len b ->
            exists j', 0 <= j' <= j /\
                       table a b i j' <= table a b (i + Z.of_nat n) j) as H.
  { induction n as [|n IH]; intros i0 j Hi0 Hn Hj.
    - exists j. replace (i0 + Z.of_nat 0) with i0 by lia. lia.
    - destruct (table_row_step (i0 + Z.of_nat n) j) as (j1 & Hj1 & H1); [lia..|].
      destruct (IH i0 j1) as (j2 & Hj2 & H2); [lia..|].
      exists j2. replace (i0 + Z.of_nat (S n)) with (i0 + Z.of_nat n + 1) by lia.
      lia. }
  destruct (H (Z.to_nat (len a - i)) i (len b)) as (j & Hj & Hle); [unfold len in *; lia..|].
  exists j. split; [lia|].
  replace (i + Z.of_nat (Z.to_nat (len a - i))) with (len a) in Hle by lia.
  by rewrite table_full in Hle.
Qed.
End Table.

(** ** Reading and writing rows *)

Lemma zget_insert_eq {A} (d : A) (l : list A) (j : Z) (v : A) :
  0 <= j < len l -> zget d (<[Z.to_nat j := v]> l) j = v.
Proof.
  intros Hj. unfold zget, len in *. rewrite nth_lookup.
  rewrite list_lookup_insert_eq by lia. reflexivity.
Qed.

Lemma zget_insert_ne {A} (d : A) (l : list A) (j j' : Z) (v : A) :
  0 <= j -> 0 <= j' -> j <> j' -> zget d (<[Z.to_nat j := v]> l) j' = zget d l j'.
Proof.
  intros Hj Hj' Hne. unfold zget. rewrite !nth_lookup.
  rewrite list_lookup_insert_ne by lia. reflexivity.
Qed.

Lemma zget_replicate {A} (d x : A) (n j : Z) :
  0 <= j < n -> zget d (replicate (Z.to_nat n) x) j = x.
Proof.
  intros Hj. unfold zget. rewrite nth_lookup.
  rewrite lookup_replicate_2 by lia. reflexivity.
Qed.

Lemma zget_range (n j : Z) : 0 <= j < n -> zget 0 (py_range 0 n) j = j.
Proof.
  intros Hj. unfold zget, py_range. rewrite nth_lookup.
  rewrite lookup_seqZ_lt by lia. simpl. lia.
Qed.

Lemma capped_min3 k x x' y y' z z' c :
  capped k x = capped k x' -> capped k y = capped k y' ->
  capped k z = capped k z' -> 0 <= c <= 1 ->
  capped k (Z.min (Z.min (x + 1) (y + 1)) (z + c)) =
  capped k (Z.min (Z.min (x' + 1) (y' + 1)) (z' + c)).
Proof. unfold capped. lia. Qed.

Section BandedCorrect.
Variables (a b : str) (k : Z).
Hypothesis Hk : 0 <= k.
Hypothesis Hab : len a <= len b.

Let nb := len b.

Lemma cell_step i j prev st :
  1 <= i <= len a -> row_ok a b k (i - 1) prev ->
  1 <= j <= nb -> Z.max 1 (i - k) <= j ->
  cell_inv a b k i j st ->
  cell_inv a b k i (j + 1) (lev_cell (zget "000"%char a (i - 1)) b prev st j).
Proof.
  intros Hi [Hplen Hprev] Hj Hstart (Hlen & Hlow & Hhigh & Hmin).
  destruct st as [cur rm]. cbn [fst snd] in *. unfold lev_cell.
  set (v := Z.min _ _).
  assert (capped k v = capped k (table a b i j)) as Hv.
  { rewrite (table_rec a b i j) by (unfold nb in *; lia). subst v.
    apply capped_min3.
    - apply Hprev. lia.
    - apply Hlow. lia.
    - apply Hprev. lia.
    - destruct (Ascii.eqb _ _); lia. }
  unfold cell_inv. fold nb. cbn [fst snd]. repeat split.
  - unfold len in *. rewrite length_insert. lia.
  - intros j' Hj'. destruct (decide (j' = j)) as [->|Hne].
    + rewrite zget_insert_eq by lia. exact Hv.
    + rewrite zget_insert_ne by lia. apply Hlow. lia.
  - intros j' Hj'. rewrite zget_insert_ne by lia. apply Hhigh. lia.
  - intros Hrm j' Hj'. destruct (decide (j' = j)) as [->|Hne].
    + rewrite zget_insert_eq by lia. destruct (Z.ltb_spec v rm); lia.
    + rewrite zget_insert_ne by lia. apply Hmin; [|lia].
      destruct (Z.ltb_spec v rm); lia.
Qed.

Lemma cell_fold i prev (n : nat) : forall j st,
  1 <= i <= len a -> row_ok a b k (i - 1) prev ->
  1 <= j -> j + Z.of_nat n <= nb + 1 -> Z.max 1 (i - k) <= j ->
  cell_inv a b k i j st ->
  cell_inv a b k i (j + Z.of_nat n)
    (fold_left (lev_cell (zget "000"%char a (i - 1)) b prev) (seqZ j (Z.of_nat n)) st).
Proof.
  induction n as [|n IH]; intros j st Hi Hprev Hj Hn Hstart Hinv.
  - cbn [seqZ fold_left]. replace (j + Z.of_nat 0) with j by lia. exact Hinv.
  - rewrite seqZ_cons by lia. cbn [fold_left].
    replace (Z.pred (Z.of_nat (S n))) with (Z.of_nat n) by lia.
    replace (j + Z.of_nat (S n)) with (Z.succ j + Z.of_nat n) by lia.
    apply IH; try lia; try assumption.
    replace (Z.succ j) with (j + 1) by lia.
    apply cell_step; try assumption; lia.
Qed.

Lemma row_correct i prev :
  1 <= i <= len a -> row_ok a b k (i - 1) prev ->
  row_ok a b k i (fst (lev_row k a b nb prev i)) /\
  (k < snd (lev_row k a b nb prev i) ->
   forall j, 0 <= j <= nb -> k < table a b i j).
Proof.
  intros Hi Hprev. unfold lev_row.
  set (start := Z.max 1 (i - k)). set (end_ := Z.min nb (i + k)).
  set (cur0 := <[0%nat := i]> _).
  assert (len cur0 = nb + 1) as Hlen0.
  { unfold len, cur0. rewrite length_insert, length_replicate. unfold nb, len. lia. }
  assert (zget 0 cur0 0 = i) as Hc0.
  { unfold cur0. apply (zget_insert_eq 0 _ 0).
    unfold len. rewrite length_replicate. unfold nb, len. lia. }
  assert (forall j, 1 <= j <= nb -> zget 0 cur0 j = k + 1) as Hc1.
  { intros j Hj. unfold cur0. rewrite (zget_insert_ne 0 _ 0) by lia.
    apply zget_replicate. lia. }
  assert (cell_inv a b k i start (cur0, k + 1)) as Hinit.
  { unfold cell_inv. fold nb. cbn [fst snd]. repeat split.
    - exact Hlen0.
    - intros j' Hj'. destruct (decide (j' = 0)) as [->|Hne].
      + rewrite Hc0, table_0_r by lia. reflexivity.
      + rewrite Hc1 by (unfold start in *; lia).
        pose proof (table_diff a b i j' ltac:(lia) ltac:(unfold nb, start in *; lia)).
        unfold capped, start in *. lia.
    - intros j' Hj'. apply Hc1. unfold start in *. lia.
    - intros _ j' Hj'. lia. }
  unfold py_range.
  pose proof (cell_fold i prev (Z.to_nat (end_ + 1 - start)) start (cur0, k + 1)
                Hi Hprev) as Hfold.
  replace (Z.of_nat (Z.to_nat (end_ + 1 - start))) with (end_ + 1 - start) in Hfold
    by (unfold start, end_, nb in *; lia).
  destruct Hfold as (Hlen & Hlow & Hhigh & Hmin);
    [unfold start, end_, nb in *; lia..|exact Hinit|].
  replace (start + (end_ + 1 - start)) with (end_ + 1) in * by lia.
  set (st := fold_left _ _ _) in *.
  assert (forall j, 0 <= j <= nb ->
            capped k (zget 0 (fst st) j) = capped k (table a b i j)) as Hall.
  { intros j Hj. destruct (Z.lt_ge_cases j (end_ + 1)) as [Hlt|Hge].
    - apply Hlow. lia.
    - rewrite Hhigh by lia.
      pose proof (table_diff a b i j ltac:(lia) ltac:(unfold nb in *; lia)).
      unfold capped, end_ in *. lia. }
  split; [split; assumption|].
  intros Hrm j Hj. specialize (Hmin Hrm).
  assert (forall j', start <= j' <= end_ -> k < table a b i j') as Hband.
  { intros j' Hj'. pose proof (Hmin j' ltac:(lia)) as H1.
    pose proof (Hall j' ltac:(unfold start, end_ in *; lia)) as H2.
    unfold capped in H2. lia. }
  destruct (Z.lt_ge_cases j start) as [Hlt|Hge].
  - destruct (decide (j = 0)) as [->|Hne].
    + rewrite table_0_r by lia.
      destruct (Z.lt_ge_cases k i) as [|Hik]; [lia|].
      pose proof (Hband 1 ltac:(unfold start, end_, nb in *; lia)) as H1.
      pose proof (table_le_max a b i 1 ltac:(lia) ltac:(unfold nb in *; lia)).
      lia.
    + pose proof (table_diff a b i j ltac:(lia) ltac:(unfold nb in *; lia)).
      unfold start in *. lia.
  - destruct (Z.lt_ge_cases end_ j) as [Hgt|Hle].
    + pose proof (table_diff a b i j ltac:(lia) ltac:(unfold nb in *; lia)).
      unfold end_ in *. lia.
    + apply Hband. lia.
Qed.

Lemma rows_correct (n : nat) : forall i prev,
  1 <= i -> i + Z.of_nat n = len a + 1 -> row_ok a b k (i - 1) prev ->
  lev_rows k a b nb (seqZ i (Z.of_nat n)) prev =
  Z.min (Z.of_nat (levenshtein a b)) (k + 1).
Proof.
  induction n as [|n IH]; intros i prev Hi Hn [Hlen Hprev].
  - change (seqZ i (Z.of_nat 0)) with (@nil Z). cbn [lev_rows].
    replace (i - 1) with (len a) in Hprev by lia.
    specialize (Hprev nb ltac:(unfold nb, len; lia)).
    pose proof (table_full a b) as Hf. fold nb in Hf. rewrite Hf in Hprev.
    unfold capped in Hprev. destruct (Z.leb_spec (zget 0 prev nb) k); lia.
  - rewrite seqZ_cons by lia. cbn [lev_rows].
    replace (Z.pred (Z.of_nat (S n))) with (Z.of_nat n) by lia.
    destruct (row_correct i prev ltac:(lia) (conj Hlen Hprev)) as [Hrow Hexit].
    destruct (lev_row k a b nb prev i) as [cur rm]. cbn [fst snd] in *.
    destruct (Z.gtb_spec rm k) as [Hgt|Hle].
    + destruct (table_row_lower a b i ltac:(lia)) as (j & Hj & Hjle).
      specialize (Hexit Hgt j Hj). lia.
    + apply IH; [lia..|]. replace (Z.succ i - 1) with i by lia. exact Hrow.
Qed.

Lemma banded_correct :
  lev_rows k a b nb (py_range 1 (len a + 1)) (py_range 0 (nb + 1)) =
  Z.min (Z.of_nat (levenshtein a b)) (k + 1).
Proof.
  unfold py_range.
  replace (len a + 1 - 1) with (Z.of_nat (Z.to_nat (len a))) by (unfold len; lia).
  apply rows_correct; [lia|unfold len; lia|].
  split.
  - unfold len. rewrite length_seqZ. unfold nb, len. lia.
  - intros j Hj. replace (1 - 1) with 0 by lia.
    fold (py_range 0 (nb + 1)).
    rewrite zget_range, table_0_l by (unfold nb in *; lia). reflexivity.
Qed.
End BandedCorrect.

(** C1. For all strings [a], [b] and every bound [k >= 0],
    [bounded_levenshtein a b k] is the minimum of the true Levenshtein
    distance and [k + 1]: the exact distance when it is at most [k], the
    sentinel [k + 1] otherwise.  The true distance is the least number of
    insertions, deletions and substitutions that turn [a] into [b]. *)
Theorem bounded_levenshtein_spec (a b : str) (k : Z) :
  0 <= k ->
  bounded_levenshtein a b k = Z.min (Z.of_nat (levenshtein a b)) (k + 1) /\
  edit_cost a b (levenshtein a b) /\
  (forall n, edit_cost a b n -> (levenshtein a b <= n)%nat).
Proof.
  intros Hk. split; [|split; [apply levenshtein_reached|apply levenshtein_least]].
  unfold bounded_levenshtein.
  case_bool_decide as Heq.
  - subst b. rewrite lev_refl. lia.
  - pose proof (lev_length_diff a b) as Hd.
    destruct (Z.gtb_spec (Z.abs (len a - len b)) k) as [Hgt|Hle].
    + unfold len in *. lia.
    + destruct (Z.gtb_spec (len a) (len b)) as [Hab|Hab].
      * rewrite (lev_sym a b). apply banded_correct; lia.
      * apply banded_correct; lia.
Qed.

Lemma bounded_levenshtein_spec_witness :
  0 <= 2 /\
  bounded_levenshtein (list_ascii_of_string "kitten") (list_ascii_of_string "sitting") 2
  = Z.min (Z.of_nat (levenshtein (list_ascii_of_string "kitten")
                                 (list_ascii_of_string "sitting"))) (2 + 1).
Proof.
  split; [lia|].
  apply (bounded_levenshtein_spec (list_ascii_of_string "kitten")
           (list_ascii_of_string "sitting") 2).
  lia.
Defined.

Section MaskerFacts.
Local Open Scope nat_scope.

Lemma put_spaces_length a b out : length (put_spaces a b out) = length out.
Proof.
  unfold put_spaces. generalize (b - a) as m. intros m. revert a out.
  induction m as [|m IH]; intros a out; [done|].
  cbn [seq fold_left]. rewrite IH.
  destruct (Ascii.eqb _ _); [done|]. apply length_insert.
Qed.

Lemma char_at_insert (l : str) (k p : nat) (c : ascii) :
  k < length l ->
  char_at (<[k := c]> l) p = if decide (p = k) then c else char_at l p.
Proof.
  intros Hk. unfold char_at. rewrite !nth_lookup.
  case_decide as Hp.
  - subst p. by rewrite list_lookup_insert_eq.
  - by rewrite list_lookup_insert_ne.
Qed.

Lemma put_spaces_char_at a b out p :
  b <= length out ->
  char_at (put_spaces a b out) p =
  if (a <=? p) && (p <? b) && negb (Ascii.eqb (char_at out p) ch_nl)
  then ch_space else char_at out p.
Proof.
  unfold put_spaces. intros Hb.
  destruct (Nat.le_gt_cases b a) as [Hle|Hlt].
  { replace (b - a) with 0 by lia. cbn [seq fold_left].
    destruct (Nat.leb_spec a p), (Nat.ltb_spec p b); cbn [andb]; try done; lia. }
  replace b with (a + (b - a)) at 2 by lia.
  assert (a + (b - a) <= length out) as Hb' by lia.
  revert Hb'. generalize (b - a) as m. clear Hb Hlt b. intros m. revert a out.
  induction m as [|m IH]; intros a out Hb.
  - cbn [seq fold_left].
    destruct (Nat.leb_spec a p), (Nat.ltb_spec p (a + 0)); cbn [andb]; try done; lia.
  - cbn [seq fold_left]. rewrite IH.
    2:{ destruct (Ascii.eqb _ _); [|rewrite length_insert]; lia. }
    destruct (Ascii.eqb (char_at out a) ch_nl) eqn:Ea.
    + destruct (decide (p = a)) as [->|Hne].
      * rewrite Ea. cbn [negb]. rewrite !andb_false_r. done.
      * destruct (Nat.leb_spec (S a) p), (Nat.leb_spec a p),
          (Nat.ltb_spec p (S a + m)), (Nat.ltb_spec p (a + S m));
          cbn [andb]; try done; lia.
    + rewrite char_at_insert by lia.
      destruct (decide (p = a)) as [->|Hne].
      * destruct (Nat.leb_spec (S a) a); [lia|]. cbn [andb].
        rewrite Ea. cbn [negb].
        destruct (Nat.leb_spec a a), (Nat.ltb_spec a (a + S m)); cbn [andb]; try done; lia.
      * destruct (Nat.leb_spec (S a) p), (Nat.leb_spec a p),
          (Nat.ltb_spec p (S a + m)), (Nat.ltb_spec p (a + S m));
          cbn [andb]; try done; lia.
Qed.

Lemma skip_until_bounds stop rest i :
  i <= skip_until stop rest i <= i + length rest.
Proof.
  revert i. induction rest as [|c rest IH]; intros i; cbn [skip_until length]; [lia|].
  destruct (Ascii.eqb c stop); [lia|]. specialize (IH (S i)). lia.
Qed.

Lemma skip_block_bounds rest i :
  i <= skip_block rest i <= i + length rest.
Proof.
  revert i. induction rest as [|c rest IH]; intros i; cbn [skip_block length]; [lia|].
  destruct rest as [|d rest']; [lia|].
  destruct (_ && _); [lia|]. specialize (IH (S i)). lia.
Qed.

Lemma skip_quoted_bounds q rest i :
  i <= skip_quoted q rest i <= i + length rest.
Proof.
  remember (length rest) as m eqn:Hm. revert rest i Hm.
  induction m as [m IH] using lt_wf_ind. intros rest i Hm.
  destruct rest as [|c rest]; cbn [skip_quoted length] in *; [lia|].
  destruct rest as [|d rest']; cbn [length] in *.
  - destruct (Ascii.eqb c q); cbn [skip_quoted]; lia.
  - destruct (Ascii.eqb c ch_backslash).
    + pose proof (IH (length rest') ltac:(lia) rest' (i + 2) eq_refl). lia.
    + destruct (Ascii.eqb c q); [lia|].
      pose proof (IH (length (d :: rest')) ltac:(cbn [length]; lia)
                    (d :: rest') (i + 1) eq_refl).
      cbn [length] in *. lia.
Qed.

Lemma starts_with_length sub rest :
  starts_with sub rest = true -> length sub <= length rest.
Proof.
  revert rest. induction sub as [|x sub IH]; intros [|y rest]; cbn; try lia; try done.
  intros [_ H]%andb_prop. apply IH in H. lia.
Qed.

Lemma find_from_bounds sub rest i p :
  find_from sub rest i = Some p ->
  i <= p /\ p + length sub <= i + length rest.
Proof.
  revert i. induction rest as [|c rest IH]; intros i; cbn [find_from].
  - destruct (starts_with sub []) eqn:E; [|done].
    intros [= <-]. apply starts_with_length in E. lia.
  - destruct (starts_with sub (c :: rest)) eqn:E.
    + intros [= <-]. apply starts_with_length in E. lia.
    + intros H%IH. cbn [length]. lia.
Qed.

Lemma str_find_bounds src sub i p :
  str_find src sub i = Some p -> i <= p /\ p + length sub <= length src.
Proof.
  unfold str_find. destruct (Nat.ltb_spec (length src) i) as [|Hle]; [done|].
  intros H%find_from_bounds. rewrite length_drop in H. lia.
Qed.

Lemma mask_step_stopped src st :
  length src <= frontier src st -> mask_step src st = st.
Proof.
  unfold frontier, mask_step. intros H.
  destruct (m_break st); [done|].
  destruct (Nat.ltb_spec (m_i st) (length src)); [lia|done].
Qed.

Lemma mask_step_plain src st :
  frontier src st < length src -> start_at src (m_i st) = false ->
  mask_step src st = MaskState (m_i st + 1) (m_out st) false.
Proof.
  unfold frontier, mask_step, start_at. intros Hf Hs.
  destruct (m_break st); [lia|].
  destruct (Nat.ltb_spec (m_i st) (length src)) as [Hlt|]; [|lia].
  cbn [orb negb]. cbv zeta in Hs |- *.
  repeat (apply orb_false_elim in Hs; destruct Hs as [Hs ?]).
  repeat match goal with H : _ = false |- _ => rewrite H; clear H end.
  reflexivity.
Qed.

Lemma mask_step_region src st :
  frontier src st < length src -> start_at src (m_i st) = true ->
  exists e, m_i st < e <= length src /\
            m_out (mask_step src st) = put_spaces (m_i st) e (m_out st) /\
            frontier src (mask_step src st) = e.
Proof.
  unfold frontier at 1. unfold mask_step, start_at. intros Hf Hs.
  destruct (m_break st); [lia|].
  destruct (Nat.ltb_spec (m_i st) (length src)) as [Hlt|]; [|lia].
  cbn [orb negb]. cbv zeta in Hs |- *.
  set (i := m_i st) in *. set (n := length src) in *.
  destruct (Ascii.eqb (char_at src i) "/" &&
            ((i + 1 <? n) && Ascii.eqb (char_at src (i + 1)) "/")) eqn:E1.
  { apply andb_prop in E1 as [_ [E1 _]%andb_prop]. apply Nat.ltb_lt in E1.
    pose proof (skip_until_bounds ch_nl (drop (i + 2) src) (i + 2)) as Hb.
    rewrite length_drop in Hb. fold n in Hb.
    eexists. split; [|split; reflexivity]. unfold frontier. cbn. lia. }
  destruct (Ascii.eqb (char_at src i) "/" &&
            ((i + 1 <? n) && Ascii.eqb (char_at src (i + 1)) "*")) eqn:E2.
  { apply andb_prop in E2 as [_ [E2 _]%andb_prop]. apply Nat.ltb_lt in E2.
    pose proof (skip_block_bounds (drop (i + 2) src) (i + 2)) as Hb.
    eexists. split; [|split; reflexivity]. unfold frontier. cbn. lia. }
  destruct (Ascii.eqb (char_at src i) ch_dquote) eqn:E3.
  { pose proof (skip_quoted_bounds ch_dquote (drop (i + 1) src) (i + 1)) as Hb.
    rewrite length_drop in Hb. fold n in Hb.
    eexists. split; [|split; reflexivity]. unfold frontier. cbn. lia. }
  destruct (Ascii.eqb (char_at src i) ch_squote) eqn:E4.
  { pose proof (skip_quoted_bounds ch_squote (drop (i + 1) src) (i + 1)) as Hb.
    rewrite length_drop in Hb. fold n in Hb.
    eexists. split; [|split; reflexivity]. unfold frontier. cbn. lia. }
  destruct (Ascii.eqb (char_at src i) "R" &&
            ((i + 1 <? n) && Ascii.eqb (char_at src (i + 1)) ch_dquote)) eqn:E5;
    [|done].
  apply andb_prop in E5 as [_ [E5 _]%andb_prop]. apply Nat.ltb_lt in E5.
  destruct (Nat.leb_spec n (skip_until "(" (drop (i + 2) src) (i + 2))) as [Hge|Hlt'].
  { exists n. unfold frontier. cbn. split; [lia|done]. }
  destruct (str_find src _ _) as [close_pos|] eqn:Ef.
  - apply str_find_bounds in Ef. fold n in Ef.
    pose proof (skip_until_bounds "(" (drop (i + 2) src) (i + 2)) as Hb.
    eexists. split; [|split; reflexivity]. unfold frontier. cbn [m_break m_i].
    lia.
  - exists n. unfold frontier. cbn. split; [lia|done].
Qed.

Lemma mask_inv_init src : mask_inv src (MaskState 0 src false).
Proof.
  unfold mask_inv, frontier. cbn. repeat split; try lia; try done; auto; lia.
Qed.

Lemma mask_inv_step src st :
  mask_inv src st ->
  mask_inv src (mask_step src st) /\
  (frontier src st < length src ->
   frontier src st < frontier src (mask_step src st)).
Proof.
  intros Hinv.
  destruct (Nat.le_gt_cases (length src) (frontier src st)) as [Hend|Hrun].
  { rewrite mask_step_stopped by done. split; [done|lia]. }
  destruct Hinv as (Hlen & Hfr & Hsuf & Hblank & Hset).
  assert (frontier src st = m_i st) as Hfi.
  { unfold frontier in *. destruct (m_break st); [lia|done]. }
  destruct (start_at src (m_i st)) eqn:Hs.
  - destruct (mask_step_region src st Hrun Hs) as (e & He & Hout & Hfe).
    split; [|lia]. unfold mask_inv. rewrite Hout, Hfe.
    assert (forall p, char_at (put_spaces (m_i st) e (m_out st)) p =
              if (m_i st <=? p) && (p <? e) &&
                 negb (Ascii.eqb (char_at (m_out st) p) ch_nl)
              then ch_space else char_at (m_out st) p) as Hput.
    { intros p. apply put_spaces_char_at. lia. }
    split; [by rewrite put_spaces_length|]. split; [lia|]. split; [|split].
    + intros p Hp. rewrite Hput.
      destruct (Nat.ltb_spec p e); [lia|]. rewrite andb_false_r. cbn [andb].
      apply Hsuf. lia.
    + intros p Hp. rewrite Hput.
      destruct ((m_i st <=? p) && (p <? e) && _) eqn:E; [|by apply Hblank].
      right. split; [done|].
      apply andb_prop in E as [[E1 _]%andb_prop E2]. apply Nat.leb_le in E1.
      rewrite <- (Hsuf p) by lia. intros Heq. rewrite Heq in E2. done.
    + intros p Hp. unfold settled. rewrite Hput.
      destruct (Nat.leb_spec (m_i st) p) as [Hge|Hlt].
      * destruct (Nat.ltb_spec p e); [|lia]. cbn [andb].
        destruct (Ascii.eqb (char_at (m_out st) p) ch_nl) eqn:E; cbn [negb].
        -- apply Ascii.eqb_eq in E. rewrite E. cbv zeta. by repeat split.
        -- cbv zeta. by repeat split.
      * cbn [andb]. apply Hset. lia.
  - rewrite (mask_step_plain src st Hrun Hs).
    unfold mask_inv, frontier in *. cbn [m_out m_i m_break].
    split; [|lia]. split; [done|]. split; [lia|]. split; [|split; [done|]].
    + intros p Hp. apply Hsuf. destruct (m_break st); lia.
    + intros p Hp. destruct (decide (p = m_i st)) as [->|Hne].
      2:{ apply Hset. destruct (m_break st); lia. }
      unfold settled. rewrite (Hsuf (m_i st)) by (destruct (m_break st); lia).
      unfold start_at in Hs. cbv zeta in Hs |- *.
      apply orb_false_elim in Hs as [Hs H5].
      apply orb_false_elim in Hs as [Hs H4].
      apply orb_false_elim in Hs as [Hs H3].
      apply orb_false_elim in Hs as [H1 H2].
      split; [|split; [|split]].
      * intros Heq. rewrite Heq in H3. done.
      * intros Heq. rewrite Heq in H4. done.
      * intros Heq. rewrite Heq in H1, H2. done.
      * intros Heq. rewrite Heq in H5. done.
Qed.

Lemma mask_iter_inv src t :
  let st := Nat.iter t (mask_step src) (MaskState 0 src false) in
  mask_inv src st /\ Nat.min t (length src) <= frontier src st.
Proof.
  induction t as [|t [IH1 IH2]]; cbn zeta.
  - split; [apply mask_inv_init|]. cbn. lia.
  - cbn [Nat.iter nat_rect] in *.
    destruct (mask_inv_step src _ IH1) as [Hinv Hgrow].
    split; [exact Hinv|].
    destruct (Nat.le_gt_cases (length src)
                (frontier src (Nat.iter t (mask_step src) (MaskState 0 src false))))
      as [Hend|Hrun].
    + rewrite mask_step_stopped by done. unfold Nat.iter in *. lia.
    + specialize (Hgrow Hrun). unfold Nat.iter in *. lia.
Qed.

(** After [len(src)] iterations the condition of the [while] loop is
    false, or the loop was left by [break]: the loop has ended. *)
Lemma mask_loop_ended src :
  let st := Nat.iter (length src) (mask_step src) (MaskState 0 src false) in
  m_break st = true \/ length src <= m_i st.
Proof.
  destruct (mask_iter_inv src (length src)) as [_ H]. cbn zeta.
  unfold frontier in H. destruct (m_break _); [by left|right; lia].
Qed.

(** More iterations change nothing: the result is the output of the loop
    when it ends. *)
Lemma mask_more_iterations src (m : nat) :
  length src <= m ->
  m_out (Nat.iter m (mask_step src) (MaskState 0 src false)) =
  mask_cpp_comments_and_strings src.
Proof.
  unfold mask_cpp_comments_and_strings. intros Hm.
  replace m with ((m - length src) + length src) by lia.
  generalize (m - length src) as extra. intros extra.
  induction extra as [|extra IH]; [done|].
  cbn [Nat.add Nat.iter nat_rect]. unfold Nat.iter in IH.
  rewrite mask_step_stopped; [exact IH|].
  destruct (mask_iter_inv src (extra + length src)) as [_ H].
  cbv zeta in H. unfold Nat.iter in H. lia.
Qed.

Lemma mask_final_inv src :
  let out := mask_cpp_comments_and_strings src in
  length out = length src /\
  (forall p, p < length src ->
     char_at out p = char_at src p \/
     (char_at out p = ch_space /\ char_at src p <> ch_nl)) /\
  (forall p, p < length src -> settled src out p).
Proof.
  destruct (mask_iter_inv src (length src)) as [(H1 & H2 & _ & H4 & H5) H].
  cbn zeta. unfold mask_cpp_comments_and_strings.
  split; [done|]. split; [done|]. intros p Hp. apply H5. lia.
Qed.

Lemma lookup_char_at (l : str) (p : nat) :
  p < length l -> l !! p = Some (char_at l p).
Proof.
  intros Hp. unfold char_at. rewrite nth_lookup.
  destruct (lookup_lt_is_Some_2 l p Hp) as [c ->]. done.
Qed.

(** A text that holds no start is left as it is. *)
Lemma mask_clean src :
  (forall p, p < length src -> start_at src p = false) ->
  mask_cpp_comments_and_strings src = src.
Proof.
  intros Hclean. unfold mask_cpp_comments_and_strings.
  assert (forall t, t <= length src ->
            Nat.iter t (mask_step src) (MaskState 0 src false)
            = MaskState t src false) as H.
  { induction t as [|t IH]; intros Ht; [done|].
    cbn [Nat.iter nat_rect] in *. unfold Nat.iter in IH. rewrite IH by lia.
    rewrite mask_step_plain.
    - cbn. f_equal. lia.
    - unfold frontier. cbn. lia.
    - cbn. apply Hclean. lia. }
  by rewrite H.
Qed.

Lemma mask_output_clean src p :
  p < length src -> start_at (mask_cpp_comments_and_strings src) p = false.
Proof.
  intros Hp. destruct (mask_final_inv src) as (Hlen & Hblank & Hset).
  cbv zeta in *. set (out := mask_cpp_comments_and_strings src) in *.
  destruct (Hset p Hp) as (Hdq & Hsq & Hsl & HR).
  assert (forall d, d <> ch_space ->
            (p + 1 <? length out) && Ascii.eqb (char_at out (p + 1)) d = true ->
            (p + 1 <? length src) && Ascii.eqb (char_at src (p + 1)) d = true)
    as Hnext.
  { intros d Hd [H1 H2]%andb_prop. rewrite Hlen in H1. rewrite H1. cbn [andb].
    apply Nat.ltb_lt in H1. apply Ascii.eqb_eq in H2.
    destruct (Hblank (p + 1) H1) as [E|[E _]].
    - rewrite <- E, H2. apply Ascii.eqb_refl.
    - congruence. }
  unfold start_at. cbv zeta.
  destruct (Ascii.eqb (char_at out p) ch_dquote) eqn:E3;
    [apply Ascii.eqb_eq in E3; done|].
  destruct (Ascii.eqb (char_at out p) ch_squote) eqn:E4;
    [apply Ascii.eqb_eq in E4; done|].
  rewrite !orb_false_r.
  destruct (Ascii.eqb (char_at out p) "/") eqn:E1.
  - apply Ascii.eqb_eq in E1. destruct (Hsl E1) as [Ha Hb].
    destruct (Ascii.eqb (char_at out p) "R") eqn:E5;
      [apply Ascii.eqb_eq in E5; congruence|].
    cbn [andb orb]. rewrite orb_false_r.
    destruct ((p + 1 <? length out) && Ascii.eqb (char_at out (p + 1)) "/") eqn:F1.
    { apply Hnext in F1; [congruence|done]. }
    destruct ((p + 1 <? length out) && Ascii.eqb (char_at out (p + 1)) "*") eqn:F2.
    { apply Hnext in F2; [congruence|done]. }
    done.
  - cbn [andb orb].
    destruct (Ascii.eqb (char_at out p) "R") eqn:E5; [|done].
    apply Ascii.eqb_eq in E5. specialize (HR E5). cbn [andb].
    destruct ((p + 1 <? length out) && Ascii.eqb (char_at out (p + 1)) ch_dquote) eqn:F.
    { apply Hnext in F; [congruence|done]. }
    done.
Qed.

(** C2. The masker returns a text of the same length in which every
    character is either the one of the input or a space put in place of
    a character that is not a newline; hence the newlines are at exactly
    the same positions. *)
Theorem mask_preserves_layout (src : str) :
  let out := mask_cpp_comments_and_strings src in
  length out = length src /\
  (forall p c, src !! p = Some c ->
     out !! p = Some c \/ (c <> ch_nl /\ out !! p = Some ch_space)) /\
  (forall p, out !! p = Some ch_nl <-> src !! p = Some ch_nl).
Proof.
  destruct (mask_final_inv src) as (Hlen & Hblank & _). cbv zeta in *.
  set (out := mask_cpp_comments_and_strings src) in *.
  assert (forall p c, src !! p = Some c ->
            out !! p = Some c \/ (c <> ch_nl /\ out !! p = Some ch_space)) as H.
  { intros p c Hc. pose proof (lookup_lt_Some _ _ _ Hc) as Hp.
    rewrite (lookup_char_at src p Hp) in Hc. injection Hc as <-.
    rewrite (lookup_char_at out p) by lia.
    destruct (Hblank p Hp) as [->|[-> Hn]]; auto. }
  split; [done|]. split; [done|].
  intros p. split.
  - intros Ho. pose proof (lookup_lt_Some _ _ _ Ho) as Hp. rewrite Hlen in Hp.
    destruct (lookup_lt_is_Some_2 src p Hp) as [c Hc].
    destruct (H p c Hc) as [Ho'|[Hn Ho']]; rewrite Ho' in Ho.
    + by injection Ho as ->.
    + done.
  - intros Hs. destruct (H p _ Hs) as [Ho'|[Hn Ho']]; done.
Qed.

(** C9. The masker is idempotent. *)
Theorem mask_idempotent (src : str) :
  mask_cpp_comments_and_strings (mask_cpp_comments_and_strings src)
  = mask_cpp_comments_and_strings src.
Proof.
  apply mask_clean. intros p Hp. apply mask_output_clean.
  destruct (mask_final_inv src) as (Hlen & _). cbv zeta in Hlen. lia.
Qed.
End MaskerFacts.

Section TokenizerFacts.
Local Open Scope nat_scope.

Lemma ident_start_cont c : ident_start c = true -> ident_cont c = true.
Proof. unfold ident_cont. intros ->. done. Qed.

Lemma ident_cont_word c : ident_cont c = true -> is_word c = true.
Proof. unfold is_word. intros ->. done. Qed.

Lemma char_at_drop (l : str) k q : char_at (drop k l) q = char_at l (k + q).
Proof. unfold char_at. by rewrite !nth_lookup, lookup_drop. Qed.

Lemma star_len_spec rest :
  (forall q, q < star_len rest -> ident_cont (char_at rest q) = true) /\
  star_len rest <= length rest /\
  (star_len rest < length rest ->
   ident_cont (char_at rest (star_len rest)) = false).
Proof.
  induction rest as [|c rest (IH1 & IH2 & IH3)]; cbn [star_len length].
  - repeat split; intros; lia.
  - destruct (ident_cont c) eqn:Ec.
    + split; [|split].
      * intros [|q] Hq; [done|]. cbn. apply IH1. lia.
      * lia.
      * intros H. cbn. apply IH3. lia.
    + split; [|split]; [intros; lia|lia|]. intros _. exact Ec.
Qed.

Lemma not_boundary_inside line p :
  0 < p < length line ->
  is_word (char_at line (p - 1)) = true -> is_word (char_at line p) = true ->
  is_boundary line p = false.
Proof.
  intros Hp H1 H2. unfold is_boundary. rewrite H1, H2.
  destruct (Nat.ltb_spec 0 p), (Nat.ltb_spec p (length line)); try lia. done.
Qed.

Lemma backtrack_spec line s m :
  s + 1 + m <= length line ->
  (forall p, s <= p < s + 1 + m -> is_word (char_at line p) = true) ->
  backtrack line s m =
  if is_boundary line (s + 1 + m) then Some (s + 1 + m) else None.
Proof.
  revert s. induction m as [|m IH]; intros s Hlen Hw; cbn [backtrack].
  - done.
  - destruct (is_boundary line (s + 1 + S m)); [done|].
    rewrite IH by (try lia; intros; apply Hw; lia).
    rewrite not_boundary_inside; [done|lia|apply Hw; lia|apply Hw; lia].
Qed.

(** [IDENT_RE] matches at [s] up to [e] exactly when [[s, e)] is a token. *)
Lemma match_at_token line s e :
  match_at line s = Some e <-> token_at line s e.
Proof.
  unfold match_at, token_at.
  pose proof (star_len_spec (drop (s + 1) line)) as (Hc & Hl & Hstop).
  set (m := star_len (drop (s + 1) line)) in *.
  rewrite length_drop in Hl, Hstop.
  assert (forall q, q < m -> ident_cont (char_at line (s + 1 + q)) = true) as Hc'.
  { intros q Hq. rewrite <- char_at_drop. by apply Hc. }
  rewrite char_at_drop in Hstop. clear Hc.
  destruct (is_boundary line s) eqn:Hbs; cbn [andb].
  2:{ split; [done|]. intros (_ & ? & _). done. }
  destruct (Nat.ltb_spec s (length line)) as [Hs|Hs]; cbn [andb].
  2:{ split; [done|]. intros (? & _). lia. }
  destruct (ident_start (char_at line s)) eqn:Hst.
  2:{ split; [done|]. intros (_ & _ & _ & ? & _). done. }
  assert (forall p, s <= p < s + 1 + m -> ident_cont (char_at line p) = true) as Hrun.
  { intros p Hp. destruct (decide (p = s)) as [->|Hne].
    - by apply ident_start_cont.
    - replace p with (s + 1 + (p - s - 1)) by lia. apply Hc'. lia. }
  rewrite backtrack_spec by (try lia; intros; apply ident_cont_word, Hrun; lia).
  split.
  - destruct (is_boundary line (s + 1 + m)) eqn:Hbe; [|done].
    intros [= <-]. repeat split; try done; try lia.
    intros p Hp. apply Hrun. lia.
  - intros (Hse & _ & Hbe & _ & Hin).
    assert (e = s + 1 + m) as ->; [|by rewrite Hbe].
    destruct (Nat.lt_trichotomy e (s + 1 + m)) as [Hlt|[->|Hgt]]; [|done|].
    + rewrite not_boundary_inside in Hbe; [done|lia|..];
        apply ident_cont_word, Hrun; lia.
    + specialize (Hin (s + 1 + m) ltac:(lia)).
      rewrite Hstop in Hin by lia. done.
Qed.

Lemma token_at_unique line s e e' :
  token_at line s e -> token_at line s e' -> e = e'.
Proof.
  intros H1%match_at_token H2%match_at_token. congruence.
Qed.

(** No token starts inside another one. *)
Lemma token_at_disjoint line s e s' e' :
  token_at line s e -> token_at line s' e' -> s < s' -> e <= s'.
Proof.
  intros (Hse & _ & _ & Hst & Hin) (Hse' & Hbs' & _ & Hst' & _) Hlt.
  destruct (Nat.le_gt_cases e s') as [|Hgt]; [done|].
  rewrite not_boundary_inside in Hbs'; [done|lia|..].
  - destruct (decide (s' - 1 = s)) as [->|Hne].
    + by apply ident_cont_word, ident_start_cont.
    + apply ident_cont_word, Hin. lia.
  - by apply ident_cont_word, ident_start_cont.
Qed.

Lemma finditer_from_spec fuel : forall line pos s e,
  length line - pos <= fuel ->
  (In (s, e) (finditer_from fuel line pos) <-> pos <= s /\ token_at line s e).
Proof.
  induction fuel as [|fuel IH]; intros line pos s e Hfuel; cbn [finditer_from].
  - split; [done|]. intros [Hp (Hse & _)]. lia.
  - destruct (Nat.leb_spec (length line) pos) as [Hend|Hlt].
    { split; [done|]. intros [Hp (Hse & _)]. lia. }
    destruct (match_at line pos) as [e0|] eqn:Hm.
    + apply match_at_token in Hm. cbn [In]. rewrite IH by (destruct Hm; lia).
      split.
      * intros [[= <- <-]|[Hge Ht]]; [done|]. split; [|done]. destruct Hm. lia.
      * intros [Hge Ht]. destruct (decide (s = pos)) as [->|Hne].
        -- left. f_equal. eapply token_at_unique; eassumption.
        -- right. split; [|done].
           eapply token_at_disjoint; [exact Hm|exact Ht|lia].
    + rewrite IH by lia. split.
      * intros [Hge Ht]. split; [lia|done].
      * intros [Hge Ht]. split; [|done].
        destruct (decide (s = pos)) as [->|Hne]; [|lia].
        apply match_at_token in Ht. congruence.
Qed.

(** More steps than [len(line) - pos] change nothing. *)
Lemma finditer_from_fuel fuel : forall fuel' line pos,
  length line - pos <= fuel -> length line - pos <= fuel' ->
  finditer_from fuel line pos = finditer_from fuel' line pos.
Proof.
  induction fuel as [|fuel IH]; intros fuel' line pos H1 H2.
  - destruct fuel' as [|fuel']; [done|]. cbn [finditer_from].
    destruct (Nat.leb_spec (length line) pos); [done|lia].
  - destruct fuel' as [|fuel']; cbn [finditer_from].
    + destruct (Nat.leb_spec (length line) pos); [done|lia].
    + destruct (Nat.leb_spec (length line) pos); [done|].
      destruct (match_at line pos) as [e|] eqn:Hm.
      * apply match_at_token in Hm as (Hse & _). f_equal. apply IH; lia.
      * apply IH; lia.
Qed.

(** [finditer] yields exactly the tokens of the line. *)
Lemma finditer_spec line s e :
  In (s, e) (finditer line) <-> token_at line s e.
Proof.
  unfold finditer. rewrite finditer_from_spec by lia. split; [tauto|].
  intros H. split; [lia|done].
Qed.

Lemma finditer_from_sorted fuel : forall line pos,
  StronglySorted (fun x y => fst x < fst y) (finditer_from fuel line pos) /\
  Forall (fun x => pos <= fst x) (finditer_from fuel line pos).
Proof.
  induction fuel as [|fuel IH]; intros line pos; cbn [finditer_from].
  - split; constructor.
  - destruct (Nat.leb_spec (length line) pos) as [Hend|Hlt]; [split; constructor|].
    destruct (match_at line pos) as [e0|] eqn:Hm.
    + apply match_at_token in Hm. destruct Hm as (Hse & _).
      destruct (IH line e0) as [IH1 IH2]. split.
      * constructor; [done|]. eapply Forall_impl; [exact IH2|].
        cbn. intros x Hx. lia.
      * constructor; [cbn; lia|]. eapply Forall_impl; [exact IH2|].
        cbn. intros x Hx. lia.
    + destruct (IH line (pos + 1)) as [IH1 IH2]. split; [done|].
      eapply Forall_impl; [exact IH2|]. cbn. intros x Hx. lia.
Qed.

Lemma line_tokens_spec lineno line tok ln col :
  In (tok, ln, col) (line_tokens lineno line) <->
  ln = lineno /\
  exists s e, token_at line s e /\ tok = slice line s e /\
              col = (Z.of_nat s + 1)%Z.
Proof.
  unfold line_tokens. rewrite in_map_iff. split.
  - intros ([s e] & [= <- <- <-] & Hin). apply finditer_spec in Hin.
    split; [done|]. by exists s, e.
  - intros (-> & s & e & Ht & -> & ->). exists (s, e).
    split; [done|]. by apply finditer_spec.
Qed.

Lemma line_tokens_sorted lineno line :
  StronglySorted pos_lt (line_tokens lineno line) /\
  Forall (fun x => snd (fst x) = lineno) (line_tokens lineno line).
Proof.
  unfold line_tokens. split.
  - apply (StronglySorted_fmap _ (fun x y : nat * nat => fst x < fst y)).
    + intros x y Hxy. right. cbn. split; [done|lia].
    + apply finditer_from_sorted.
  - apply Forall_forall. intros x Hx%list_elem_of_In.
    apply in_map_iff in Hx as ([s e] & <- & _). done.
Qed.

Lemma enumerate_spec {A} (l : list A) : forall start ln (x : A),
  In (ln, x) (enumerate l start) <->
  (start <= ln)%Z /\ l !! Z.to_nat (ln - start) = Some x.
Proof.
  induction l as [|y l IH]; intros start ln x; cbn [enumerate In].
  - split; [done|]. intros [_ H]. done.
  - rewrite IH. split.
    + intros [[= <- <-]|[Hle Hl]].
      * split; [lia|]. by replace (start - start)%Z with 0%Z by lia.
      * split; [lia|].
        replace (Z.to_nat (ln - start)) with (S (Z.to_nat (ln - (start + 1)))) by lia.
        done.
    + intros [Hle Hl]. destruct (decide (ln = start)) as [->|Hne].
      * left. replace (start - start)%Z with 0%Z in Hl by lia.
        cbn in Hl. by injection Hl as ->.
      * right. split; [lia|].
        replace (Z.to_nat (ln - start)) with (S (Z.to_nat (ln - (start + 1)))) in Hl
          by lia.
        done.
Qed.

Lemma tokens_sorted (lines : list str) : forall start,
  let toks := flat_map (fun ln => line_tokens (fst ln) (snd ln))
                       (enumerate lines start) in
  StronglySorted pos_lt toks /\ Forall (fun x => (start <= snd (fst x))%Z) toks.
Proof.
  induction lines as [|line lines IH]; intros start; cbn zeta;
    cbn [enumerate flat_map fst snd].
  - split; constructor.
  - destruct (IH (start + 1)%Z) as [IH1 IH2]. cbn zeta in IH1, IH2.
    destruct (line_tokens_sorted start line) as [L1 L2].
    rewrite Forall_forall in IH2, L2. split.
    + apply StronglySorted_app_2; [|done..].
      intros x y Hx Hy. left.
      rewrite (L2 x Hx). specialize (IH2 y Hy). lia.
    + apply Forall_forall. intros x [Hx|Hx]%elem_of_app.
      * rewrite (L2 x Hx). lia.
      * specialize (IH2 x Hx). lia.
Qed.

(** The tokenizer yields exactly the identifiers that stand between two
    word boundaries of a line, each with its text, the 1-based number of
    its line and the 1-based column of its first character, in the order
    of the text. *)
Lemma tokens_spec (text : str) :
  (forall tok ln col,
     In (tok, ln, col) (iter_identifiers_with_pos text) <->
     exists line s e,
       (1 <= ln)%Z /\ splitlines text !! Z.to_nat (ln - 1) = Some line /\
       token_at line s e /\ tok = slice line s e /\
       col = (Z.of_nat s + 1)%Z) /\
  StronglySorted pos_lt (iter_identifiers_with_pos text).
Proof.
  split; [|apply tokens_sorted].
  intros tok ln col. unfold iter_identifiers_with_pos. rewrite in_flat_map.
  split.
  - intros ([ln' line] & Hen & Hin). cbn [fst snd] in Hin.
    apply enumerate_spec in Hen as [Hle Hl].
    apply line_tokens_spec in Hin as (-> & s & e & Ht & -> & ->).
    by exists line, s, e.
  - intros (line & s & e & Hle & Hl & Ht & -> & ->).
    exists (ln, line). split; [by apply enumerate_spec|].
    cbn [fst snd]. apply line_tokens_spec. split; [done|]. by exists s, e.
Qed.

Lemma slice_cons line s e :
  s < e <= length line ->
  slice line s e = char_at line s :: slice line (S s) e.
Proof.
  intros H. unfold slice.
  destruct (lookup_lt_is_Some_2 line s ltac:(lia)) as [c Hc].
  rewrite (drop_S _ _ _ Hc). replace (e - s) with (S (e - S s)) by lia.
  cbn [take]. f_equal. unfold char_at. by rewrite nth_lookup, Hc.
Qed.

Lemma forallb_slice (P : ascii -> bool) line (m : nat) : forall s,
  s + m <= length line ->
  (forallb P (slice line s (s + m)) = true <->
   forall p, s <= p < s + m -> P (char_at line p) = true).
Proof.
  induction m as [|m IH]; intros s Hs.
  - unfold slice. replace (s + 0 - s) with 0 by lia. cbn. split; [|done].
    intros _ p Hp. lia.
  - rewrite slice_cons by lia. cbn [forallb]. rewrite andb_true_iff.
    replace (s + S m) with (S s + m) by lia. rewrite IH by lia. split.
    + intros [H0 H1] p Hp. destruct (decide (p = s)) as [->|Hne]; [done|].
      apply H1. lia.
    + intros H. split; [apply H; lia|]. intros p Hp. apply H. lia.
Qed.

Lemma ident_grammar_slice line s e :
  s < e <= length line ->
  (ident_grammar (slice line s e) = true <->
   ident_start (char_at line s) = true /\
   forall p, s < p < e -> ident_cont (char_at line p) = true).
Proof.
  intros H. rewrite slice_cons by done. cbn [ident_grammar].
  rewrite andb_true_iff. replace e with (S s + (e - S s)) at 1 by lia.
  rewrite forallb_slice by lia. split.
  - intros [H0 H1]. split; [done|]. intros p Hp. apply H1. lia.
  - intros [H0 H1]. split; [done|]. intros p Hp. apply H1. lia.
Qed.

(** What the two [\b] of [IDENT_RE] ask of a match. *)
Lemma token_at_delimited line s e :
  token_at line s e <-> delimited_ident line s e.
Proof.
  unfold token_at, delimited_ident. split.
  - intros (Hse & Hbs & Hbe & Hst & Hin).
    split; [done|]. split; [by apply ident_grammar_slice|].
    unfold is_boundary in Hbs, Hbe.
    rewrite (ident_cont_word _ (ident_start_cont _ Hst)) in Hbs.
    assert (is_word (char_at line (e - 1)) = true) as Hlast.
    { destruct (decide (e - 1 = s)) as [->|Hne].
      - by apply ident_cont_word, ident_start_cont.
      - apply ident_cont_word, Hin. lia. }
    rewrite Hlast in Hbe.
    destruct (Nat.ltb_spec s (length line)); [|lia].
    destruct (Nat.ltb_spec 0 e); [|lia]. cbn [andb] in Hbs, Hbe.
    split.
    + destruct (Nat.ltb_spec 0 s); [|left; lia]. cbn [andb] in Hbs.
      right. by destruct (is_word (char_at line (s - 1))).
    + destruct (Nat.ltb_spec e (length line)); [|left; lia]. cbn [andb] in Hbe.
      right. by destruct (is_word (char_at line e)).
  - intros (Hse & Hg & Hl & Hr).
    apply ident_grammar_slice in Hg as [Hst Hin]; [|done].
    split; [done|].
    assert (is_word (char_at line (e - 1)) = true) as Hlast.
    { destruct (decide (e - 1 = s)) as [->|Hne].
      - by apply ident_cont_word, ident_start_cont.
      - apply ident_cont_word, Hin. lia. }
    unfold is_boundary.
    rewrite (ident_cont_word _ (ident_start_cont _ Hst)), Hlast.
    destruct (Nat.ltb_spec s (length line)); [|lia].
    destruct (Nat.ltb_spec 0 e); [|lia]. cbn [andb].
    repeat split; try done.
    + destruct Hl as [-> | ->]; [done|]. by rewrite andb_false_r.
    + destruct Hr as [-> | ->].
      * by rewrite Nat.ltb_irrefl.
      * by rewrite andb_false_r.
Qed.

(** A delimited identifier is a maximal run of the grammar. *)
Lemma delimited_ident_maximal line s e :
  delimited_ident line s e -> spec_token_at line s e = true.
Proof.
  intros (Hse & Hg & Hl & Hr). unfold spec_token_at.
  destruct (Nat.ltb_spec s e); [|lia].
  destruct (Nat.leb_spec e (length line)); [|lia].
  rewrite Hg. cbn [andb].
  apply forallb_forall. intros s' Hs'%in_seq.
  apply forallb_forall. intros e' He'%in_seq.
  destruct (Nat.eqb_spec s' s) as [->|Hs]; destruct (Nat.eqb_spec e' e) as [->|He];
    cbn [andb]; rewrite ?orb_true_r, ?orb_false_r; try done;
    apply negb_true_iff, not_true_is_false; intros Hg';
    apply ident_grammar_slice in Hg' as [Hst' Hin']; try lia.
  - destruct Hr as [-> | Hr]; [lia|].
    rewrite (ident_cont_word _ (Hin' e ltac:(lia))) in Hr. done.
  - destruct Hl as [-> | Hl]; [lia|].
    assert (ident_cont (char_at line (s - 1)) = true) as Hc.
    { destruct (decide (s - 1 = s')) as [->|Hne].
      - by apply ident_start_cont.
      - apply Hin'. lia. }
    rewrite (ident_cont_word _ Hc) in Hl. done.
  - destruct Hr as [-> | Hr]; [lia|].
    rewrite (ident_cont_word _ (Hin' e ltac:(lia))) in Hr. done.
Qed.

(** On a line whose word characters are all identifier characters, as in
    ASCII text, the tokens are the maximal runs of identifier characters
    that start with a letter or an underscore. *)
Lemma delimited_ident_ascii line s e :
  (forall p, p < length line ->
     is_word (char_at line p) = ident_cont (char_at line p)) ->
  delimited_ident line s e <->
  s < e <= length line /\
  ident_start (char_at line s) = true /\
  (forall p, s <= p < e -> ident_cont (char_at line p) = true) /\
  (s = 0 \/ ident_cont (char_at line (s - 1)) = false) /\
  (e = length line \/ ident_cont (char_at line e) = false).
Proof.
  intros Hascii. unfold delimited_ident. split.
  - intros (Hse & Hg & Hl & Hr).
    apply ident_grammar_slice in Hg as [Hst Hin]; [|done].
    split; [done|]. split; [done|]. split; [|split].
    + intros p Hp. destruct (decide (p = s)) as [->|Hne].
      * by apply ident_start_cont.
      * apply Hin. lia.
    + destruct Hl as [Hl|Hl]; [by left|right]. by rewrite <- Hascii by lia.
    + destruct Hr as [Hr|Hr]; [by left|right].
      destruct (Nat.lt_ge_cases e (length line)).
      * by rewrite <- Hascii.
      * unfold char_at. by rewrite nth_overflow.
  - intros (Hse & Hst & Hin & Hl & Hr).
    split; [done|]. split; [|split].
    + apply ident_grammar_slice; [done|]. split; [done|].
      intros p Hp. apply Hin. lia.
    + destruct Hl as [Hl|Hl]; [by left|right]. by rewrite Hascii by lia.
    + destruct Hr as [Hr|Hr]; [by left|].
      destruct (Nat.lt_ge_cases e (length line)).
      * right. by rewrite Hascii.
      * left. lia.
Qed.

(** C3, as the code has it.  The tokenizer yields exactly the identifiers
    of the grammar that no word character touches, each with its text,
    the 1-based number of its line and the 1-based column of its first
    character, in the order of the text.  These are the maximal runs of
    the grammar that neither follow nor precede a word character; a
    maximal run that follows a digit is none of them.  Tokenizing
    [foo_bar2 BAR] yields [foo_bar2] at (1, 1) and [BAR] at (1, 10). *)
Theorem iter_identifiers_with_pos_spec (text : str) :
  (forall tok ln col,
     In (tok, ln, col) (iter_identifiers_with_pos text) <->
     exists line s e,
       (1 <= ln)%Z /\ splitlines text !! Z.to_nat (ln - 1) = Some line /\
       delimited_ident line s e /\ tok = slice line s e /\
       col = (Z.of_nat s + 1)%Z) /\
  (forall line s e,
     delimited_ident line s e <->
     spec_token_at line s e = true /\
     (s = 0 \/ is_word (char_at line (s - 1)) = false) /\
     (e = length line \/ is_word (char_at line e) = false)) /\
  StronglySorted pos_lt (iter_identifiers_with_pos text) /\
  iter_identifiers_with_pos (list_ascii_of_string "foo_bar2 BAR") =
    [(list_ascii_of_string "foo_bar2", 1%Z, 1%Z);
     (list_ascii_of_string "BAR", 1%Z, 10%Z)].
Proof.
  destruct (tokens_spec text) as [Hin Hsorted].
  split; [|split; [|split]].
  - intros tok ln col. rewrite Hin. split.
    + intros (line & s & e & H1 & H2 & H3%token_at_delimited & H4).
      by exists line, s, e.
    + intros (line & s & e & H1 & H2 & H3%token_at_delimited & H4).
      by exists line, s, e.
  - intros line s e. split.
    + intros H. split; [by apply delimited_ident_maximal|]. by destruct H as (_ & _ & ?).
    + intros (Hspec & Hl & Hr). unfold spec_token_at in Hspec.
      apply andb_prop in Hspec as [Hspec _].
      apply andb_prop in Hspec as [Hspec Hg].
      apply andb_prop in Hspec as [Hs He%Nat.leb_le]. apply Nat.ltb_lt in Hs.
      by repeat split.
  - exact Hsorted.
  - vm_compute. reflexivity.
Qed.

(** The claim C3 as it is worded fails on [0x1F]: [x1F] is a maximal run
    of the grammar there, at column 2 of line 1, and the tokenizer yields
    nothing. *)
Lemma tokenizer_skips_run_after_digit :
  ~ yields_grammar_runs (list_ascii_of_string "0x1F").
Proof.
  intros H.
  destruct (H (list_ascii_of_string "x1F") 1%Z 2%Z) as [_ Hback].
  assert (In (list_ascii_of_string "x1F", 1%Z, 2%Z)
             (iter_identifiers_with_pos (list_ascii_of_string "0x1F"))) as Hin.
  { apply Hback. exists (list_ascii_of_string "0x1F"), 1, 4.
    repeat split; vm_compute; congruence. }
  vm_compute in Hin. exact Hin.
Qed.

(** A run that follows a letter of Latin-1 is skipped as well: in a line
    made of [e] with an acute accent (code point 233) and [a], the run [a]
    is a maximal run of the grammar and of the identifier characters, and
    the tokenizer yields nothing. *)
Lemma tokenizer_skips_run_after_latin_letter :
  let line := ["233"%char; "a"%char] in
  spec_token_at line 1 2 = true /\
  ident_cont (char_at line 0) = false /\
  iter_identifiers_with_pos line = [].
Proof. vm_compute. repeat split; reflexivity. Qed.
End TokenizerFacts.

(** ** The near scan of one file *)

Lemma entry_empty d tok : entry ∅ d tok = None.
Proof. unfold entry. by rewrite lookup_empty. Qed.

Lemma entry_insert (out : near_result) d tok a d' tok' :
  entry (<[d := <[tok := a]> (default ∅ (out !! d))]> out) d' tok' =
  if decide (d' = d /\ tok' = tok) then Some a else entry out d' tok'.
Proof.
  unfold entry. destruct (decide (d' = d)) as [->|Hd].
  - rewrite lookup_insert_eq. destruct (decide (tok' = tok)) as [->|Ht].
    + rewrite lookup_insert_eq. by rewrite decide_True.
    + rewrite lookup_insert_ne by done. rewrite decide_False by tauto.
      destruct (out !! d); cbn; [done|]. apply lookup_empty.
  - rewrite lookup_insert_ne by done. rewrite decide_False by tauto. done.
Qed.

Lemma cap_locs_nil cap : cap_locs cap [] = [].
Proof. unfold cap_locs. destruct (cap =? 0); [done|apply take_nil]. Qed.

Lemma cap_locs_snoc cap l o :
  cap_locs cap (l ++ [o]) =
  if under_cap cap (cap_locs cap l) then cap_locs cap l ++ [o] else cap_locs cap l.
Proof.
  unfold cap_locs, under_cap, len. destruct (Z.eqb_spec cap 0) as [->|Hc]; [done|].
  cbn [orb]. rewrite length_take.
  destruct (Z.ltb_spec (Z.of_nat (Z.to_nat cap `min` length l)) cap) as [Hlt|Hge].
  - rewrite (take_ge l) by lia.
    rewrite take_ge by (rewrite length_app; cbn; lia). done.
  - rewrite take_app_le by lia. done.
Qed.

Section NearScanFacts.
Variable relpath_str : str -> str -> str.
Variables (path root : str) (ncmp : str) (ignore_set : gset str).
Variables (max_dist : Z) (case_insensitive same_first_char : bool).
Variable cap : Z.

Let step := near_step relpath_str path root ncmp ignore_set max_dist
                      case_insensitive same_first_char cap.
Let key := near_key ncmp ignore_set max_dist case_insensitive same_first_char.
Let rp := relpath_str path root.

(** One token either leaves the result as it is or updates the entry of
    its own text in the bucket of its distance. *)
Lemma near_step_key out tok line col :
  step out (tok, line, col) =
  match key tok with
  | None => out
  | Some d =>
      let bucket := default ∅ (out !! d) in
      let agg := default (mkNearTokenAggregate tok 0 []) (entry out d tok) in
      <[d := <[tok := mkNearTokenAggregate (agg_token agg) (agg_count agg + 1)
                        (if under_cap cap (agg_locs agg)
                         then agg_locs agg ++ [mkOccurrence rp line col]
                         else agg_locs agg)]> bucket]> out
  end.
Proof.
  unfold step, key, near_step, near_key. cbv zeta.
  destruct (bool_decide _); [done|].
  destruct (same_first_char && _); [done|].
  destruct (Z.abs _ >? max_dist); [done|].
  destruct (_ <=? max_dist); [|done].
  unfold entry. destruct (out !! _); cbn; [done|]. by rewrite lookup_empty.
Qed.

(** The result of the scan, entry by entry. *)
Lemma near_fold_spec (toks : list (str * Z * Z)) d tok :
  entry (fold_left step toks ∅) d tok =
  if bool_decide (key tok = Some d /\ occurrences rp tok toks <> [])
  then Some (mkNearTokenAggregate tok (len (occurrences rp tok toks))
               (cap_locs cap (occurrences rp tok toks)))
  else None.
Proof.
  induction toks as [|[[tokx line] col] toks IH] using rev_ind.
  - cbn. rewrite entry_empty. rewrite bool_decide_eq_false_2; [done|]. tauto.
  - rewrite fold_left_app. cbn [fold_left]. rewrite near_step_key.
    unfold occurrences in *. rewrite filter_app, map_app.
    destruct (decide (tokx = tok)) as [->|Hne].
    2:{ rewrite filter_cons_False, filter_nil by done. cbn [map]. rewrite app_nil_r.
        destruct (key tokx) as [dx|]; [|done]. cbv zeta.
        rewrite entry_insert. rewrite decide_False by (intros [_ ?]; done). done. }
    rewrite filter_cons_True, filter_nil by done. cbn [map fst snd].
    destruct (key tok) as [dx|] eqn:Hk.
    2:{ rewrite IH. rewrite !bool_decide_eq_false_2; [done|..]; by intros [? _]. }
    cbv zeta. rewrite entry_insert.
    destruct (decide (d = dx)) as [->|Hd].
    2:{ rewrite decide_False by tauto. rewrite IH.
        rewrite !bool_decide_eq_false_2; [done|..]; intros [? _]; congruence. }
    rewrite decide_True by done. rewrite IH.
    rewrite (bool_decide_eq_true_2 (_ /\ _ ++ _ <> []));
      [|split; [done|by destruct (map _ _)]].
    f_equal. rewrite cap_locs_snoc.
    set (occs := map _ _).
    destruct (decide (occs = [])) as [Ho|Ho].
    + rewrite bool_decide_eq_false_2 by tauto. rewrite Ho, cap_locs_nil. cbn. done.
    + rewrite bool_decide_eq_true_2 by done. cbn [default agg_token agg_count agg_locs].
      f_equal. unfold len. rewrite length_app. cbn. lia.
Qed.
End NearScanFacts.

(** ** The aggregation loop *)

Section MergeFacts.
Variable cap : Z.

Lemma merge_token_lookup (bucket token_map : gmap str NearTokenAggregate) tok :
  map_fold (merge_token cap) bucket token_map !! tok =
  match token_map !! tok with
  | None => bucket !! tok
  | Some a => Some (merge_agg cap tok (bucket !! tok) a)
  end.
Proof.
  revert tok.
  apply (map_fold_weak_ind (fun r (m : gmap str NearTokenAggregate) =>
    forall tok, r !! tok = match m !! tok with
                           | None => bucket !! tok
                           | Some a => Some (merge_agg cap tok (bucket !! tok) a)
                           end)).
  - intros tok. by rewrite lookup_empty.
  - intros i a m r Hi IH tok.
    assert (merge_token cap i a r = <[i := merge_agg cap i (bucket !! i) a]> r) as ->.
    { unfold merge_token, merge_agg. rewrite (IH i), Hi.
      destruct (bucket !! i); done. }
    destruct (decide (tok = i)) as [->|Hne].
    + by rewrite !lookup_insert_eq.
    + rewrite !lookup_insert_ne by done. apply IH.
Qed.

Lemma merge_partial_lookup (agg partial : near_result) d :
  merge_partial cap agg partial !! d =
  match partial !! d with
  | None => agg !! d
  | Some token_map =>
      Some (map_fold (merge_token cap) (default ∅ (agg !! d)) token_map)
  end.
Proof.
  unfold merge_partial. revert d.
  apply (map_fold_weak_ind (fun r (m : near_result) =>
    forall d, r !! d = match m !! d with
                       | None => agg !! d
                       | Some token_map =>
                           Some (map_fold (merge_token cap)
                                          (default ∅ (agg !! d)) token_map)
                       end)).
  - intros d. by rewrite lookup_empty.
  - intros i tm m r Hi IH d. unfold merge_bucket.
    destruct (decide (d = i)) as [->|Hne].
    + rewrite !lookup_insert_eq. by rewrite (IH i), Hi.
    + rewrite !lookup_insert_ne by done. apply IH.
Qed.

(** Merging a partial result, entry by entry. *)
Lemma merge_partial_entry (agg partial : near_result) d tok :
  entry (merge_partial cap agg partial) d tok =
  match entry partial d tok with
  | None => entry agg d tok
  | Some a => Some (merge_agg cap tok (entry agg d tok) a)
  end.
Proof.
  unfold entry. rewrite merge_partial_lookup.
  destruct (partial !! d) as [tm|]; [|done].
  rewrite merge_token_lookup.
  destruct (agg !! d); cbn [default]; [done|]. by rewrite lookup_empty.
Qed.

Lemma merge_partial_empty (agg : near_result) : merge_partial cap agg ∅ = agg.
Proof. unfold merge_partial. apply map_fold_empty. Qed.

Lemma merge_partial_count (agg partial : near_result) d tok :
  count_in (merge_partial cap agg partial) d tok =
  count_in agg d tok + count_in partial d tok.
Proof.
  unfold count_in. rewrite merge_partial_entry.
  destruct (entry partial d tok) as [a|]; cbn; [|lia].
  destruct (entry agg d tok); cbn; lia.
Qed.

Lemma merge_partial_locs (agg partial : near_result) d tok :
  (0 < cap -> len (locs_in agg d tok) <= cap) ->
  (0 < cap -> len (locs_in partial d tok) <= cap) ->
  0 <= cap ->
  locs_in (merge_partial cap agg partial) d tok =
  cap_locs cap (locs_in agg d tok ++ locs_in partial d tok).
Proof.
  unfold locs_in, cap_locs, len. rewrite merge_partial_entry.
  intros Ha Hp Hcap.
  destruct (entry partial d tok) as [a|], (entry agg d tok) as [cur|];
    cbn [from_option merge_agg agg_locs] in *; unfold len in *;
    destruct (Z.eqb_spec cap 0) as [Hc|Hc]; rewrite ?app_nil_r; try done.
  - destruct (Z.gtb_spec (cap - Z.of_nat (length (agg_locs cur))) 0) as [Hgt|Hle].
    + rewrite take_app_ge by lia. f_equal. f_equal. lia.
    + rewrite take_app_le by lia. rewrite take_ge by lia. done.
  - cbn [app]. rewrite take_ge by lia. done.
  - rewrite take_ge by lia. done.
  - by rewrite take_nil.
Qed.
End MergeFacts.

Lemma cap_locs_length cap l : 0 < cap -> len (cap_locs cap l) <= cap.
Proof.
  intros Hcap. unfold cap_locs, len.
  destruct (Z.eqb_spec cap 0); [lia|]. rewrite length_take. lia.
Qed.

Lemma cap_locs_cap_locs_app cap l1 l2 :
  0 <= cap -> cap_locs cap (cap_locs cap l1 ++ l2) = cap_locs cap (l1 ++ l2).
Proof.
  intros Hcap. unfold cap_locs. destruct (Z.eqb_spec cap 0); [done|].
  destruct (Nat.le_gt_cases (Z.to_nat cap) (length l1)).
  - rewrite (take_app_le l1) by lia. rewrite take_app_le by (rewrite length_take; lia).
    by rewrite take_take, Nat.min_id.
  - by rewrite (take_ge l1) by lia.
Qed.

(** ** Merging the results of several files *)

Section MergeAll.
Variables (cap d : Z) (tok : str).

Lemma merge_all_count (partials : list near_result) :
  count_in (fold_left (merge_partial cap) partials ∅) d tok =
  zsum (map (fun p => count_in p d tok) partials).
Proof.
  induction partials as [|p partials IH] using rev_ind.
  - cbn. unfold count_in. by rewrite entry_empty.
  - rewrite fold_left_app, map_app. cbn [fold_left map].
    rewrite merge_partial_count, IH. unfold zsum. rewrite foldr_app. cbn [foldr].
    generalize (map (fun p => count_in p d tok) partials) as l.
    generalize (count_in p d tok) as z.
    intros z l. induction l as [|x l IHl]; cbn [foldr]; lia.
Qed.

Lemma merge_all_locs (partials : list near_result) :
  0 <= cap ->
  Forall (fun p => 0 < cap -> len (locs_in p d tok) <= cap) partials ->
  locs_in (fold_left (merge_partial cap) partials ∅) d tok =
  cap_locs cap (concat (map (fun p => locs_in p d tok) partials)).
Proof.
  intros Hcap. induction partials as [|p partials IH] using rev_ind; intros Hall.
  - cbn [fold_left map concat]. unfold locs_in. rewrite entry_empty.
    cbn [from_option]. unfold cap_locs. destruct (cap =? 0); [done|].
    by rewrite take_nil.
  - rewrite Forall_app, Forall_singleton in Hall. destruct Hall as [Hall Hp].
    rewrite fold_left_app, map_app, concat_app. cbn [fold_left map concat].
    rewrite (app_nil_r (locs_in p d tok)). rewrite merge_partial_locs; [| |done|done].
    + rewrite IH by done. by apply cap_locs_cap_locs_app.
    + intros Hpos. rewrite IH by done. by apply cap_locs_length.
Qed.
End MergeAll.

Section NearClaims.
Variable load_text : str -> str -> option str.
Variable relpath_str : str -> str -> str.

(** The result of the near scan of a readable file, entry by entry. *)
Lemma scan_file_near_entry (path root needle : str) (max_dist : Z) (ci sfc : bool)
    (ignore_tokens : list str) (cap : Z) (mask : bool) (encoding text : str)
    (d : Z) (tok : str) :
  load_text path encoding = Some text ->
  let toks := iter_identifiers_with_pos (scanned_text mask text) in
  let key :=
    near_key (if ci then lower needle else needle)
             (list_to_set (map (fun t => if ci then lower t else t) ignore_tokens))
             max_dist ci sfc in
  let occs := occurrences (relpath_str path root) tok toks in
  entry (scan_file_near load_text relpath_str path root needle max_dist ci sfc
                        ignore_tokens cap mask encoding) d tok =
  if bool_decide (key tok = Some d /\ occs <> [])
  then Some (mkNearTokenAggregate tok (len occs) (cap_locs cap occs))
  else None.
Proof.
  intros Hload. cbv zeta. unfold scan_file_near. rewrite Hload.
  apply near_fold_spec.
Qed.

Lemma scan_file_near_unreadable (path root needle : str) (max_dist : Z)
    (ci sfc : bool) (ignore_tokens : list str) (cap : Z) (mask : bool)
    (encoding : str) :
  load_text path encoding = None ->
  scan_file_near load_text relpath_str path root needle max_dist ci sfc
                 ignore_tokens cap mask encoding = ∅.
Proof. intros Hload. unfold scan_file_near. by rewrite Hload. Qed.

Lemma scan_file_near_cap (path root needle : str) (max_dist : Z) (ci sfc : bool)
    (ignore_tokens : list str) (cap : Z) (mask : bool) (encoding : str)
    (d : Z) (tok : str) :
  0 < cap ->
  len (locs_in (scan_file_near load_text relpath_str path root needle max_dist ci
                               sfc ignore_tokens cap mask encoding) d tok) <= cap.
Proof.
  intros Hcap. unfold locs_in.
  destruct (load_text path encoding) as [text|] eqn:Hload.
  - rewrite (scan_file_near_entry _ _ _ _ _ _ _ _ _ _ text) by done.
    destruct (bool_decide _); cbn [from_option agg_locs];
      [by apply cap_locs_length|unfold len; cbn; lia].
  - rewrite scan_file_near_unreadable by done. rewrite entry_empty.
    unfold len. cbn. lia.
Qed.

Lemma near_aggregate_fold args files :
  near_aggregate load_text relpath_str args files =
  fold_left (merge_partial (near_max_locs_per_token args))
            (map (near_partial load_text relpath_str args) files) ∅.
Proof.
  unfold near_aggregate. generalize (∅ : near_result) as acc.
  induction files as [|f files IH]; intros acc; cbn [fold_left map]; [done|].
  apply IH.
Qed.

(** C4. For every distance and token the merged count is the sum of the
    counts of the files; with a positive cap the merged list of
    occurrences is the concatenation of the lists of the files cut at the
    cap, so it is never longer than the cap, whatever the count; with
    cap 0 it is the whole concatenation. *)
Theorem near_aggregate_spec (args : NearArgs) (files : list str) (d : Z) (tok : str) :
  let cap := near_max_locs_per_token args in
  let partials := map (near_partial load_text relpath_str args) files in
  let merged := near_aggregate load_text relpath_str args files in
  count_in merged d tok = zsum (map (fun p => count_in p d tok) partials) /\
  (0 < cap ->
   len (locs_in merged d tok) <= cap /\
   locs_in merged d tok =
   take (Z.to_nat cap) (concat (map (fun p => locs_in p d tok) partials))) /\
  (cap = 0 ->
   locs_in merged d tok = concat (map (fun p => locs_in p d tok) partials)).
Proof.
  cbv zeta. rewrite near_aggregate_fold.
  set (cap := near_max_locs_per_token args).
  set (partials := map _ files).
  assert (Forall (fun p => 0 < cap -> len (locs_in p d tok) <= cap) partials) as Hall.
  { apply Forall_forall. intros p Hp Hcap.
    apply list_elem_of_fmap in Hp as (f & -> & _).
    by apply scan_file_near_cap. }
  split; [apply merge_all_count|]. split.
  - intros Hcap. rewrite merge_all_locs by (done || lia).
    split; [by apply cap_locs_length|].
    unfold cap_locs. destruct (Z.eqb_spec cap 0); [lia|done].
  - intros Hcap. rewrite merge_all_locs by (done || lia).
    unfold cap_locs. by rewrite Hcap.
Qed.
End NearClaims.

(** ** The compare scan *)

Lemma zsum_app l1 l2 : zsum (l1 ++ l2) = zsum l1 + zsum l2.
Proof. unfold zsum. induction l1 as [|x l1 IH]; cbn [app foldr]; lia. Qed.

Section CompareScanFacts.
Variables (rp acmp bcmp : str) (ci : bool) (cap : Z).

Let step := compare_step rp acmp bcmp ci cap.

(** The state of the loop after the tokens [toks]. *)
Lemma compare_fold_spec (toks : list (str * Z * Z)) :
  fold_left step toks (0, 0, [], []) =
  (len (filter (fun t => counts_for_a ci acmp t = true) toks),
   len (filter (fun t => counts_for_b ci acmp bcmp t = true) toks),
   cap_locs cap (map (occ_of rp) (filter (fun t => counts_for_a ci acmp t = true) toks)),
   cap_locs cap (map (occ_of rp)
                     (filter (fun t => counts_for_b ci acmp bcmp t = true) toks))).
Proof.
  induction toks as [|[[tok line] col] toks IH] using rev_ind.
  - cbn [fold_left filter]. rewrite !filter_nil. cbn [map]. by rewrite cap_locs_nil.
  - rewrite fold_left_app, IH. cbn [fold_left]. rewrite !filter_app.
    unfold step, compare_step, counts_for_b, counts_for_a, norm_case.
    cbn [fst snd]. case_bool_decide as Ha.
    + rewrite (filter_cons_True _ _ []) by (cbn; by rewrite bool_decide_eq_true_2).
      rewrite (filter_cons_False _ _ [])
        by (cbn; rewrite (bool_decide_eq_true_2 _ Ha); cbn; done).
      rewrite !filter_nil, !app_nil_r, map_app. cbn [map].
      rewrite cap_locs_snoc. unfold len. rewrite length_app. cbn [length].
      repeat f_equal; lia.
    + rewrite (filter_cons_False _ _ [])
        by (cbn; rewrite (bool_decide_eq_false_2 _ Ha); done).
      case_bool_decide as Hb.
      * rewrite (filter_cons_True _ _ [])
          by (cbn; rewrite (bool_decide_eq_false_2 _ Ha), (bool_decide_eq_true_2 _ Hb);
              done).
        rewrite !filter_nil, !app_nil_r, map_app. cbn [map].
        rewrite cap_locs_snoc. unfold len. rewrite length_app. cbn [length].
        repeat f_equal; lia.
      * rewrite (filter_cons_False _ _ [])
          by (cbn; rewrite (bool_decide_eq_false_2 _ Ha), (bool_decide_eq_false_2 _ Hb);
              done).
        by rewrite !filter_nil, !app_nil_r.
Qed.

(** No token is counted for both needles. *)
Lemma counts_disjoint (toks : list (str * Z * Z)) :
  (length (filter (fun t => counts_for_a ci acmp t = true) toks) +
   length (filter (fun t => counts_for_b ci acmp bcmp t = true) toks)
   <= length toks)%nat.
Proof.
  induction toks as [|t toks IH]; [done|].
  destruct (counts_for_a ci acmp t) eqn:Ea.
  - assert (counts_for_b ci acmp bcmp t = false) as Eb
      by (unfold counts_for_b; by rewrite Ea).
    rewrite filter_cons_True by done.
    rewrite filter_cons_False by (rewrite Eb; done).
    cbn [length]. lia.
  - rewrite filter_cons_False by (rewrite Ea; done).
    destruct (counts_for_b ci acmp bcmp t) eqn:Eb.
    + rewrite filter_cons_True by done. cbn [length]. lia.
    + rewrite filter_cons_False by (rewrite Eb; done). cbn [length]. lia.
Qed.
End CompareScanFacts.

(** ** The claims on the scans and on [cmd_compare] *)

Lemma sum_of_zsum (f : CompareFileRow -> Z) (rows : list CompareFileRow) :
  sum_of f rows = zsum (map f rows).
Proof.
  unfold sum_of.
  assert (forall acc, fold_left (fun acc r => acc + f r) rows acc
                      = acc + zsum (map f rows)) as H.
  { induction rows as [|r rows IH]; intros acc; cbn [fold_left map zsum foldr].
    - lia.
    - rewrite IH. unfold zsum. lia. }
  rewrite H. lia.
Qed.

Section ScanClaims.
Variable load_text : str -> str -> option str.
Variable relpath_str : str -> str -> str.
Variable write_file : str -> bool.

Lemma scan_file_compare_diff (path root a b : str) (ci : bool) (cap : Z)
    (mask : bool) (encoding : str) :
  let r := scan_file_compare load_text relpath_str path root a b ci cap mask encoding in
  diff r = count_a r - count_b r.
Proof.
  cbv zeta. unfold scan_file_compare.
  destruct (load_text path encoding) as [text|]; [|done].
  cbv zeta. by destruct (fold_left _ _ _) as [[[ca cb] la] lb].
Qed.

Lemma scan_file_compare_counts (path root a b : str) (ci : bool) (cap : Z)
    (mask : bool) (encoding text : str) :
  load_text path encoding = Some text ->
  let toks := iter_identifiers_with_pos (scanned_text mask text) in
  let for_a := filter (fun t => counts_for_a ci (norm_case ci a) t = true) toks in
  let for_b :=
    filter (fun t => counts_for_b ci (norm_case ci a) (norm_case ci b) t = true) toks in
  scan_file_compare load_text relpath_str path root a b ci cap mask encoding =
  mkCompareFileRow (relpath_str path root) (len for_a) (len for_b)
    (len for_a - len for_b)
    (cap_locs cap (map (occ_of (relpath_str path root)) for_a))
    (cap_locs cap (map (occ_of (relpath_str path root)) for_b)).
Proof.
  intros Hload. cbv zeta. unfold scan_file_compare. rewrite Hload. cbv zeta.
  fold (scanned_text mask text). fold (norm_case ci a). fold (norm_case ci b).
  by rewrite compare_fold_spec.
Qed.

Lemma find_mismatches_spec args rows ms :
  find_mismatches args rows = Some ms ->
  ms = filter (fun r => check_expectation r (cmp_expect args) (cmp_ratio args)
                          (cmp_tolerance args) = Some false) rows /\
  Forall (fun r => is_Some (check_expectation r (cmp_expect args) (cmp_ratio args)
                              (cmp_tolerance args))) rows.
Proof.
  revert ms. induction rows as [|r rows IH]; intros ms; cbn [find_mismatches].
  - intros [= <-]. split; [done|constructor].
  - destruct (check_expectation r _ _ _) as [ok|] eqn:Hr; [|done].
    destruct (find_mismatches args rows) as [ms'|]; [|done].
    intros [= <-]. destruct (IH ms' eq_refl) as [-> Hall]. split.
    + destruct ok.
      * rewrite filter_cons_False; [done|]. rewrite Hr. done.
      * rewrite filter_cons_True; [done|]. rewrite Hr. done.
    + constructor; [|done]. rewrite Hr. by eexists.
Qed.

Lemma cmd_compare_report args files rep st :
  cmd_compare load_text relpath_str write_file args files = Some (rep, st) ->
  let rows := compare_rows load_text relpath_str args files in
  rep_rows rep = rows /\
  rep_overall_row rep =
    mkCompareFileRow (list_ascii_of_string "<TOTAL>")
      (sum_of count_a rows) (sum_of count_b rows)
      (sum_of count_a rows - sum_of count_b rows) [] [] /\
  check_expectation (rep_overall_row rep) (cmp_expect args) (cmp_ratio args)
                    (cmp_tolerance args) = Some (rep_overall_ok rep) /\
  find_mismatches args rows = Some (rep_mismatches rep) /\
  st = 0.
Proof.
  unfold cmd_compare. cbv zeta.
  destruct (check_expectation _ _ _ _) as [ok|] eqn:Hok; [|done].
  destruct (find_mismatches _ _) as [ms|] eqn:Hms; [|done].
  destruct (_ && _); [done|]. destruct (_ && _); [done|].
  intros [= <- <-]. cbn. done.
Qed.

(** C5. In the compare scan a token is counted for A when its normalized
    text equals the normalized A, and for B only when it does not and
    equals the normalized B, so no occurrence is counted twice; every
    row of a file and the total row have [diff = count_a - count_b], the
    total row holding the sums of the counts of the rows. *)
Theorem compare_rows_spec (args : CompareArgs) (files : list str) :
  let rows := compare_rows load_text relpath_str args files in
  let ci := cmp_case_insensitive args in
  let acmp := norm_case ci (cmp_a args) in
  let bcmp := norm_case ci (cmp_b args) in
  (forall t, counts_for_a ci acmp t = true -> counts_for_b ci acmp bcmp t = false) /\
  (forall f text,
     load_text f (cmp_encoding args) = Some text ->
     let toks := iter_identifiers_with_pos
                   (scanned_text (negb (cmp_no_mask args)) text) in
     let r := scan_file_compare load_text relpath_str f (cmp_root args) (cmp_a args)
                (cmp_b args) ci (cmp_locs_per_file args) (negb (cmp_no_mask args))
                (cmp_encoding args) in
     count_a r = len (filter (fun t => counts_for_a ci acmp t = true) toks) /\
     count_b r = len (filter (fun t => counts_for_b ci acmp bcmp t = true) toks) /\
     count_a r + count_b r <= len toks) /\
  Forall (fun r => diff r = count_a r - count_b r) rows /\
  (forall rep st,
     cmd_compare load_text relpath_str write_file args files = Some (rep, st) ->
     rep_rows rep = rows /\
     count_a (rep_overall_row rep) = zsum (map count_a rows) /\
     count_b (rep_overall_row rep) = zsum (map count_b rows) /\
     diff (rep_overall_row rep) =
       count_a (rep_overall_row rep) - count_b (rep_overall_row rep)).
Proof.
  cbv zeta. split; [|split; [|split]].
  - intros t Ht. unfold counts_for_b. by rewrite Ht.
  - intros f text Hload.
    rewrite (scan_file_compare_counts _ _ _ _ _ _ _ _ text Hload).
    cbn [count_a count_b]. split; [done|]. split; [done|].
    pose proof (counts_disjoint (norm_case (cmp_case_insensitive args) (cmp_a args))
                  (norm_case (cmp_case_insensitive args) (cmp_b args))
                  (cmp_case_insensitive args)
                  (iter_identifiers_with_pos
                     (scanned_text (negb (cmp_no_mask args)) text))).
    unfold len. lia.
  - unfold compare_rows. apply Forall_forall. intros r Hr.
    apply list_elem_of_In, in_map_iff in Hr as (f & <- & _).
    apply scan_file_compare_diff.
  - intros rep st Hrun. apply cmd_compare_report in Hrun.
    cbv zeta in Hrun. destruct Hrun as (Hrows & Hov & _).
    rewrite Hov. cbn [count_a count_b diff]. rewrite !sum_of_zsum. done.
Qed.


(** C8. The value that [cmd_compare] returns is 0 for every run that
    completes, whatever [check_expectation] answers: two runs, whether
    their expectations pass or fail, return the same status. *)
Theorem cmd_compare_exit_status (args1 args2 : CompareArgs) (files1 files2 : list str)
    (rep1 rep2 : CompareReport) (st1 st2 : Z) :
  cmd_compare load_text relpath_str write_file args1 files1 = Some (rep1, st1) ->
  cmd_compare load_text relpath_str write_file args2 files2 = Some (rep2, st2) ->
  st1 = 0 /\ st2 = st1.
Proof.
  intros H1%cmd_compare_report H2%cmd_compare_report. cbv zeta in *.
  destruct H1 as (_ & _ & _ & _ & ->), H2 as (_ & _ & _ & _ & ->). done.
Qed.

(** C7. A file that cannot be read or decoded gives the empty mapping in
    the near scan and a row of zeros with empty lists in the compare
    scan; the aggregate and the rows of a run are those of the other
    files, and what a scan returns for a file depends on the file system
    only through the text of that file. *)
Theorem unreadable_file_spec (path encoding : str) :
  load_text path encoding = None ->
  (forall root needle max_dist ci sfc ignore_tokens cap mask,
     scan_file_near load_text relpath_str path root needle max_dist ci sfc
                    ignore_tokens cap mask encoding = ∅) /\
  (forall root a b ci cap mask,
     scan_file_compare load_text relpath_str path root a b ci cap mask encoding =
     mkCompareFileRow (relpath_str path root) 0 0 0 [] []) /\
  (forall args before after,
     near_encoding args = encoding ->
     near_aggregate load_text relpath_str args (before ++ path :: after) =
     near_aggregate load_text relpath_str args (before ++ after)) /\
  (forall args before after,
     cmp_encoding args = encoding ->
     let rows := compare_rows load_text relpath_str args in
     rows (before ++ path :: after) =
       rows before ++
       mkCompareFileRow (relpath_str path (cmp_root args)) 0 0 0 [] [] :: rows after /\
     sum_of count_a (rows (before ++ path :: after)) =
       sum_of count_a (rows (before ++ after)) /\
     sum_of count_b (rows (before ++ path :: after)) =
       sum_of count_b (rows (before ++ after))) /\
  (forall (other_load_text : str -> str -> option str) f enc,
     other_load_text f enc = load_text f enc ->
     (forall root needle max_dist ci sfc ignore_tokens cap mask,
        scan_file_near other_load_text relpath_str f root needle max_dist ci sfc
                       ignore_tokens cap mask enc =
        scan_file_near load_text relpath_str f root needle max_dist ci sfc
                       ignore_tokens cap mask enc) /\
     (forall root a b ci cap mask,
        scan_file_compare other_load_text relpath_str f root a b ci cap mask enc =
        scan_file_compare load_text relpath_str f root a b ci cap mask enc)).
Proof.
  intros Hload.
  assert (forall root a b ci cap mask,
            scan_file_compare load_text relpath_str path root a b ci cap mask encoding =
            mkCompareFileRow (relpath_str path root) 0 0 0 [] []) as Hcmp.
  { intros. unfold scan_file_compare. by rewrite Hload. }
  split; [|split; [|split; [|split]]].
  - intros. by apply scan_file_near_unreadable.
  - exact Hcmp.
  - intros args before after Henc. unfold near_aggregate.
    rewrite !fold_left_app. cbn [fold_left]. f_equal.
    unfold near_partial. rewrite Henc.
    rewrite scan_file_near_unreadable by done. apply merge_partial_empty.
  - intros args before after Henc. cbv zeta.
    assert (compare_rows load_text relpath_str args (before ++ path :: after) =
            compare_rows load_text relpath_str args before ++
            mkCompareFileRow (relpath_str path (cmp_root args)) 0 0 0 [] []
            :: compare_rows load_text relpath_str args after) as Hrows.
    { unfold compare_rows. rewrite map_app. cbn [map]. by rewrite Henc, Hcmp. }
    split; [exact Hrows|]. rewrite Hrows.
    assert (compare_rows load_text relpath_str args (before ++ after) =
            compare_rows load_text relpath_str args before ++
            compare_rows load_text relpath_str args after) as ->
      by apply map_app.
    rewrite !sum_of_zsum, !map_app, !zsum_app. cbn [map]. unfold zsum.
    cbn [foldr count_a count_b]. split; lia.
  - intros other f enc Hsame. split; intros.
    + unfold scan_file_near. by rewrite Hsame.
    + unfold scan_file_compare. by rewrite Hsame.
Qed.

End ScanClaims.

(** ** The theorems at concrete inputs *)

Lemma unreadable_file_spec_witness :
  demo_load_text (list_ascii_of_string "missing.c") (list_ascii_of_string "utf-8") = None /\
  scan_file_near demo_load_text demo_relpath_str (list_ascii_of_string "missing.c")
    (list_ascii_of_string ".") (list_ascii_of_string "Root") 1 true false [] 20 true
    (list_ascii_of_string "utf-8") = ∅ /\
  near_aggregate demo_load_text demo_relpath_str demo_near_args
    [list_ascii_of_string "near.c"; list_ascii_of_string "missing.c"] =
  near_aggregate demo_load_text demo_relpath_str demo_near_args
    [list_ascii_of_string "near.c"].
Proof.
  pose proof (unreadable_file_spec demo_load_text demo_relpath_str
                (list_ascii_of_string "missing.c") (list_ascii_of_string "utf-8")
                eq_refl) as (Hnear & _ & Hagg & _).
  split; [reflexivity|]. split.
  - apply Hnear.
  - apply (Hagg demo_near_args [list_ascii_of_string "near.c"] [] eq_refl).
Defined.

Lemma cmd_compare_exit_status_witness :
  exists rep1 rep2 st1 st2,
    cmd_compare demo_load_text demo_relpath_str demo_write_file
      (demo_compare_args expect_a_ge_b) [list_ascii_of_string "cmp.c"] = Some (rep1, st1) /\
    cmd_compare demo_load_text demo_relpath_str demo_write_file
      (demo_compare_args expect_equal) [list_ascii_of_string "cmp.c"] = Some (rep2, st2) /\
    rep_overall_ok rep1 = true /\ rep_overall_ok rep2 = false /\
    st1 = 0 /\ st2 = st1.
Proof.
  eexists _, _, _, _.
  split; [vm_compute; reflexivity|]. split; [vm_compute; reflexivity|].
  split; [reflexivity|]. split; [reflexivity|].
  eapply (cmd_compare_exit_status demo_load_text demo_relpath_str demo_write_file
            (demo_compare_args expect_a_ge_b) (demo_compare_args expect_equal)
            [list_ascii_of_string "cmp.c"] [list_ascii_of_string "cmp.c"]);
    vm_compute; reflexivity.
Defined.


(** ** The examples of the specification *)

Example mask_line_comment :
  mask_cpp_comments_and_strings
    (list_ascii_of_string "int x; // bad" ++ [ch_nl]) =
  list_ascii_of_string "int x;       " ++ [ch_nl].
Proof. vm_compute. reflexivity. Qed.

Example near_root_buckets :
  let r := scan_file_near
             (fun _ _ => Some (list_ascii_of_string "Root Roots Rot Rooted"))
             demo_relpath_str (list_ascii_of_string "f.c") (list_ascii_of_string ".")
             (list_ascii_of_string "Root") 1 false false [] 20 true
             (list_ascii_of_string "utf-8") in
  size r = 2%nat /\
  size <$> r !! 0 = Some 1%nat /\ size <$> r !! 1 = Some 2%nat /\
  count_in r 0 (list_ascii_of_string "Root") = 1 /\
  count_in r 1 (list_ascii_of_string "Roots") = 1 /\
  count_in r 1 (list_ascii_of_string "Rot") = 1.
Proof. vm_compute. repeat split; reflexivity. Qed.

Example compare_elefant_giraffe :
  let row := scan_file_compare demo_load_text demo_relpath_str
               (list_ascii_of_string "cmp.c") (list_ascii_of_string ".")
               (list_ascii_of_string "Elefant") (list_ascii_of_string "Giraffe")
               true 5 true (list_ascii_of_string "utf-8") in
  diff row = 2 /\
  check_expectation row expect_equal (SFone 53 1024) 0 = Some false /\
  check_expectation row expect_a_ge_b (SFone 53 1024) 0 = Some true /\
  check_expectation row expect_ratio (SFone 53 1024) 2 = Some true /\
  check_expectation row expect_ratio (SFone 53 1024) 1 = Some false.
Proof. vm_compute. repeat split; reflexivity. Qed.

(** Two files under a cap of one occurrence: both hits are counted, one
    is recorded. *)
Example near_aggregate_capped :
  let args := mkNearArgs (list_ascii_of_string ".") (list_ascii_of_string "Rot") 0
                         false false [] 1 false (list_ascii_of_string "utf-8") in
  let merged := near_aggregate demo_load_text demo_relpath_str args
                  [list_ascii_of_string "near.c"; list_ascii_of_string "near.c"] in
  count_in merged 0 (list_ascii_of_string "Rot") = 2 /\
  locs_in merged 0 (list_ascii_of_string "Rot") =
    [mkOccurrence (list_ascii_of_string "near.c") 1 16].
Proof. vm_compute. split; reflexivity. Qed.

(** A count too large for a [float] makes the ratio check raise. *)
Example ratio_overflow :
  check_expectation (mkCompareFileRow [] 1 (2 ^ 1024) (1 - 2 ^ 1024) [] [])
                    expect_ratio (SFone 53 1024) 0 = None.
Proof. vm_compute. reflexivity. Qed.

(** The product of the ratio check is rounded: with the [float] nearest to
    one tenth, ten times the ratio is not 1 exactly, and the check of
    1 against 10 passes with tolerance 0 all the same. *)
Example ratio_rounding :
  let tenth := S754_finite false 7205759403792794 (-56) in
  (7205759403792794 * 10 =? 2 ^ 56) = false /\
  check_expectation (mkCompareFileRow [] 1 10 (-9) [] []) expect_ratio tenth 0
  = Some true.
Proof. vm_compute. split; reflexivity. Qed.

(** ** More on the bounded edit distance *)

Lemma lev_zero_iff a b : levenshtein a b = 0%nat <-> a = b.
Proof.
  split; [|intros ->; apply lev_refl].
  revert b. induction a as [|x a IH]; intros b.
  - rewrite lev_nil_l. by destruct b.
  - destruct b as [|y b]; [by rewrite lev_nil_r|].
    rewrite lev_cons. intros H.
    destruct (Ascii.eqb_spec x y) as [->|Hne]; [|lia].
    f_equal. apply IH. lia.
Qed.

(** The value of [bounded_levenshtein] for a bound that is not negative. *)
Lemma bounded_levenshtein_capped (a b : str) (k : Z) :
  0 <= k ->
  bounded_levenshtein a b k = Z.min (Z.of_nat (levenshtein a b)) (k + 1).
Proof.
  intros Hk. unfold bounded_levenshtein.
  case_bool_decide as Heq.
  - subst b. rewrite lev_refl. lia.
  - pose proof (lev_length_diff a b) as Hd.
    destruct (Z.gtb_spec (Z.abs (len a - len b)) k) as [Hgt|Hle].
    + unfold len in *. lia.
    + destruct (Z.gtb_spec (len a) (len b)) as [Hab|Hab].
      * rewrite (lev_sym a b). apply banded_correct; lia.
      * apply banded_correct; lia.
Qed.

(** With a negative bound only the two tests before the table run. *)
Lemma bounded_levenshtein_negative (a b : str) (k : Z) :
  k < 0 ->
  bounded_levenshtein a b k = if bool_decide (a = b) then 0 else k + 1.
Proof.
  intros Hk. unfold bounded_levenshtein. case_bool_decide; [done|].
  destruct (Z.gtb_spec (Z.abs (len a - len b)) k); [done|lia].
Qed.

(** X1. The bounded distance does not depend on the order of its two
    strings, for any bound. *)
Theorem bounded_levenshtein_sym (a b : str) (k : Z) :
  bounded_levenshtein a b k = bounded_levenshtein b a k.
Proof.
  destruct (Z.lt_ge_cases k 0) as [Hk|Hk].
  - rewrite !bounded_levenshtein_negative by done.
    repeat case_bool_decide; congruence.
  - rewrite !bounded_levenshtein_capped by lia. by rewrite lev_sym.
Qed.

(** X2. For a bound that is not negative, the result is 0 exactly for
    equal strings. *)
Theorem bounded_levenshtein_zero (a b : str) (k : Z) :
  0 <= k -> (bounded_levenshtein a b k = 0 <-> a = b).
Proof.
  intros Hk. rewrite bounded_levenshtein_capped by done.
  rewrite <- lev_zero_iff. lia.
Qed.

Lemma bounded_levenshtein_zero_witness :
  0 <= 1 /\
  (bounded_levenshtein (list_ascii_of_string "Root") (list_ascii_of_string "Root") 1 = 0
   <-> list_ascii_of_string "Root" = list_ascii_of_string "Root").
Proof.
  split; [lia|].
  apply (bounded_levenshtein_zero (list_ascii_of_string "Root")
           (list_ascii_of_string "Root") 1).
  lia.
Defined.

(** X3. The test [d <= k] that callers make succeeds exactly when the
    bound is not negative and the true distance is at most [k]; the
    result is then the true distance, and it stays the same under any
    larger bound. *)
Theorem bounded_levenshtein_match (a b : str) (k : Z) :
  (bounded_levenshtein a b k <= k <->
   0 <= k /\ Z.of_nat (levenshtein a b) <= k) /\
  (bounded_levenshtein a b k <= k ->
   bounded_levenshtein a b k = Z.of_nat (levenshtein a b) /\
   forall k', k <= k' -> bounded_levenshtein a b k' = bounded_levenshtein a b k).
Proof.
  destruct (Z.lt_ge_cases k 0) as [Hk|Hk].
  - rewrite bounded_levenshtein_negative by done.
    case_bool_decide; split; try intros; lia.
  - rewrite bounded_levenshtein_capped by lia. split; [lia|].
    intros H. split; [lia|]. intros k' Hk'.
    rewrite bounded_levenshtein_capped by lia. lia.
Qed.

(** ** The masker, construct by construct *)

Section MaskerShift.
Local Open Scope nat_scope.

Lemma char_at_ext (l1 l2 : str) :
  length l1 = length l2 ->
  (forall p, p < length l1 -> char_at l1 p = char_at l2 p) -> l1 = l2.
Proof.
  intros Hlen H. apply (nth_ext _ _ "000"%char "000"%char); [done|]. exact H.
Qed.

Lemma char_at_app_r (l1 l2 : str) (i : nat) :
  char_at (l1 ++ l2) (length l1 + i) = char_at l2 i.
Proof. unfold char_at. apply app_nth2_plus. Qed.

Lemma char_at_app_l (l1 l2 : str) (i : nat) :
  i < length l1 -> char_at (l1 ++ l2) i = char_at l1 i.
Proof. intros H. unfold char_at. by apply app_nth1. Qed.

Lemma drop_app_add (l1 l2 : str) (k : nat) :
  drop (length l1 + k) (l1 ++ l2) = drop k l2.
Proof. induction l1 as [|x l1 IH]; [done|]. exact IH. Qed.

Lemma skip_until_shift stop rest a i :
  skip_until stop rest (a + i) = a + skip_until stop rest i.
Proof.
  revert i. induction rest as [|c rest IH]; intros i; cbn [skip_until]; [done|].
  destruct (Ascii.eqb c stop); [done|]. by rewrite <- IH, Nat.add_succ_r.
Qed.

Lemma skip_block_shift rest a i :
  skip_block rest (a + i) = a + skip_block rest i.
Proof.
  revert i. induction rest as [|c rest IH]; intros i; cbn [skip_block]; [done|].
  destruct rest as [|d rest']; [done|].
  destruct (_ && _); [done|]. by rewrite <- IH, Nat.add_succ_r.
Qed.

Lemma skip_quoted_shift q rest a i :
  skip_quoted q rest (a + i) = a + skip_quoted q rest i.
Proof.
  remember (length rest) as m eqn:Hm. revert rest i Hm.
  induction m as [m IH] using lt_wf_ind. intros rest i Hm.
  destruct rest as [|c rest]; cbn [skip_quoted]; [done|].
  destruct rest as [|d rest'].
  - destruct (Ascii.eqb c q); cbn [skip_quoted]; lia.
  - destruct (Ascii.eqb c ch_backslash).
    + rewrite <- Nat.add_assoc.
      apply (IH (length rest')); [subst m; cbn [length]; lia|done].
    + destruct (Ascii.eqb c q); [lia|]. rewrite <- Nat.add_assoc.
      apply (IH (length (d :: rest'))); [subst m; cbn [length]; lia|done].
Qed.

Lemma find_from_shift sub rest a i :
  find_from sub rest (a + i) = Nat.add a <$> find_from sub rest i.
Proof.
  revert i. induction rest as [|c rest IH]; intros i; cbn [find_from].
  - by destruct (starts_with sub []).
  - destruct (starts_with sub (c :: rest)); [done|].
    by rewrite <- IH, Nat.add_succ_r.
Qed.

Lemma str_find_shift (p1 rest sub : str) i :
  str_find (p1 ++ rest) sub (length p1 + i) =
  Nat.add (length p1) <$> str_find rest sub i.
Proof.
  unfold str_find. rewrite length_app, drop_app_add.
  destruct (Nat.ltb_spec (length rest) i), (Nat.ltb_spec (length p1 + length rest)
                                              (length p1 + i)); try lia; [done|].
  apply find_from_shift.
Qed.

Lemma put_spaces_shift (o1 out : str) j e :
  put_spaces (length o1 + j) (length o1 + e) (o1 ++ out) = o1 ++ put_spaces j e out.
Proof.
  unfold put_spaces.
  replace (length o1 + e - (length o1 + j)) with (e - j) by lia.
  generalize (e - j) as m. intros m. revert j out.
  induction m as [|m IH]; intros j out; cbn [seq fold_left]; [done|].
  rewrite char_at_app_r.
  replace (S (length o1 + j)) with (length o1 + S j) by lia.
  destruct (Ascii.eqb (char_at out j) ch_nl); [apply IH|].
  rewrite insert_app_r. apply IH.
Qed.

(** One iteration on a text does to the part after a prefix what it does
    to that part alone. *)
Lemma mask_step_shift (p1 o1 rest : str) (st : mask_state) :
  length o1 = length p1 ->
  mask_step (p1 ++ rest) (mask_lift (length p1) o1 st) =
  mask_lift (length p1) o1 (mask_step rest st).
Proof.
  intros Ho. destruct st as [i out b]. unfold mask_lift, mask_step.
  cbn [m_i m_out m_break]. rewrite length_app.
  assert (forall a x y, (a + x <? a + y) = (x <? y)) as Hltb.
  { intros a x y. destruct (Nat.ltb_spec (a + x) (a + y)), (Nat.ltb_spec x y); lia || done. }
  assert (forall a x y, (a + x <=? a + y) = (x <=? y)) as Hleb.
  { intros a x y. destruct (Nat.leb_spec (a + x) (a + y)), (Nat.leb_spec x y); lia || done. }
  assert (forall j e, put_spaces (length p1 + j) (length p1 + e) (o1 ++ out) =
                      o1 ++ put_spaces j e out) as Hput.
  { intros j e. rewrite <- Ho. apply put_spaces_shift. }
  rewrite <- !Nat.add_assoc, !Hltb, !char_at_app_r.
  destruct (b || negb (i <? length rest)); [done|].
  destruct (Ascii.eqb (char_at rest i) "/" &&
            ((i + 1 <? length rest) && Ascii.eqb (char_at rest (i + 1)) "/")).
  { by rewrite drop_app_add, skip_until_shift, Hput. }
  destruct (Ascii.eqb (char_at rest i) "/" &&
            ((i + 1 <? length rest) && Ascii.eqb (char_at rest (i + 1)) "*")).
  { rewrite drop_app_add, skip_block_shift.
    by rewrite <- Nat.add_assoc, Nat.add_min_distr_l, Hput. }
  destruct (Ascii.eqb (char_at rest i) ch_dquote).
  { by rewrite drop_app_add, skip_quoted_shift, Hput. }
  destruct (Ascii.eqb (char_at rest i) ch_squote).
  { by rewrite drop_app_add, skip_quoted_shift, Hput. }
  destruct (Ascii.eqb (char_at rest i) "R" &&
            ((i + 1 <? length rest) && Ascii.eqb (char_at rest (i + 1)) ch_dquote));
    [|done].
  rewrite !drop_app_add, skip_until_shift, Hleb.
  destruct (length rest <=? skip_until "(" (drop (i + 2) rest) (i + 2)).
  { by rewrite Hput. }
  replace (length p1 + skip_until "(" (drop (i + 2) rest) (i + 2) - (length p1 + (i + 2)))
    with (skip_until "(" (drop (i + 2) rest) (i + 2) - (i + 2)) by lia.
  rewrite <- Nat.add_assoc, str_find_shift.
  destruct (str_find rest _ _) as [close_pos|]; cbn [fmap option_fmap option_map].
  - by rewrite <- Nat.add_assoc, Hput.
  - by rewrite Hput.
Qed.

Lemma mask_iter_shift (p1 o1 rest : str) (k : nat) (st : mask_state) :
  length o1 = length p1 ->
  Nat.iter k (mask_step (p1 ++ rest)) (mask_lift (length p1) o1 st) =
  mask_lift (length p1) o1 (Nat.iter k (mask_step rest) st).
Proof.
  intros Ho. induction k as [|k IH]; [done|].
  rewrite !Nat.iter_succ, IH. by apply mask_step_shift.
Qed.

Lemma mask_iter_stopped src st k :
  length src <= frontier src st -> Nat.iter k (mask_step src) st = st.
Proof.
  intros H. induction k as [|k IH]; [done|].
  rewrite Nat.iter_succ, IH. by apply mask_step_stopped.
Qed.

(** Where the loop stands after some iterations, the rest of the text is
    masked as a text of its own. *)
Lemma mask_resume src t :
  let st := Nat.iter t (mask_step src) (MaskState 0 src false) in
  m_break st = false ->
  mask_cpp_comments_and_strings src =
  take (m_i st) (m_out st) ++ mask_cpp_comments_and_strings (drop (m_i st) src).
Proof.
  cbn zeta. intros Hb.
  destruct (mask_iter_inv src t) as [(Hlen & Hle & Hrest & _) Hfr].
  cbv zeta in Hfr. unfold frontier in Hle, Hrest, Hfr. rewrite Hb in Hle, Hrest, Hfr.
  set (st := Nat.iter t (mask_step src) (MaskState 0 src false)) in *.
  assert (drop (m_i st) (m_out st) = drop (m_i st) src) as Hdrop.
  { apply char_at_ext; [rewrite !length_drop; lia|].
    intros p _. unfold char_at. rewrite !nth_lookup, !lookup_drop, <- !nth_lookup.
    apply Hrest. lia. }
  rewrite <- (mask_more_iterations src (length src + t)) by lia.
  rewrite Nat.iter_add. fold st. clearbody st.
  destruct st as [e out b]. cbn [m_i m_out m_break] in *. subst b.
  set (rest := drop e src).
  replace (mask_step src) with (mask_step (take e src ++ rest))
    by (unfold rest; by rewrite take_drop).
  replace (MaskState e out false)
    with (mask_lift (length (take e src)) (take e out) (MaskState 0 rest false)).
  2:{ unfold mask_lift, rest. cbn [m_i m_out m_break].
      rewrite <- Hdrop, take_drop, length_take. f_equal. lia. }
  rewrite mask_iter_shift by (rewrite !length_take; lia).
  unfold mask_lift. cbn [m_out]. f_equal. apply mask_more_iterations.
  unfold rest. rewrite length_drop. lia.
Qed.

Lemma mask_iter_plain src t :
  t <= length src -> (forall p, p < t -> start_at src p = false) ->
  Nat.iter t (mask_step src) (MaskState 0 src false) = MaskState t src false.
Proof.
  induction t as [|t IH]; intros Ht Hclean; [done|].
  rewrite Nat.iter_succ, IH by (try lia; intros; apply Hclean; lia).
  rewrite mask_step_plain; cbn [m_i m_out frontier m_break]; try lia.
  - f_equal. lia.
  - apply Hclean. lia.
Qed.

Lemma blank_char_spec (out : str) (e : nat) :
  e <= length out -> take e (put_spaces 0 e out) = blank_char <$> take e out.
Proof.
  intros He. apply char_at_ext.
  { rewrite length_fmap, !length_take, put_spaces_length. done. }
  intros p Hp. rewrite length_take, put_spaces_length in Hp.
  unfold char_at. rewrite !nth_lookup, list_lookup_fmap, !lookup_take_lt by lia.
  rewrite <- nth_lookup. fold (char_at (put_spaces 0 e out) p).
  rewrite put_spaces_char_at by done.
  rewrite (lookup_char_at out p) by lia. cbn [fmap option_fmap option_map default].
  unfold blank_char.
  destruct (Nat.leb_spec 0 p); [|lia]. destruct (Nat.ltb_spec p e); [|lia].
  cbn [andb negb]. destruct (Ascii.eqb_spec (char_at out p) ch_nl) as [->|]; done.
Qed.

(** A construct at the start of the text that the loop does not leave by
    [break] is blanked, and the text after it is masked as a text of its
    own. *)
Lemma mask_first_region src :
  let st := mask_step src (MaskState 0 src false) in
  0 < length src -> start_at src 0 = true -> m_break st = false ->
  mask_cpp_comments_and_strings src =
  (blank_char <$> take (m_i st) src) ++ mask_cpp_comments_and_strings (drop (m_i st) src).
Proof.
  cbn zeta. intros Hn Hs Hb.
  destruct (mask_step_region src (MaskState 0 src false)) as (e & He & Hout & Hfr);
    [done|done|].
  unfold frontier in Hfr. rewrite Hb in Hfr. cbn [m_i m_out] in *.
  rewrite (mask_resume src 1) by done. cbn [Nat.iter nat_rect].
  rewrite Hout, Hfr, blank_char_spec by lia. done.
Qed.

(** A construct at the start of the text that the loop leaves by [break]
    blanks the text to its end. *)
Lemma mask_first_break src :
  let st := mask_step src (MaskState 0 src false) in
  0 < length src -> start_at src 0 = true -> m_break st = true ->
  mask_cpp_comments_and_strings src = blank_char <$> src.
Proof.
  cbn zeta. intros Hn Hs Hb.
  destruct (mask_step_region src (MaskState 0 src false)) as (e & He & Hout & Hfr);
    [done|done|].
  unfold frontier in Hfr. rewrite Hb in Hfr. cbn [m_i m_out] in *.
  rewrite <- (mask_more_iterations src (length src + 1)) by lia.
  rewrite Nat.iter_add. cbn [Nat.iter nat_rect].
  rewrite mask_iter_stopped by (unfold frontier; rewrite Hb; lia).
  rewrite Hout. subst e.
  rewrite <- (take_ge (put_spaces _ _ _) (length src)) by (rewrite put_spaces_length; lia).
  rewrite blank_char_spec by lia. by rewrite take_ge by lia.
Qed.

Lemma mask_app_plain (pre rest : str) :
  (forall p, p < length pre -> start_at (pre ++ rest) p = false) ->
  mask_cpp_comments_and_strings (pre ++ rest) =
  pre ++ mask_cpp_comments_and_strings rest.
Proof.
  intros Hplain.
  pose proof (mask_resume (pre ++ rest) (length pre)) as H. cbv zeta in H.
  rewrite mask_iter_plain in H by (rewrite ?length_app; done || lia).
  cbn [m_i m_out m_break] in H.
  by rewrite take_app_length, drop_app_length in H; apply H.
Qed.

Lemma blank_no_nl (l : str) :
  ch_nl ∉ l -> blank_char <$> l = replicate (length l) ch_space.
Proof.
  induction l as [|c l IH]; [done|]. intros Hnl.
  apply not_elem_of_cons in Hnl as [Hc Hl]. cbn [fmap list_fmap length replicate].
  f_equal; [|by apply IH]. unfold blank_char.
  destruct (Ascii.eqb_spec c ch_nl); congruence.
Qed.

Lemma skip_until_stop stop body rest i :
  stop ∉ body -> skip_until stop (body ++ stop :: rest) i = i + length body.
Proof.
  revert i. induction body as [|c body IH]; intros i Hstop; cbn [app skip_until length].
  - rewrite Ascii.eqb_refl. lia.
  - apply not_elem_of_cons in Hstop as [Hc Hl].
    destruct (Ascii.eqb_spec c stop); [congruence|]. rewrite IH by done. lia.
Qed.

Lemma skip_until_end stop body i :
  stop ∉ body -> skip_until stop body i = i + length body.
Proof.
  revert i. induction body as [|c body IH]; intros i Hstop; cbn [skip_until length]; [lia|].
  apply not_elem_of_cons in Hstop as [Hc Hl].
  destruct (Ascii.eqb_spec c stop); [congruence|]. rewrite IH by done. lia.
Qed.

Lemma has_block_end_cons c body :
  ~ has_block_end (c :: body) ->
  ~ has_block_end body /\ ~ (c = "*"%char /\ head body = Some "/"%char).
Proof.
  intros H. split.
  - intros (q & H1 & H2). apply H. by exists (S q).
  - intros [-> Hh]. apply H. exists 0. split; [done|].
    by destruct body as [|d body]; inversion Hh.
Qed.

Lemma skip_block_stop body rest i :
  ~ has_block_end body ->
  skip_block (body ++ "*"%char :: "/"%char :: rest) i = i + length body.
Proof.
  revert i. induction body as [|c body IH]; intros i Hne; cbn [app skip_block length].
  - cbn. lia.
  - apply has_block_end_cons in Hne as [Hne Hc].
    specialize (IH (S i) Hne).
    destruct body as [|d body]; cbn [app] in *.
    + destruct (Ascii.eqb c "*" && Ascii.eqb "*" "/") eqn:E; [|rewrite IH; cbn; lia].
      by rewrite andb_comm in E.
    + destruct (Ascii.eqb_spec c "*") as [->|]; cbn [andb]; [|rewrite IH; cbn [length]; lia].
      destruct (Ascii.eqb_spec d "/") as [->|]; [by destruct Hc|].
      rewrite IH. cbn [length]. lia.
Qed.

Lemma skip_block_end body i :
  ~ has_block_end body -> i + length body <= skip_block body i + 1.
Proof.
  revert i. induction body as [|c body IH]; intros i Hne; cbn [skip_block length]; [lia|].
  apply has_block_end_cons in Hne as [Hne Hc]. specialize (IH (S i) Hne).
  destruct body as [|d body]; [cbn [length]; lia|].
  destruct (Ascii.eqb_spec c "*") as [->|]; cbn [andb]; [|lia].
  destruct (Ascii.eqb_spec d "/") as [->|]; [by destruct Hc|lia].
Qed.

Lemma skip_quoted_stop q body rest i :
  q <> ch_backslash -> literal_body q body = true ->
  skip_quoted q (body ++ q :: rest) i = i + length body + 1.
Proof.
  intros Hq. remember (length body) as m eqn:Hm. revert body i Hm.
  induction m as [m IH] using lt_wf_ind. intros body i Hm Hlit.
  destruct body as [|c body]; cbn [app skip_quoted length] in *.
  - subst m. rewrite Ascii.eqb_refl.
    destruct (Ascii.eqb_spec q ch_backslash); [done|]. destruct rest; lia.
  - cbn [literal_body] in Hlit.
    destruct (Ascii.eqb_spec c ch_backslash) as [->|Hc].
    + destruct body as [|d body]; [done|]. cbn [app length] in *.
      rewrite (IH (length body)) by (done || lia). lia.
    + apply andb_prop in Hlit as [Hcq Hlit]. apply negb_true_iff in Hcq.
      rewrite Hcq.
      assert (skip_quoted q (body ++ q :: rest) (i + 1) = i + 1 + length body + 1)
        as -> by (apply (IH (length body)); done || lia).
      destruct body; cbn [app]; lia.
Qed.

Lemma skip_quoted_end q body i :
  literal_body q body = true -> skip_quoted q body i = i + length body.
Proof.
  remember (length body) as m eqn:Hm. revert body i Hm.
  induction m as [m IH] using lt_wf_ind. intros body i Hm Hlit.
  destruct body as [|c body]; cbn [skip_quoted length] in *; [lia|].
  cbn [literal_body] in Hlit.
  destruct (Ascii.eqb_spec c ch_backslash) as [->|Hc].
  - destruct body as [|d body]; [done|]. cbn [length] in *.
    rewrite (IH (length body)) by (done || lia). lia.
  - apply andb_prop in Hlit as [Hcq Hlit]. apply negb_true_iff in Hcq.
    rewrite Hcq.
    assert (skip_quoted q body (i + 1) = i + 1 + length body)
      as -> by (apply (IH (length body)); done || lia).
    subst m. destruct body; cbn [length]; lia.
Qed.

Lemma find_from_first sub s i q :
  occurs_at sub s q = true -> (forall q', q' < q -> occurs_at sub s q' = false) ->
  find_from sub s i = Some (i + q).
Proof.
  unfold occurs_at. revert s i. induction q as [|q IH]; intros s i Hq Hfirst.
  - rewrite drop_0 in Hq. destruct s; cbn [find_from]; rewrite Hq; f_equal; lia.
  - pose proof (Hfirst 0 ltac:(lia)) as H0. rewrite drop_0 in H0.
    destruct s as [|c s]; [by rewrite drop_nil in Hq; congruence|].
    cbn [find_from]. rewrite H0. cbn [drop] in Hq.
    rewrite IH; [f_equal; lia|done|].
    intros q' Hq'. apply (Hfirst (S q')). lia.
Qed.

Lemma find_from_none sub s i :
  (forall q, occurs_at sub s q = false) -> find_from sub s i = None.
Proof.
  unfold occurs_at. revert i. induction s as [|c s IH]; intros i Hno.
  - pose proof (Hno 0) as H0. cbn [find_from]. by rewrite drop_0 in H0; rewrite H0.
  - pose proof (Hno 0) as H0. rewrite drop_0 in H0. cbn [find_from]. rewrite H0.
    apply IH. intros q. apply (Hno (S q)).
Qed.

Lemma mask_region_app (region rest : str) :
  let src := region ++ rest in
  let st := mask_step src (MaskState 0 src false) in
  0 < length region -> start_at src 0 = true ->
  m_break st = false -> m_i st = length region ->
  mask_cpp_comments_and_strings src =
  (blank_char <$> region) ++ mask_cpp_comments_and_strings rest.
Proof.
  cbn zeta. intros Hn Hs Hb Hi.
  rewrite mask_first_region by (rewrite ?length_app; done || lia).
  by rewrite Hi, take_app_length, drop_app_length.
Qed.

Lemma mask_nil : mask_cpp_comments_and_strings [] = [].
Proof. reflexivity. Qed.

(** X4. The texts the masker leaves as they are are exactly those in
    which no position starts a comment, a string or char literal or a
    raw string. *)
Theorem mask_fixed_point (src : str) :
  mask_cpp_comments_and_strings src = src <-> no_start src.
Proof.
  split.
  - intros H p Hp. rewrite <- H. by apply mask_output_clean.
  - apply mask_clean.
Qed.

(** X5. A prefix in which nothing starts is copied, and the text after it
    is masked as if it stood alone. *)
Theorem mask_plain_prefix (pre rest : str) :
  (forall p, p < length pre -> start_at (pre ++ rest) p = false) ->
  mask_cpp_comments_and_strings (pre ++ rest) =
  pre ++ mask_cpp_comments_and_strings rest.
Proof.
  intros Hplain.
  pose proof (mask_resume (pre ++ rest) (length pre)) as H. cbv zeta in H.
  rewrite mask_iter_plain in H by (rewrite ?length_app; done || lia).
  cbn [m_i m_out m_break] in H.
  rewrite take_app_length, drop_app_length in H. by apply H.
Qed.

Lemma mask_plain_prefix_witness :
  (forall p, p < length (list_ascii_of_string "a/b ") ->
     start_at (list_ascii_of_string "a/b " ++ list_ascii_of_string "// c") p = false) /\
  mask_cpp_comments_and_strings
    (list_ascii_of_string "a/b " ++ list_ascii_of_string "// c") =
  list_ascii_of_string "a/b " ++
  mask_cpp_comments_and_strings (list_ascii_of_string "// c").
Proof.
  assert (forall p, p < length (list_ascii_of_string "a/b ") ->
     start_at (list_ascii_of_string "a/b " ++ list_ascii_of_string "// c") p = false) as H.
  { intros p Hp. do 4 (destruct p as [|p]; [reflexivity|]). cbn in Hp. lia. }
  split; [exact H|]. apply (mask_plain_prefix _ _ H).
Defined.

(** X6. A line comment is replaced by spaces up to the next newline, which
    is kept and after which masking goes on as on a text of its own; without
    a newline it is replaced to the end of the text. *)
Theorem mask_skips_line_comment (body rest : str) :
  ch_nl ∉ body ->
  mask_cpp_comments_and_strings ("/" :: "/" :: body ++ ch_nl :: rest)%char =
    replicate (2 + length body) ch_space ++
    ch_nl :: mask_cpp_comments_and_strings rest /\
  mask_cpp_comments_and_strings ("/" :: "/" :: body)%char =
    replicate (2 + length body) ch_space.
Proof.
  intros Hnl.
  assert (blank_char <$> ("/" :: "/" :: body)%char = replicate (2 + length body) ch_space)
    as Hblank by (cbn [fmap list_fmap]; by rewrite (blank_no_nl body)).
  split.
  - pose proof (mask_region_app ("/" :: "/" :: body)%char (ch_nl :: rest)) as H.
    cbv zeta in H. cbn [app] in H. rewrite H; [| cbn [length]; lia | done | done |].
    + rewrite Hblank. f_equal. apply (mask_app_plain [ch_nl] rest).
      intros [|p] Hp; [done|cbn in Hp; lia].
    + change (skip_until ch_nl (body ++ ch_nl :: rest) 2 = length ("/" :: "/" :: body)%char).
      rewrite skip_until_stop by done. cbn [length]. lia.
  - pose proof (mask_region_app ("/" :: "/" :: body)%char []) as H.
    cbv zeta in H. rewrite app_nil_r in H. rewrite H; [| cbn [length]; lia | done | done |].
    + by rewrite Hblank, mask_nil, app_nil_r.
    + change (skip_until ch_nl body 2 = length ("/" :: "/" :: body)%char).
      rewrite skip_until_end by done. cbn [length]. lia.
Qed.

Lemma mask_skips_line_comment_witness :
  (ch_nl ∉ list_ascii_of_string " c") /\
  mask_cpp_comments_and_strings
    ("/" :: "/" :: list_ascii_of_string " c" ++ ch_nl :: list_ascii_of_string "x")%char =
    replicate (2 + length (list_ascii_of_string " c")) ch_space ++
    ch_nl :: mask_cpp_comments_and_strings (list_ascii_of_string "x") /\
  mask_cpp_comments_and_strings ("/" :: "/" :: list_ascii_of_string " c")%char =
    replicate (2 + length (list_ascii_of_string " c")) ch_space.
Proof.
  assert (ch_nl ∉ list_ascii_of_string " c") as H.
  { intros H. repeat (apply elem_of_cons in H as [H|H]; [discriminate H|]).
    by apply elem_of_nil in H. }
  split; [exact H|]. apply (mask_skips_line_comment _ _ H).
Defined.

(** X7. A block comment is blanked through its first [*/], newlines kept,
    and masking goes on after it as on a text of its own; a block comment
    that is not closed is blanked to the end of the text. *)
Theorem mask_skips_block_comment (body rest : str) :
  ~ has_block_end body ->
  mask_cpp_comments_and_strings ("/" :: "*" :: body ++ "*" :: "/" :: rest)%char =
    (blank_char <$> ("/" :: "*" :: body ++ ["*"; "/"])%char) ++
    mask_cpp_comments_and_strings rest /\
  mask_cpp_comments_and_strings ("/" :: "*" :: body)%char =
    blank_char <$> ("/" :: "*" :: body)%char.
Proof.
  intros Hne. split.
  - pose proof (mask_region_app ("/" :: "*" :: body ++ ["*"; "/"])%char rest) as H.
    cbv zeta in H. cbn [app] in H. rewrite <- app_assoc in H. cbn [app] in H.
    apply H; [cbn [length]; lia | done | done |].
    change (Nat.min (length ("/" :: "*" :: body ++ "*" :: "/" :: rest)%char)
              (skip_block (body ++ "*" :: "/" :: rest)%char 2 + 2)
            = length ("/" :: "*" :: body ++ ["*"; "/"])%char).
    rewrite skip_block_stop by done. cbn [length]. rewrite !length_app. cbn [length]. lia.
  - pose proof (mask_region_app ("/" :: "*" :: body)%char []) as H.
    cbv zeta in H. rewrite app_nil_r in H. rewrite H; [| cbn [length]; lia | done | done |].
    + by rewrite mask_nil, app_nil_r.
    + change (Nat.min (length ("/" :: "*" :: body)%char) (skip_block body 2 + 2)
              = length ("/" :: "*" :: body)%char).
      pose proof (skip_block_end body 2 Hne). cbn [length]. lia.
Qed.

Lemma mask_skips_block_comment_witness :
  ~ has_block_end (list_ascii_of_string "a*") /\
  mask_cpp_comments_and_strings
    ("/" :: "*" :: list_ascii_of_string "a*" ++ "*" :: "/" :: list_ascii_of_string "x")%char =
    (blank_char <$> ("/" :: "*" :: list_ascii_of_string "a*" ++ ["*"; "/"])%char) ++
    mask_cpp_comments_and_strings (list_ascii_of_string "x") /\
  mask_cpp_comments_and_strings ("/" :: "*" :: list_ascii_of_string "a*")%char =
    blank_char <$> ("/" :: "*" :: list_ascii_of_string "a*")%char.
Proof.
  assert (~ has_block_end (list_ascii_of_string "a*")) as H.
  { intros (q & H1 & H2). destruct q as [|[|q]]; discriminate. }
  split; [exact H|]. apply (mask_skips_block_comment _ _ H).
Defined.

(** X8. A string or char literal, in which a backslash takes the next
    character with it, is blanked through its closing quote, and masking
    goes on after it as on a text of its own; a literal that is not closed
    is blanked to the end of the text. *)
Theorem mask_skips_literal (q : ascii) (body rest : str) :
  q = ch_dquote \/ q = ch_squote -> literal_body q body = true ->
  mask_cpp_comments_and_strings (q :: body ++ q :: rest) =
    (blank_char <$> (q :: body ++ [q])) ++ mask_cpp_comments_and_strings rest /\
  mask_cpp_comments_and_strings (q :: body) = blank_char <$> (q :: body).
Proof.
  intros Hq Hlit.
  assert (q <> ch_backslash) as Hqb by (by destruct Hq as [-> | ->]).
  split.
  - pose proof (mask_region_app (q :: body ++ [q]) rest) as H.
    cbv zeta in H. cbn [app] in H. rewrite <- app_assoc in H. cbn [app] in H.
    apply H; [cbn [length]; lia | by destruct Hq as [-> | ->]
             | by destruct Hq as [-> | ->] |].
    transitivity (skip_quoted q (body ++ q :: rest) 1);
      [by destruct Hq as [-> | ->]|].
    rewrite skip_quoted_stop by done. cbn [length]. rewrite length_app. cbn [length]. lia.
  - pose proof (mask_region_app (q :: body) []) as H.
    cbv zeta in H. rewrite app_nil_r in H.
    rewrite H; [| cbn [length]; lia | by destruct Hq as [-> | ->]
                | by destruct Hq as [-> | ->] |].
    + by rewrite mask_nil, app_nil_r.
    + transitivity (skip_quoted q body 1); [by destruct Hq as [-> | ->]|].
      rewrite skip_quoted_end by done. cbn [length]. lia.
Qed.

Lemma mask_skips_literal_witness :
  (ch_dquote = ch_dquote \/ ch_dquote = ch_squote) /\
  literal_body ch_dquote [ch_backslash; ch_dquote; "a"%char] = true /\
  mask_cpp_comments_and_strings
    (ch_dquote :: [ch_backslash; ch_dquote; "a"%char] ++ ch_dquote :: ["x"%char]) =
    (blank_char <$> (ch_dquote :: [ch_backslash; ch_dquote; "a"%char] ++ [ch_dquote])) ++
    mask_cpp_comments_and_strings ["x"%char] /\
  mask_cpp_comments_and_strings (ch_dquote :: [ch_backslash; ch_dquote; "a"%char]) =
    blank_char <$> (ch_dquote :: [ch_backslash; ch_dquote; "a"%char]).
Proof.
  split; [by left|]. split; [reflexivity|].
  apply mask_skips_literal; [by left|reflexivity].
Defined.

Lemma mask_step_raw (tl0 : str) :
  let src := ("R" :: ch_dquote :: tl0)%char in
  mask_step src (MaskState 0 src false) =
  let n := length src in
  let i := skip_until "("%char tl0 2 in
  if n <=? i then MaskState i (put_spaces 0 n src) true
  else
    let close_seq := ")"%char :: take (i - 2) tl0 ++ [ch_dquote] in
    match str_find src close_seq (i + 1) with
    | None => MaskState (i + 1) (put_spaces 0 n src) true
    | Some close_pos =>
        MaskState (close_pos + length close_seq)
          (put_spaces 0 (close_pos + length close_seq) src) false
    end.
Proof. reflexivity. Qed.

Lemma mask_step_raw_paren (delim tl : str) :
  "("%char ∉ delim ->
  let src := ("R" :: ch_dquote :: delim ++ "(" :: tl)%char in
  let close_seq := ")"%char :: delim ++ [ch_dquote] in
  mask_step src (MaskState 0 src false) =
  match find_from close_seq tl (3 + length delim) with
  | None => MaskState (3 + length delim) (put_spaces 0 (length src) src) true
  | Some close_pos =>
      MaskState (close_pos + length close_seq)
        (put_spaces 0 (close_pos + length close_seq) src) false
  end.
Proof.
  intros Hd. cbv zeta. rewrite mask_step_raw. cbv zeta.
  rewrite skip_until_stop by done.
  replace (2 + length delim - 2) with (length delim) by lia.
  rewrite take_app_length.
  destruct (Nat.leb_spec (length ("R" :: ch_dquote :: delim ++ "(" :: tl)%char)
              (2 + length delim)) as [Hle|_].
  { cbn [length] in Hle. rewrite length_app in Hle. cbn [length] in Hle. lia. }
  unfold str_find.
  destruct (Nat.ltb_spec (length ("R" :: ch_dquote :: delim ++ "(" :: tl)%char)
              (2 + length delim + 1)) as [Hlt|_].
  { cbn [length] in Hlt. rewrite length_app in Hlt. cbn [length] in Hlt. lia. }
  replace (2 + length delim + 1) with (3 + length delim) by lia.
  replace (drop (3 + length delim) ("R" :: ch_dquote :: delim ++ "(" :: tl)%char) with tl.
  2:{ cbn [Nat.add drop]. rewrite (cons_middle "("%char delim tl), app_assoc.
      rewrite drop_app_length'; [done|]. rewrite length_app. cbn [length]. lia. }
  done.
Qed.

(** X9. A raw string literal, that is [R], a double quote, a delimiter,
    [(], a body, [)], the delimiter again and a double quote, is blanked
    through the first such closing sequence after its parenthesis, and
    masking goes on after it as on a text of its own; where the parenthesis
    or the closing sequence is missing, the whole rest of the text is
    blanked. *)
Theorem mask_raw_string (delim : str) :
  "("%char ∉ delim ->
  let opening := ("R" :: ch_dquote :: delim)%char in
  let close_seq := ")"%char :: delim ++ [ch_dquote] in
  mask_cpp_comments_and_strings opening = blank_char <$> opening /\
  (forall tl, (forall q, occurs_at close_seq tl q = false) ->
     mask_cpp_comments_and_strings (opening ++ "("%char :: tl) =
     blank_char <$> (opening ++ "("%char :: tl)) /\
  (forall body rest,
     (forall q, q < length body -> occurs_at close_seq (body ++ close_seq ++ rest) q = false) ->
     mask_cpp_comments_and_strings (opening ++ "("%char :: body ++ close_seq ++ rest) =
     (blank_char <$> (opening ++ "("%char :: body ++ close_seq)) ++
     mask_cpp_comments_and_strings rest).
Proof.
  intros Hd. cbv zeta. split; [|split].
  - apply mask_first_break; [cbn [length]; lia|done|].
    rewrite mask_step_raw. cbv zeta. rewrite skip_until_end by done.
    destruct (Nat.leb_spec (length ("R" :: ch_dquote :: delim)%char) (2 + length delim))
      as [_|Hlt]; [done|]. cbn [length] in Hlt. lia.
  - intros tl Hno. cbn [app]. apply mask_first_break; [cbn [length]; lia|done|].
    pose proof (mask_step_raw_paren delim tl Hd) as H. cbv zeta in H. rewrite H.
    by rewrite find_from_none.
  - intros body rest Hfirst.
    pose proof (mask_step_raw_paren delim (body ++ (")"%char :: delim ++ [ch_dquote]) ++ rest) Hd)
      as H. cbv zeta in H.
    rewrite (find_from_first _ _ _ (length body)) in H.
    2:{ unfold occurs_at. rewrite drop_app_length.
        generalize (")"%char :: delim ++ [ch_dquote]). intros l.
        induction l as [|c l IH]; [done|]. cbn [app starts_with].
        by rewrite Ascii.eqb_refl. }
    2:{ exact Hfirst. }
    pose proof (mask_region_app
                  (("R" :: ch_dquote :: delim)%char ++ "("%char :: body ++
                   ")"%char :: delim ++ [ch_dquote]) rest) as Hreg.
    cbv zeta in Hreg.
    replace ((("R" :: ch_dquote :: delim)%char ++ "("%char :: body ++
              ")"%char :: delim ++ [ch_dquote]) ++ rest)
      with (("R" :: ch_dquote :: delim)%char ++ "("%char :: body ++
              (")"%char :: delim ++ [ch_dquote]) ++ rest) in Hreg.
    2:{ repeat (rewrite <- ?app_assoc; cbn [app]). done. }
    apply Hreg; [cbn [length app]; lia|done| |].
    + cbn [app] in H |- *. by rewrite H.
    + cbn [app] in H |- *. rewrite H. cbn [m_i length].
      repeat (rewrite !length_app; cbn [length]). lia.
Qed.

Lemma mask_raw_string_witness :
  ("("%char ∉ list_ascii_of_string "x") /\
  mask_cpp_comments_and_strings
    (list_ascii_of_string "R" ++ [ch_dquote] ++ list_ascii_of_string "x(a)x" ++ [ch_dquote]
     ++ list_ascii_of_string " b") =
  list_ascii_of_string "         b".
Proof.
  assert ("("%char ∉ list_ascii_of_string "x") as H.
  { intros H. repeat (apply elem_of_cons in H as [H|H]; [discriminate H|]).
    by apply elem_of_nil in H. }
  split; [exact H|].
  destruct (mask_raw_string (list_ascii_of_string "x") H) as (_ & _ & H3).
  apply (H3 (list_ascii_of_string "a") (list_ascii_of_string " b")).
  intros q Hq. destruct q as [|q]; [reflexivity|]. cbn in Hq. lia.
Defined.
End MaskerShift.

(** ** Tokens of a line, tokens of a masked text *)

Section TokenizerFacts.
Local Open Scope nat_scope.

Lemma slice_length line s e : e <= length line -> length (slice line s e) = e - s.
Proof. intros H. unfold slice. rewrite length_take, length_drop. lia. Qed.

Lemma token_at_gap line s e s' e' :
  token_at line s e -> token_at line s' e' -> s < s' -> e < s'.
Proof.
  intros H1 H2 Hlt. pose proof (token_at_disjoint _ _ _ _ _ H1 H2 Hlt) as Hle.
  destruct (decide (e = s')) as [->|]; [|lia].
  apply token_at_delimited in H1 as (_ & _ & _ & Hr).
  destruct H2 as (Hse' & _ & _ & Hst & _).
  destruct Hr as [Hr|Hr]; [lia|].
  by rewrite (ident_cont_word _ (ident_start_cont _ Hst)) in Hr.
Qed.

(** X10. Two tokens of a line do not touch: reported at the same column
    they are the same token, and otherwise at least one character lies
    between the end of the first and the start of the second. *)
Theorem tokens_separated (text tok1 tok2 : str) (ln col1 col2 : Z) :
  In (tok1, ln, col1) (iter_identifiers_with_pos text) ->
  In (tok2, ln, col2) (iter_identifiers_with_pos text) ->
  (col1 = col2 -> tok1 = tok2) /\
  (col1 < col2 -> col1 + len tok1 < col2)%Z.
Proof.
  destruct (tokens_spec text) as [Hspec _].
  intros (line1 & s1 & e1 & Hln & Hl1 & Ht1 & -> & ->)%Hspec
         (line2 & s2 & e2 & _ & Hl2 & Ht2 & -> & ->)%Hspec.
  rewrite Hl1 in Hl2. injection Hl2 as <-. split.
  - intros Hs. assert (s1 = s2) as <- by lia.
    by rewrite (token_at_unique _ _ _ _ Ht1 Ht2).
  - intros Hs. pose proof (token_at_gap _ _ _ _ _ Ht1 Ht2 ltac:(lia)).
    unfold len. rewrite slice_length by (destruct Ht1; lia).
    destruct Ht1. lia.
Qed.

Lemma tokens_separated_witness :
  In (list_ascii_of_string "a", 1%Z, 1%Z)
     (iter_identifiers_with_pos (list_ascii_of_string "a+b")) /\
  In (list_ascii_of_string "b", 1%Z, 3%Z)
     (iter_identifiers_with_pos (list_ascii_of_string "a+b")) /\
  (1 + len (list_ascii_of_string "a") < 3)%Z.
Proof.
  assert (In (list_ascii_of_string "a", 1%Z, 1%Z)
             (iter_identifiers_with_pos (list_ascii_of_string "a+b"))) as H1
    by (vm_compute; tauto).
  assert (In (list_ascii_of_string "b", 1%Z, 3%Z)
             (iter_identifiers_with_pos (list_ascii_of_string "a+b"))) as H2
    by (vm_compute; tauto).
  split; [exact H1|]. split; [exact H2|].
  apply (tokens_separated _ _ _ _ _ _ H1 H2). reflexivity.
Defined.

Lemma blanked_linebreak c d : blanked c d -> is_linebreak c = true -> c = d.
Proof. intros [H|[H _]] Hc; congruence. Qed.

Lemma blanked_not_linebreak c d : blanked c d -> is_linebreak c = false -> is_linebreak d = false.
Proof. intros [<-|[_ ->]] Hc; done. Qed.

(** Blanking characters that end no line keeps the lines apart as they
    were. *)
Lemma splitlines_blanked (text1 text2 : str) :
  Forall2 blanked text1 text2 ->
  Forall2 (Forall2 blanked) (splitlines text1) (splitlines text2).
Proof.
  remember (length text1) as m eqn:Hm. revert text1 text2 Hm.
  induction m as [m IH] using lt_wf_ind. intros text1 text2 Hm H.
  destruct H as [|c d rest1 rest2 Hcd Hrest]; [constructor|].
  cbn [length] in Hm. cbn [splitlines].
  assert (Forall2 (Forall2 blanked) (splitlines rest1) (splitlines rest2)) as IHrest
    by (apply (IH (length rest1)); done || lia).
  destruct (is_linebreak c) eqn:Hc.
  - pose proof (blanked_linebreak _ _ Hcd Hc) as <-. rewrite Hc.
    destruct Hrest as [|c' d' rest1' rest2' Hcd' Hrest'].
    { constructor; constructor. }
    assert ((Ascii.eqb c "013" && Ascii.eqb c' "010") =
            (Ascii.eqb c "013" && Ascii.eqb d' "010")) as <-.
    { f_equal. destruct Hcd' as [<-|[Hnl ->]]; [done|].
      destruct (Ascii.eqb_spec c' "010") as [->|]; done. }
    destruct (Ascii.eqb c "013" && Ascii.eqb c' "010").
    + constructor; [constructor|].
      apply (IH (length rest1')); [cbn [length] in Hm; lia|done|done].
    + constructor; [constructor|]. exact IHrest.
  - rewrite (blanked_not_linebreak _ _ Hcd Hc).
    destruct IHrest as [|l1 l2 ls1 ls2 Hl Hls].
    + constructor; [|constructor]. constructor; [exact Hcd|constructor].
    + constructor; [|exact Hls]. constructor; [exact Hcd|exact Hl].
Qed.

Lemma mask_blanked (text : str) :
  (forall c, c ∈ text -> is_linebreak c = true -> c = ch_nl) ->
  Forall2 blanked text (mask_cpp_comments_and_strings text).
Proof.
  intros Hnl. destruct (mask_final_inv text) as (Hlen & Hchar & _). cbv zeta in *.
  apply Forall2_same_length_lookup_2; [done|].
  intros p c d Hc Hd.
  assert (p < length text) as Hp by (by apply lookup_lt_Some in Hc).
  rewrite lookup_char_at in Hc, Hd by lia. injection Hc as <-. injection Hd as <-.
  destruct (Hchar p Hp) as [->|[-> Hne]]; [by left|right]. split; [|done].
  destruct (is_linebreak (char_at text p)) eqn:Hlb; [|done].
  destruct Hne. apply Hnl; [|done].
  apply list_elem_of_lookup. exists p. by apply lookup_char_at.
Qed.

(** X11. In a text whose lines end in newlines only, every token found
    in the masked text stands in the text itself, on the same line at the
    same column. *)
Theorem masked_tokens_in_source (text tok : str) (ln col : Z) :
  (forall c, c ∈ text -> is_linebreak c = true -> c = ch_nl) ->
  In (tok, ln, col) (iter_identifiers_with_pos (mask_cpp_comments_and_strings text)) ->
  exists line,
    (1 <= ln)%Z /\ (1 <= col)%Z /\ tok <> [] /\
    splitlines text !! Z.to_nat (ln - 1) = Some line /\
    slice line (Z.to_nat (col - 1)) (Z.to_nat (col - 1) + length tok) = tok.
Proof.
  intros Hnl Hin. destruct (tokens_spec (mask_cpp_comments_and_strings text)) as [Hspec _].
  apply Hspec in Hin as (line' & s & e & Hln & Hl' & Ht & -> & ->).
  pose proof (splitlines_blanked _ _ (mask_blanked text Hnl)) as Hlines.
  destruct (Forall2_lookup_r _ _ _ _ _ Hlines Hl') as (line & Hl & Hline).
  destruct Ht as (Hse & _ & _ & Hst & Hin).
  pose proof (Forall2_length _ _ _ Hline) as Hlen.
  exists line. split; [done|]. split; [lia|]. split.
  { intros H. apply (f_equal length) in H. rewrite slice_length in H by lia.
    cbn in H. lia. }
  split; [done|].
  replace (Z.to_nat (Z.of_nat s + 1 - 1)) with s by lia.
  rewrite slice_length by lia. replace (s + (e - s)) with e by lia.
  unfold slice. apply char_at_ext.
  { rewrite !length_take, !length_drop. lia. }
  intros p Hp. rewrite length_take, length_drop in Hp.
  unfold char_at. rewrite !nth_lookup, !lookup_take_lt, !lookup_drop by lia.
  destruct (Forall2_lookup_l _ _ _ (s + p) (char_at line (s + p)) Hline)
    as (d & Hd & Hcd); [apply lookup_char_at; lia|].
  rewrite lookup_char_at by lia. rewrite Hd. cbn [default].
  destruct Hcd as [->|[_ ->]]; [done|].
  assert (ident_cont (char_at line' (s + p)) = true) as Hic.
  { destruct p as [|p]; [rewrite Nat.add_0_r; by apply ident_start_cont|]. apply Hin. lia. }
  rewrite (lookup_char_at line' (s + p)) in Hd by lia. injection Hd as Hd.
  rewrite Hd in Hic. done.
Qed.

Lemma masked_tokens_in_source_witness :
  (forall c, c ∈ list_ascii_of_string "a//b" -> is_linebreak c = true -> c = ch_nl) /\
  In (list_ascii_of_string "a", 1%Z, 1%Z)
     (iter_identifiers_with_pos
        (mask_cpp_comments_and_strings (list_ascii_of_string "a//b"))) /\
  exists line,
    (1 <= 1)%Z /\ (1 <= 1)%Z /\ list_ascii_of_string "a" <> [] /\
    splitlines (list_ascii_of_string "a//b") !! Z.to_nat (1 - 1) = Some line /\
    slice line (Z.to_nat (1 - 1)) (Z.to_nat (1 - 1) + length (list_ascii_of_string "a"))
    = list_ascii_of_string "a".
Proof.
  assert (forall c, c ∈ list_ascii_of_string "a//b" -> is_linebreak c = true -> c = ch_nl)
    as H1.
  { intros c Hc. repeat (apply elem_of_cons in Hc as [->|Hc]; [discriminate|]).
    by apply elem_of_nil in Hc. }
  assert (In (list_ascii_of_string "a", 1%Z, 1%Z)
     (iter_identifiers_with_pos
        (mask_cpp_comments_and_strings (list_ascii_of_string "a//b")))) as H2
    by (vm_compute; tauto).
  split; [exact H1|]. split; [exact H2|].
  apply (masked_tokens_in_source _ _ _ _ H1 H2).
Defined.
End TokenizerFacts.

(** ** What the near scan keeps *)

Lemma near_key_some (ncmp : str) (ignore_set : gset str) (max_dist : Z)
    (ci sfc : bool) (tok : str) (d : Z) :
  near_key ncmp ignore_set max_dist ci sfc tok = Some d <->
  (norm_case ci tok ∉ ignore_set) /\
  (sfc = true -> exists c t n, norm_case ci tok = c :: t /\ ncmp = c :: n) /\
  d = Z.of_nat (levenshtein (norm_case ci tok) ncmp) /\ 0 <= d <= max_dist.
Proof.
  unfold near_key, norm_case. cbv zeta.
  set (tcmp := if ci then lower tok else tok).
  pose proof (lev_length_diff tcmp ncmp) as [Hd1 Hd2].
  destruct (bool_decide_reflect (tcmp ∈ ignore_set)) as [Hin|Hin].
  { split; [done|]. by intros (? & _). }
  assert ((sfc && (is_empty tcmp || is_empty ncmp ||
                   negb (Ascii.eqb (char_at tcmp 0) (char_at ncmp 0))) = false) <->
          (sfc = true -> exists c t n, tcmp = c :: t /\ ncmp = c :: n)) as Hfirst.
  { destruct sfc; cbn [andb]; [|by split].
    destruct tcmp as [|c t]; cbn [is_empty orb]; [split; [done|]|].
    { intros H. by destruct (H eq_refl) as (? & ? & ? & ? & _). }
    destruct ncmp as [|c' n]; cbn [is_empty orb]; [split; [done|]|].
    { intros H. by destruct (H eq_refl) as (? & ? & ? & _ & ?). }
    unfold char_at. cbn [nth].
    destruct (Ascii.eqb_spec c c') as [->|Hne]; cbn [negb].
    - split; [|done]. intros _ _. by eexists _, _, _.
    - split; [done|]. intros H.
      destruct (H eq_refl) as (? & ? & ? & [= -> _] & [= -> _]). done. }
  destruct (sfc && _).
  { split; [done|]. intros (_ & H & _). by apply Hfirst in H. }
  destruct (Z.gtb_spec (Z.abs (len tcmp - len ncmp)) max_dist) as [Hgt|Hle].
  { split; [done|]. intros (_ & _ & -> & H). unfold len in Hgt. lia. }
  assert (0 <= max_dist) as Hk by lia.
  rewrite bounded_levenshtein_capped by done.
  destruct (Z.leb_spec (Z.min (Z.of_nat (levenshtein tcmp ncmp)) (max_dist + 1)) max_dist).
  - split.
    + intros [= <-]. split; [done|]. split; [by apply Hfirst|]. lia.
    + intros (_ & _ & -> & H'). f_equal. lia.
  - split; [done|]. intros (_ & _ & -> & H'). lia.
Qed.

Lemma cap_locs_len_le cap (l : list Occurrence) : len (cap_locs cap l) <= len l.
Proof.
  unfold cap_locs, len. destruct (cap =? 0); [lia|]. rewrite length_take. lia.
Qed.

Lemma cap_locs_In cap (l : list Occurrence) o : In o (cap_locs cap l) -> In o l.
Proof.
  unfold cap_locs. destruct (cap =? 0); [done|].
  rewrite <- !list_elem_of_In. apply subseteq_take.
Qed.

Lemma occurrences_path rp tok toks o : In o (occurrences rp tok toks) -> occ_path o = rp.
Proof. unfold occurrences. rewrite in_map_iff. by intros (t & <- & _). Qed.

Lemma occurrences_In rp tok toks ln col :
  In (tok, ln, col) toks -> In (mkOccurrence rp ln col) (occurrences rp tok toks).
Proof.
  intros Hin. unfold occurrences. apply in_map_iff. exists (tok, ln, col).
  split; [done|]. apply list_elem_of_In, list_elem_of_filter. split; [done|].
  by apply list_elem_of_In.
Qed.

Section NearExtras.
Variable load_text : str -> str -> option str.
Variable relpath_str : str -> str -> str.
Variables (path root needle : str) (max_dist : Z) (ci sfc : bool).
Variables (ignore_tokens : list str) (cap : Z) (mask : bool) (encoding : str).

Let r := scan_file_near load_text relpath_str path root needle max_dist ci sfc
           ignore_tokens cap mask encoding.
Let rp := relpath_str path root.

Lemma ignore_set_In (t : str) :
  t ∈ (list_to_set (map (fun t => if ci then lower t else t) ignore_tokens) : gset str) <->
  In t (map (norm_case ci) ignore_tokens).
Proof. rewrite elem_of_list_to_set, list_elem_of_In. done. Qed.

(** X12. Every entry that the near scan of a file returns is justified:
    its bucket is the edit distance between the normalized token and the
    normalized needle, which is at most [max_dist]; the token is not
    ignored and, with [same_first_char], starts like the needle; the
    entry carries the text of the token, a count of at least one, no
    more locations than the count or a positive cap allow, all in this
    file; and the token is in no other bucket. *)
Theorem scan_file_near_sound (d : Z) (tok : str) (a : NearTokenAggregate) :
  entry r d tok = Some a ->
  d = Z.of_nat (levenshtein (norm_case ci tok) (norm_case ci needle)) /\
  0 <= d <= max_dist /\
  ~ In (norm_case ci tok) (map (norm_case ci) ignore_tokens) /\
  (sfc = true ->
   exists c t n, norm_case ci tok = c :: t /\ norm_case ci needle = c :: n) /\
  agg_token a = tok /\ 1 <= agg_count a /\
  len (agg_locs a) <= agg_count a /\
  (0 < cap -> len (agg_locs a) <= cap) /\
  Forall (fun o => occ_path o = rp) (agg_locs a) /\
  (forall d', is_Some (entry r d' tok) -> d' = d).
Proof.
  subst r rp. intros Hentry.
  destruct (load_text path encoding) as [text|] eqn:Hload.
  2:{ rewrite scan_file_near_unreadable in Hentry by done.
      by rewrite entry_empty in Hentry. }
  pose proof (scan_file_near_entry load_text relpath_str path root needle max_dist ci sfc
                ignore_tokens cap mask encoding text) as Hspec.
  cbv zeta in Hspec. rewrite (Hspec d tok Hload) in Hentry.
  destruct (bool_decide_reflect
              (near_key (if ci then lower needle else needle)
                 (list_to_set (map (fun t => if ci then lower t else t) ignore_tokens))
                 max_dist ci sfc tok = Some d /\
               occurrences (relpath_str path root) tok
                 (iter_identifiers_with_pos (scanned_text mask text)) <> []))
    as [[Hkey Hocc]|]; [|done].
  injection Hentry as <-. cbn [agg_token agg_count agg_locs].
  apply near_key_some in Hkey as (Hign & Hfirst & Hd & Hrange).
  set (occs := occurrences _ _ _) in *.
  split; [done|]. split; [done|]. split; [by rewrite <- ignore_set_In|].
  split; [done|]. split; [done|].
  split; [unfold len; destruct occs; [done|cbn [length]; lia]|].
  split; [apply cap_locs_len_le|]. split; [apply cap_locs_length|].
  split.
  - apply Forall_forall. intros o Ho%list_elem_of_In%cap_locs_In.
    by apply occurrences_path in Ho.
  - intros d' [a' Ha']. rewrite (Hspec d' tok Hload) in Ha'.
    revert Ha'. case_bool_decide as Hk; [intros _|done]. destruct Hk as [Hkey' _].
    apply near_key_some in Hkey' as (_ & _ & -> & _). done.
Qed.

(** X13. Nothing within reach is lost: a token of the scanned text that
    is not ignored, that starts like the needle where [same_first_char]
    asks for it, and whose normalized text is within [max_dist] edits of
    the normalized needle, has an entry in the bucket of that distance,
    with the number of its occurrences as count; the test on the lengths
    that comes first never drops such a token.  Without a cap the
    occurrence is among the locations. *)
Theorem scan_file_near_complete (text tok : str) (ln col : Z) :
  load_text path encoding = Some text ->
  let toks := iter_identifiers_with_pos (scanned_text mask text) in
  let d := Z.of_nat (levenshtein (norm_case ci tok) (norm_case ci needle)) in
  In (tok, ln, col) toks ->
  ~ In (norm_case ci tok) (map (norm_case ci) ignore_tokens) ->
  (sfc = true ->
   exists c t n, norm_case ci tok = c :: t /\ norm_case ci needle = c :: n) ->
  d <= max_dist ->
  exists a,
    entry r d tok = Some a /\
    agg_count a = len (filter (fun t => fst (fst t) = tok) toks) /\
    (cap = 0 -> In (mkOccurrence rp ln col) (agg_locs a)).
Proof.
  subst r rp. intros Hload toks d Hin Hign Hfirst Hd.
  pose proof (scan_file_near_entry load_text relpath_str path root needle max_dist ci sfc
                ignore_tokens cap mask encoding text d tok Hload) as Hspec.
  cbv zeta in Hspec. rewrite Hspec. fold toks.
  pose proof (occurrences_In (relpath_str path root) tok toks ln col Hin) as Hocc.
  rewrite bool_decide_true.
  2:{ split; [|by destruct (occurrences _ _ _)].
      apply near_key_some. split; [by rewrite ignore_set_In|].
      split; [done|]. split; [done|]. subst d. lia. }
  eexists. split; [done|]. cbn [agg_count agg_locs]. split.
  - unfold occurrences, len. by rewrite length_map.
  - intros ->. done.
Qed.

(** X14. With a negative [max_dist], or with [same_first_char] and an
    empty needle, the near scan of any file returns the empty mapping. *)
Theorem scan_file_near_nothing :
  max_dist < 0 \/ (sfc = true /\ needle = []) -> r = ∅.
Proof.
  subst r. intros Hedge. unfold scan_file_near.
  destruct (load_text path encoding) as [text|]; [|done]. cbv zeta.
  generalize (iter_identifiers_with_pos
                (if mask then mask_cpp_comments_and_strings text else text)).
  intros toks. induction toks as [|[[tok ln] col] toks IH] using rev_ind; [done|].
  rewrite fold_left_app. cbn [fold_left]. rewrite IH, near_step_key.
  destruct (near_key _ _ _ _ _ tok) as [d|] eqn:Hkey; [|done].
  apply near_key_some in Hkey as (_ & Hfirst & _ & Hrange).
  destruct Hedge as [Hneg|[-> ->]]; [lia|].
  destruct (Hfirst eq_refl) as (c & t & n & _ & Hn). by destruct ci.
Qed.
End NearExtras.

Lemma scan_file_near_sound_witness :
  let r := scan_file_near demo_load_text demo_relpath_str (list_ascii_of_string "near.c")
             (list_ascii_of_string ".") (list_ascii_of_string "Root") 1 true false []
             20 true (list_ascii_of_string "utf-8") in
  exists a,
    entry r 1 (list_ascii_of_string "Rot") = Some a /\
    1 = Z.of_nat (levenshtein (norm_case true (list_ascii_of_string "Rot"))
                              (norm_case true (list_ascii_of_string "Root"))) /\
    agg_token a = list_ascii_of_string "Rot" /\ 1 <= agg_count a.
Proof.
  cbv zeta. eexists.
  assert (entry
            (scan_file_near demo_load_text demo_relpath_str (list_ascii_of_string "near.c")
               (list_ascii_of_string ".") (list_ascii_of_string "Root") 1 true false []
               20 true (list_ascii_of_string "utf-8")) 1 (list_ascii_of_string "Rot")
          = Some (mkNearTokenAggregate (list_ascii_of_string "Rot") 1
                    [mkOccurrence (list_ascii_of_string "near.c") 1 16])) as H
    by (vm_compute; reflexivity).
  split; [exact H|].
  destruct (scan_file_near_sound _ _ _ _ _ _ _ _ _ _ _ _ _ _ _ H)
    as (Hd & _ & _ & _ & Htok & Hcount & _).
  split; [exact Hd|]. split; [exact Htok|exact Hcount].
Defined.

Lemma scan_file_near_complete_witness :
  let r := scan_file_near demo_load_text demo_relpath_str (list_ascii_of_string "near.c")
             (list_ascii_of_string ".") (list_ascii_of_string "Root") 1 true false []
             20 true (list_ascii_of_string "utf-8") in
  In (list_ascii_of_string "ROOT", 1, 11)
     (iter_identifiers_with_pos
        (scanned_text true (list_ascii_of_string "Root root ROOT Rot // Root"))) /\
  exists a, entry r 0 (list_ascii_of_string "ROOT") = Some a /\ agg_count a = 1.
Proof.
  cbv zeta.
  assert (In (list_ascii_of_string "ROOT", 1, 11)
     (iter_identifiers_with_pos
        (scanned_text true (list_ascii_of_string "Root root ROOT Rot // Root")))) as Hin
    by (vm_compute; tauto).
  split; [exact Hin|].
  destruct (scan_file_near_complete demo_load_text demo_relpath_str
              (list_ascii_of_string "near.c") (list_ascii_of_string ".")
              (list_ascii_of_string "Root") 1 true false [] 20 true
              (list_ascii_of_string "utf-8")
              (list_ascii_of_string "Root root ROOT Rot // Root")
              (list_ascii_of_string "ROOT") 1 11 eq_refl Hin
              ltac:(intros []) ltac:(discriminate) ltac:(vm_compute; discriminate))
    as (a & Ha & Hcount & _).
  exists a. split; [exact Ha|]. rewrite Hcount. vm_compute. reflexivity.
Defined.

Lemma scan_file_near_nothing_witness :
  (-1 < 0 \/ (false = true /\ list_ascii_of_string "Root" = [])) /\
  scan_file_near demo_load_text demo_relpath_str (list_ascii_of_string "near.c")
    (list_ascii_of_string ".") (list_ascii_of_string "Root") (-1) true false []
    20 true (list_ascii_of_string "utf-8") = ∅.
Proof.
  split; [left; lia|]. apply scan_file_near_nothing. left. lia.
Defined.

(** ** The hits of the aggregate *)

Section MapSum.
Context `{Countable K} {A : Type}.
Implicit Types (g : A -> Z) (m : gmap K A).

Lemma map_sum_empty g : map_sum g (∅ : gmap K A) = 0.
Proof. unfold map_sum. by rewrite map_fold_empty. Qed.

Lemma map_sum_fold_insert g z m i x :
  m !! i = None ->
  map_fold (fun _ a acc => acc + g a) z (<[i:=x]> m) =
  map_fold (fun _ a acc => acc + g a) z m + g x.
Proof.
  intros Hi. rewrite map_fold_insert_L; [done| |done]. intros. lia.
Qed.

Lemma map_sum_acc g z m :
  map_fold (fun _ a acc => acc + g a) z m = z + map_sum g m.
Proof.
  unfold map_sum. induction m as [|i x m Hi IH] using map_ind.
  - rewrite !map_fold_empty. lia.
  - rewrite !map_sum_fold_insert by done. lia.
Qed.

Lemma map_sum_insert_new g m i x :
  m !! i = None -> map_sum g (<[i:=x]> m) = map_sum g m + g x.
Proof. apply map_sum_fold_insert. Qed.

Lemma map_sum_insert g m i x :
  map_sum g (<[i:=x]> m) = map_sum g m - from_option g 0 (m !! i) + g x.
Proof.
  destruct (m !! i) as [y|] eqn:Hi; cbn [from_option].
  - rewrite <- (insert_delete_id m i y) at 2 by done.
    rewrite <- insert_delete_eq.
    rewrite !map_sum_insert_new by apply lookup_delete_eq. lia.
  - rewrite map_sum_insert_new by done. lia.
Qed.
End MapSum.

Lemma total_hits_sum (agg : near_result) : total_hits agg = map_sum bucket_hits agg.
Proof.
  unfold total_hits, map_sum. induction agg as [|d tm agg Hd IH] using map_ind.
  - by rewrite !map_fold_empty.
  - rewrite map_fold_insert_L; [| |done].
    2:{ intros. rewrite !(map_sum_acc agg_count). lia. }
    rewrite (map_fold_insert_L (fun _ a acc => acc + bucket_hits a)); [| |done].
    2:{ intros. lia. }
    rewrite IH, (map_sum_acc agg_count). done.
Qed.

Lemma bucket_hits_merge (cap : Z) (bucket token_map : gmap str NearTokenAggregate) :
  bucket_hits (map_fold (merge_token cap) bucket token_map) =
  bucket_hits bucket + bucket_hits token_map.
Proof.
  apply (map_fold_weak_ind (fun r m => bucket_hits r = bucket_hits bucket + bucket_hits m)).
  - change (bucket_hits ∅) with (map_sum agg_count (∅ : gmap str NearTokenAggregate)).
    rewrite map_sum_empty. lia.
  - intros tok a m r Hm IH. change bucket_hits with (map_sum (K:=str) agg_count) in *.
    rewrite (map_sum_insert_new _ m) by done. unfold merge_token.
    destruct (r !! tok) as [cur|] eqn:Hr; rewrite map_sum_insert, Hr;
      cbn [from_option agg_count]; lia.
Qed.

Lemma total_hits_merge (cap : Z) (agg partial : near_result) :
  total_hits (merge_partial cap agg partial) = total_hits agg + total_hits partial.
Proof.
  rewrite !total_hits_sum. unfold merge_partial.
  apply (map_fold_weak_ind
           (fun r m => map_sum bucket_hits r = map_sum bucket_hits agg + map_sum bucket_hits m)).
  - rewrite map_sum_empty. lia.
  - intros d tm m r Hm IH. rewrite (map_sum_insert_new _ m) by done.
    unfold merge_bucket. rewrite map_sum_insert, bucket_hits_merge.
    destruct (r !! d) as [b|]; cbn [from_option id]; [lia|].
    change (bucket_hits ∅) with (map_sum agg_count (∅ : gmap str NearTokenAggregate)).
    rewrite map_sum_empty. lia.
Qed.

Lemma total_hits_step (relpath_str : str -> str -> str) (path root ncmp : str)
    (ignore_set : gset str) (max_dist : Z) (ci sfc : bool) (cap : Z)
    (out : near_result) (t : str * Z * Z) :
  total_hits (near_step relpath_str path root ncmp ignore_set max_dist ci sfc cap out t) =
  total_hits out +
  match near_key ncmp ignore_set max_dist ci sfc (fst (fst t)) with
  | Some _ => 1
  | None => 0
  end.
Proof.
  destruct t as [[tok ln] col]. rewrite near_step_key. cbn [fst].
  destruct (near_key _ _ _ _ _ tok) as [d|]; [|lia]. cbv zeta.
  rewrite !total_hits_sum, map_sum_insert.
  change bucket_hits with (map_sum (K:=str) agg_count). rewrite map_sum_insert.
  unfold entry. destruct (out !! d) as [b|]; cbn [from_option id].
  - destruct (b !! tok) as [a|]; cbn [from_option id agg_count]; lia.
  - rewrite lookup_empty, map_sum_empty. cbn [from_option id agg_count]. lia.
Qed.

Lemma total_hits_fold (relpath_str : str -> str -> str) (path root ncmp : str)
    (ignore_set : gset str) (max_dist : Z) (ci sfc : bool) (cap : Z)
    (toks : list (str * Z * Z)) :
  total_hits (fold_left (near_step relpath_str path root ncmp ignore_set max_dist ci sfc cap)
                        toks ∅) =
  len (filter (fun t => is_Some (near_key ncmp ignore_set max_dist ci sfc (fst (fst t))))
              toks).
Proof.
  induction toks as [|t toks IH] using rev_ind.
  - cbn [fold_left]. rewrite total_hits_sum, map_sum_empty. done.
  - rewrite fold_left_app. cbn [fold_left]. rewrite total_hits_step, IH.
    rewrite filter_app. unfold len. rewrite length_app.
    destruct (near_key _ _ _ _ _ (fst (fst t))) as [d|] eqn:Hk.
    + rewrite filter_cons_True, filter_nil by (by rewrite Hk). cbn [length]. lia.
    + rewrite filter_cons_False, filter_nil by (rewrite Hk; by intros [? ?]).
      cbn [length]. lia.
Qed.

Section TotalHits.
Variable load_text : str -> str -> option str.
Variable relpath_str : str -> str -> str.

(** X15. The total that [cmd_near] prints counts every kept token once:
    it is the number of tokens that the scans of the readable files keep,
    whatever the cap on the stored locations. *)
Theorem near_total_hits (args : NearArgs) (files : list str) :
  total_hits (near_aggregate load_text relpath_str args files) =
  zsum (map (fun f => match load_text f (near_encoding args) with
                      | None => 0
                      | Some text => len (accepted_tokens args text)
                      end) files).
Proof.
  rewrite near_aggregate_fold.
  induction files as [|f files IH] using rev_ind.
  - cbn. by rewrite total_hits_sum, map_sum_empty.
  - rewrite !map_app, fold_left_app, zsum_app. cbn [map fold_left].
    rewrite total_hits_merge, IH. f_equal. unfold zsum. cbn [foldr].
    rewrite Z.add_0_r. unfold near_partial, scan_file_near.
    destruct (load_text f (near_encoding args)) as [text|].
    + cbv zeta. rewrite total_hits_fold. unfold accepted_tokens, norm_case, scanned_text.
      done.
    + by rewrite total_hits_sum, map_sum_empty.
Qed.
End TotalHits.

Lemma buckets_in_range_empty (k : Z) : buckets_in_range k ∅.
Proof. intros d b H. by rewrite lookup_empty in H. Qed.

Lemma buckets_in_range_scan (relpath_str : str -> str -> str) (path root ncmp : str)
    (ignore_set : gset str) (max_dist : Z) (ci sfc : bool) (cap : Z)
    (toks : list (str * Z * Z)) :
  buckets_in_range max_dist
    (fold_left (near_step relpath_str path root ncmp ignore_set max_dist ci sfc cap)
               toks ∅).
Proof.
  induction toks as [|[[tok ln] col] toks IH] using rev_ind;
    [apply buckets_in_range_empty|].
  rewrite fold_left_app. cbn [fold_left]. rewrite near_step_key.
  destruct (near_key _ _ _ _ _ tok) as [d|] eqn:Hk; [|done]. cbv zeta.
  apply near_key_some in Hk as (_ & _ & _ & Hrange).
  intros d' b. destruct (decide (d' = d)) as [->|Hne].
  - rewrite lookup_insert_eq. intros [= <-]. split; [done|]. apply insert_non_empty.
  - rewrite lookup_insert_ne by done. apply IH.
Qed.

Lemma buckets_in_range_merge (k cap : Z) (agg partial : near_result) :
  buckets_in_range k agg -> buckets_in_range k partial ->
  buckets_in_range k (merge_partial cap agg partial).
Proof.
  intros Ha Hp d b. rewrite merge_partial_lookup.
  destruct (partial !! d) as [tm|] eqn:Hd; [|apply Ha].
  intros [= <-]. destruct (Hp d tm Hd) as [Hrange Hne]. split; [done|].
  destruct (map_choose tm Hne) as (tok & a & Htok).
  intros Hempty. apply (f_equal (fun m => m !! tok)) in Hempty.
  by rewrite merge_token_lookup, Htok, lookup_empty in Hempty.
Qed.

Lemma zsum_point (l : list Z) (f g : Z -> Z) (i v : Z) :
  NoDup l -> In i l -> (forall d, d <> i -> g d = f d) -> g i = f i + v ->
  zsum (map g l) = zsum (map f l) + v.
Proof.
  intros Hnd Hin Hother Hi. induction Hnd as [|a l Ha Hnd IH]; [done|].
  cbn [map]. unfold zsum in *. cbn [foldr].
  destruct (decide (a = i)) as [->|Hne].
  - rewrite Hi. rewrite (map_ext_in g f); [lia|].
    intros d Hd. apply Hother. intros ->. by apply Ha, list_elem_of_In.
  - rewrite Hother by done. destruct Hin as [|Hin]; [done|]. rewrite IH by done. lia.
Qed.

Lemma map_sum_range (h : gmap str NearTokenAggregate -> Z) (l : list Z)
    (agg : near_result) :
  NoDup l -> (forall d, is_Some (agg !! d) -> In d l) ->
  zsum (map (fun d => from_option h 0 (agg !! d)) l) = map_sum h agg.
Proof.
  intros Hnd. induction agg as [|i x m Hi IH] using map_ind; intros Hkeys.
  - rewrite map_sum_empty. clear Hnd Hkeys. induction l as [|a l IHl]; [done|].
    cbn [map]. unfold zsum in *. cbn [foldr]. rewrite lookup_empty. cbn [from_option].
    by rewrite IHl.
  - rewrite map_sum_insert_new by done.
    rewrite (zsum_point l (fun d => from_option h 0 (m !! d)) _ i (h x)).
    + rewrite IH; [done|]. intros d Hd. apply Hkeys.
      destruct (decide (d = i)) as [->|]; [by rewrite Hi in Hd; destruct Hd|].
      by rewrite lookup_insert_ne.
    + done.
    + apply Hkeys. rewrite lookup_insert_eq. by eexists.
    + intros d Hd. by rewrite lookup_insert_ne.
    + rewrite lookup_insert_eq, Hi. cbn [from_option]. lia.
Qed.

Lemma printed_buckets_hits (agg : near_result) (l : list Z) :
  zsum (map snd
          (flat_map
             (fun dist =>
                let token_map := default ∅ (agg !! dist) in
                if bool_decide (token_map = ∅) then []
                else [(dist, Z.of_nat (size token_map), bucket_hits token_map)]) l)) =
  zsum (map (fun d => from_option bucket_hits 0 (agg !! d)) l).
Proof.
  cbv zeta. induction l as [|d l IH]; [done|].
  cbn [flat_map map]. rewrite map_app, zsum_app, IH.
  unfold zsum at 3. cbn [foldr].
  fold (zsum (map (fun d => from_option bucket_hits 0 (agg !! d)) l)).
  f_equal. case_bool_decide as He.
  - unfold zsum. cbn [map foldr].
    destruct (agg !! d) as [b|]; cbn [from_option id] in *; [by rewrite He|done].
  - unfold zsum. cbn [map foldr snd].
    destruct (agg !! d) as [b|]; cbn [from_option id] in *; [lia|done].
Qed.

Section PrintedBuckets.
Variable load_text : str -> str -> option str.
Variable relpath_str : str -> str -> str.

Lemma buckets_in_range_aggregate (args : NearArgs) (files : list str) :
  buckets_in_range (near_max_dist args)
    (near_aggregate load_text relpath_str args files).
Proof.
  rewrite near_aggregate_fold.
  induction files as [|f files IH] using rev_ind; [apply buckets_in_range_empty|].
  rewrite map_app, fold_left_app. cbn [map fold_left].
  apply buckets_in_range_merge; [done|].
  unfold near_partial, scan_file_near.
  destruct (load_text f (near_encoding args)); [|apply buckets_in_range_empty].
  apply buckets_in_range_scan.
Qed.

(** X16. The loop that prints the buckets, over
    [range(0, max_dist + 1)], misses nothing: every distance that has a
    bucket in the aggregate gets its header line, and the hits of the
    header lines add up to the total printed before them. *)
Theorem near_printed_buckets (args : NearArgs) (files : list str) :
  let agg := near_aggregate load_text relpath_str args files in
  let printed := printed_buckets agg (near_max_dist args) in
  (forall d, is_Some (agg !! d) <-> In d (map (fun x => fst (fst x)) printed)) /\
  zsum (map snd printed) = total_hits agg.
Proof.
  cbv zeta. pose proof (buckets_in_range_aggregate args files) as Hgood.
  set (agg := near_aggregate load_text relpath_str args files) in *.
  assert (forall d, In d (py_range 0 (near_max_dist args + 1)) <->
                    0 <= d <= near_max_dist args) as Hrange.
  { intros d. unfold py_range. rewrite <- list_elem_of_In, elem_of_seqZ. lia. }
  split.
  - intros d. unfold printed_buckets. rewrite in_map_iff. split.
    + intros [b Hb]. destruct (Hgood d b Hb) as [Hd Hne].
      exists (d, Z.of_nat (size b), bucket_hits b). split; [done|].
      apply in_flat_map. exists d. split; [by apply Hrange|].
      cbv zeta. rewrite Hb. cbn [from_option id]. rewrite bool_decide_false by done.
      by left.
    + intros ([[d' n] h] & <- & Hin). cbn [fst].
      apply in_flat_map in Hin as (d & _ & Hin). cbv zeta in Hin.
      destruct (agg !! d) as [b|] eqn:Hb; cbn [from_option id] in Hin.
      * case_bool_decide; [done|]. destruct Hin as [[= <- _ _]|[]]. by eexists.
      * by rewrite bool_decide_true in Hin.
  - unfold printed_buckets. rewrite printed_buckets_hits, total_hits_sum.
    apply map_sum_range; [apply NoDup_seqZ|].
    intros d [b Hb]. apply Hrange. by destruct (Hgood d b Hb).
Qed.

(** X17. A token is listed in a bucket of the aggregate exactly when the
    scan of one of the files lists it there, and the aggregate keeps it
    under its own text. *)
Theorem near_aggregate_entries (args : NearArgs) (files : list str) (d : Z) (tok : str) :
  let agg := near_aggregate load_text relpath_str args files in
  (is_Some (entry agg d tok) <->
   exists f, In f files /\
             is_Some (entry (near_partial load_text relpath_str args f) d tok)) /\
  (forall a, entry agg d tok = Some a -> agg_token a = tok).
Proof.
  cbv zeta. rewrite near_aggregate_fold.
  induction files as [|f files [IH1 IH2]] using rev_ind.
  - cbn [map fold_left]. rewrite entry_empty. split.
    + split; [by intros [? ?]|]. by intros (? & [] & _).
    + done.
  - rewrite map_app, fold_left_app. cbn [map fold_left].
    rewrite merge_partial_entry. split.
    + setoid_rewrite in_app_iff.
      destruct (entry (near_partial load_text relpath_str args f) d tok) as [a|] eqn:Hf.
      * split; [|by eexists]. intros _. exists f. rewrite Hf. split; [right; by left|by eexists].
      * rewrite IH1. split.
        -- intros (f' & Hin & Hsome). exists f'. split; [by left|done].
        -- intros (f' & [Hin|[<-|[]]] & Hsome); [by exists f'|].
           rewrite Hf in Hsome. by destruct Hsome.
    + intros a. destruct (entry (near_partial load_text relpath_str args f) d tok) as [a'|];
        [|apply IH2].
      intros [= <-]. unfold merge_agg.
      destruct (entry (fold_left _ _ _) d tok) as [cur|] eqn:Hcur; [|done].
      cbn [agg_token]. by apply IH2.
Qed.
End PrintedBuckets.

(** ** Rows of the compare scan *)

Lemma StronglySorted_sublist {A} (R : relation A) (l1 l2 : list A) :
  sublist l1 l2 -> StronglySorted R l2 -> StronglySorted R l1.
Proof.
  induction 1 as [|x l1 l2 Hsub IH|x l1 l2 Hsub IH]; intros Hs.
  - constructor.
  - apply StronglySorted_inv in Hs as [Hs Hall]. constructor; [by apply IH|].
    rewrite Forall_forall in Hall. apply Forall_forall. intros y Hy.
    apply Hall. by eapply elem_of_sublist.
  - apply StronglySorted_inv in Hs as [Hs _]. by apply IH.
Qed.

Lemma cap_locs_sublist cap (l : list Occurrence) : sublist (cap_locs cap l) l.
Proof. unfold cap_locs. destruct (cap =? 0); [done|apply sublist_take]. Qed.

Lemma cap_locs_len cap (l : list Occurrence) :
  len (cap_locs cap l) = capped_len cap (len l).
Proof.
  unfold cap_locs, capped_len, len. destruct (cap =? 0); [done|].
  rewrite length_take. lia.
Qed.

Lemma occs_sorted (rp : str) (P : str * Z * Z -> Prop) `{!forall t, Decision (P t)}
    (cap : Z) (text : str) :
  StronglySorted occ_lt
    (cap_locs cap (map (occ_of rp) (filter P (iter_identifiers_with_pos text)))).
Proof.
  eapply StronglySorted_sublist; [apply cap_locs_sublist|].
  apply (StronglySorted_fmap (occ_of rp) pos_lt occ_lt); [by intros [[? ?] ?] [[? ?] ?] Hlt|].
  eapply StronglySorted_sublist; [apply sublist_filter|].
  apply tokens_spec.
Qed.

Lemma diff_sum_closed (P : Z -> Prop) (rows : list CompareFileRow) :
  P 0 -> (forall x y, P x -> P y -> P (x + y)) ->
  Forall (fun r => diff r = count_a r - count_b r) rows ->
  Forall (fun r => P (diff r)) rows ->
  P (zsum (map count_a rows) - zsum (map count_b rows)).
Proof.
  intros H0 Hadd Hdiff HP. induction rows as [|r rows IH]; [done|].
  apply Forall_cons in Hdiff as [Hd Hdiff]. apply Forall_cons in HP as [HPr HP].
  cbn [map]. unfold zsum in *. cbn [foldr].
  replace (count_a r + foldr Z.add 0 (map count_a rows) -
           (count_b r + foldr Z.add 0 (map count_b rows)))
    with (diff r + (foldr Z.add 0 (map count_a rows) - foldr Z.add 0 (map count_b rows)))
    by lia.
  apply Hadd; [done|by apply IH].
Qed.

Section CompareExtras.
Variable load_text : str -> str -> option str.
Variable relpath_str : str -> str -> str.
Variable write_file : str -> bool.

(** X18. The locations that a row of the compare scan carries are the
    first ones in the order of the text: for each needle their number is
    the count, cut at a positive cap and zero under a negative one, they
    all name the file of the row, and they are sorted by line and
    column. *)
Theorem scan_file_compare_locs (path root a b : str) (ci : bool) (cap : Z)
    (mask : bool) (encoding : str) :
  let r := scan_file_compare load_text relpath_str path root a b ci cap mask encoding in
  0 <= count_a r /\ 0 <= count_b r /\
  len (locs_a r) = capped_len cap (count_a r) /\
  len (locs_b r) = capped_len cap (count_b r) /\
  Forall (fun o => occ_path o = relpath_str path root) (locs_a r ++ locs_b r) /\
  StronglySorted occ_lt (locs_a r) /\ StronglySorted occ_lt (locs_b r).
Proof.
  cbv zeta. destruct (load_text path encoding) as [text|] eqn:Hload.
  - rewrite (scan_file_compare_counts load_text relpath_str path root a b ci cap mask
               encoding text Hload).
    cbn [count_a count_b locs_a locs_b].
    split; [unfold len; lia|]. split; [unfold len; lia|].
    rewrite !cap_locs_len. unfold len. rewrite !length_map.
    split; [done|]. split; [done|]. split; [|split; apply occs_sorted].
    apply Forall_app. split; apply Forall_forall; intros o Ho;
      apply (fun H => elem_of_sublist _ _ _ H (cap_locs_sublist _ _)) in Ho;
      apply list_elem_of_In, in_map_iff in Ho as (t & <- & _); done.
  - unfold scan_file_compare. rewrite Hload. cbn [count_a count_b locs_a locs_b app].
    unfold capped_len, len. cbn [length].
    repeat split; try lia; try constructor; destruct (cap =? 0); lia.
Qed.

(** X19. When the two needles are the same after normalization, all
    their occurrences are counted for A: every row has [count_b = 0], no
    location for B, and [diff = count_a]. *)
Theorem scan_file_compare_same_needle (path root a b : str) (ci : bool) (cap : Z)
    (mask : bool) (encoding : str) :
  norm_case ci a = norm_case ci b ->
  let r := scan_file_compare load_text relpath_str path root a b ci cap mask encoding in
  count_b r = 0 /\ locs_b r = [] /\ diff r = count_a r.
Proof.
  intros Hab. cbv zeta. destruct (load_text path encoding) as [text|] eqn:Hload.
  - rewrite (scan_file_compare_counts load_text relpath_str path root a b ci cap mask
               encoding text Hload).
    cbn [count_a count_b locs_b diff].
    assert (filter (fun t => counts_for_b ci (norm_case ci a) (norm_case ci b) t = true)
                   (iter_identifiers_with_pos (scanned_text mask text)) = []) as ->.
    { generalize (iter_identifiers_with_pos (scanned_text mask text)). intros toks.
      induction toks as [|t toks IH]; [done|].
      rewrite filter_cons_False; [done|]. unfold counts_for_b, counts_for_a.
      rewrite <- Hab. by destruct (bool_decide _). }
    cbn [map]. rewrite cap_locs_nil. unfold len. cbn [length]. split; [done|].
    split; [done|lia].
  - unfold scan_file_compare. by rewrite Hload.
Qed.

Lemma check_expectation_int (row : CompareFileRow) (ratio : spec_float) (tolerance : Z) :
  check_expectation row expect_equal ratio tolerance =
    Some (Z.abs (diff row) <=? tolerance) /\
  check_expectation row expect_a_ge_b ratio tolerance =
    Some (diff row >=? - tolerance) /\
  check_expectation row expect_b_ge_a ratio tolerance =
    Some (diff row <=? tolerance).
Proof. unfold check_expectation. repeat split. Qed.

(** X20. With tolerance 0 and one of the expectations [equal], [a>=b]
    and [b>=a], a run of [cmd_compare] in which no file is a mismatch
    finds the totals in order as well. *)
Theorem cmd_compare_no_mismatch (args : CompareArgs) (files : list str)
    (rep : CompareReport) (st : Z) :
  cmd_compare load_text relpath_str write_file args files = Some (rep, st) ->
  cmp_tolerance args = 0 ->
  In (cmp_expect args) [expect_equal; expect_a_ge_b; expect_b_ge_a] ->
  rep_mismatches rep = [] ->
  rep_overall_ok rep = true.
Proof.
  intros Hrun Htol Hexp Hnone.
  apply cmd_compare_report in Hrun as (_ & Hrow & Hok & Hms & _). cbv zeta in *.
  rewrite Hnone in Hms. apply find_mismatches_spec in Hms as [Hfilter Hall].
  rewrite Hrow, Htol in Hok. rewrite Htol in Hfilter, Hall.
  set (rows := compare_rows load_text relpath_str args files) in *.
  assert (Forall (fun r => check_expectation r (cmp_expect args) (cmp_ratio args) 0
                           = Some true) rows) as Hpass.
  { apply Forall_forall. intros r Hr. rewrite Forall_forall in Hall.
    destruct (Hall r Hr) as [[|] Hc]; [done|].
    assert (r ∈ filter (fun r => check_expectation r (cmp_expect args) (cmp_ratio args) 0
                                  = Some false) rows) as Hin
      by (by apply list_elem_of_filter).
    rewrite <- Hfilter in Hin. by apply elem_of_nil in Hin. }
  assert (Forall (fun r => diff r = count_a r - count_b r) rows) as Hdiff.
  { apply Forall_forall. intros r Hr. unfold rows, compare_rows in Hr.
    apply list_elem_of_In, in_map_iff in Hr as (f & <- & _).
    apply scan_file_compare_diff. }
  rewrite !sum_of_zsum in Hok. clearbody rows.
  pose proof (fun P H0 Hadd => diff_sum_closed P rows H0 Hadd Hdiff) as Hsum.
  destruct (check_expectation_int
              (mkCompareFileRow (list_ascii_of_string "<TOTAL>") (zsum (map count_a rows))
                 (zsum (map count_b rows))
                 (zsum (map count_a rows) - zsum (map count_b rows)) [] [])
              (cmp_ratio args) 0) as (He & Ha & Hb).
  cbn [diff] in He, Ha, Hb.
  destruct Hexp as [Hexp|[Hexp|[Hexp|[]]]]; rewrite <- Hexp in Hok, Hpass.
  - rewrite He in Hok. injection Hok as <-. apply Z.leb_le.
    apply (Hsum (fun x => Z.abs x <= 0)); [lia|lia|].
    eapply Forall_impl; [exact Hpass|]. intros r Hr. cbn beta in Hr.
    destruct (check_expectation_int r (cmp_ratio args) 0) as (Hr' & _).
    rewrite Hr' in Hr. injection Hr as Hr. by apply Z.leb_le.
  - rewrite Ha in Hok. injection Hok as <-. apply Z.geb_le.
    apply (Hsum (fun x => - 0 <= x)); [lia|lia|].
    eapply Forall_impl; [exact Hpass|]. intros r Hr. cbn beta in Hr.
    destruct (check_expectation_int r (cmp_ratio args) 0) as (_ & Hr' & _).
    rewrite Hr' in Hr. injection Hr as Hr. by apply Z.geb_le.
  - rewrite Hb in Hok. injection Hok as <-. apply Z.leb_le.
    apply (Hsum (fun x => x <= 0)); [lia|lia|].
    eapply Forall_impl; [exact Hpass|]. intros r Hr. cbn beta in Hr.
    destruct (check_expectation_int r (cmp_ratio args) 0) as (_ & _ & Hr').
    rewrite Hr' in Hr. injection Hr as Hr. by apply Z.leb_le.
Qed.
End CompareExtras.

Lemma scan_file_compare_same_needle_witness :
  let r := scan_file_compare demo_load_text demo_relpath_str (list_ascii_of_string "cmp.c")
             (list_ascii_of_string ".") (list_ascii_of_string "Elefant")
             (list_ascii_of_string "ELEFANT") true 5 true (list_ascii_of_string "utf-8") in
  norm_case true (list_ascii_of_string "Elefant") =
  norm_case true (list_ascii_of_string "ELEFANT") /\
  count_a r = 3 /\ count_b r = 0 /\ locs_b r = [] /\ diff r = count_a r.
Proof.
  cbv zeta. split; [reflexivity|]. split; [vm_compute; reflexivity|].
  apply (scan_file_compare_same_needle demo_load_text demo_relpath_str _ _ _ _ true).
  reflexivity.
Defined.


Lemma cmd_compare_no_mismatch_witness :
  exists rep st,
    cmd_compare demo_load_text demo_relpath_str demo_write_file
      (demo_compare_args expect_a_ge_b) [list_ascii_of_string "cmp.c"] = Some (rep, st) /\
    rep_mismatches rep = [] /\ rep_overall_ok rep = true.
Proof.
  eexists _, _. split; [vm_compute; reflexivity|]. split; [reflexivity|].
  eapply (cmd_compare_no_mismatch demo_load_text demo_relpath_str demo_write_file
            (demo_compare_args expect_a_ge_b) [list_ascii_of_string "cmp.c"]).
  - vm_compute. reflexivity.
  - reflexivity.
  - right. left. reflexivity.
  - reflexivity.
Defined.

(** ** The tolerance of an expectation *)

Lemma float_le_int_mono (x : spec_float) (n n' : Z) :
  n <= n' -> float_le_int x n = true -> float_le_int x n' = true.
Proof.
  intros Hn. destruct x as [s|s| |s m e]; cbn [float_le_int]; [|done|done|].
  - rewrite !Z.leb_le. lia.
  - destruct (0 <=? e) eqn:He; rewrite !Z.leb_le; [lia|].
    apply Z.leb_gt in He. assert (0 < 2 ^ (- e)) by (apply Z.pow_pos_nonneg; lia).
    intros H1. etransitivity; [exact H1|]. by apply Z.mul_le_mono_nonneg_r; [lia|].
Qed.

Lemma float_le_int_abs_negative (x : spec_float) (n : Z) :
  n < 0 -> float_le_int (SFabs x) n = false.
Proof.
  intros Hn. destruct x as [s|s| |s m e]; cbn [SFabs float_le_int]; [|done|done|].
  - apply Z.leb_gt. lia.
  - destruct (0 <=? e) eqn:He; apply Z.leb_gt.
    + apply Z.leb_le in He. assert (0 < 2 ^ e) by (apply Z.pow_pos_nonneg; lia). nia.
    + apply Z.leb_gt in He. assert (0 < 2 ^ (- e)) by (apply Z.pow_pos_nonneg; lia). nia.
Qed.

(** X21. What the tolerance does to an expectation: a larger tolerance
    never turns a pass into a failure, and never decides whether the
    check raises; under a negative tolerance [equal] and [ratio] cannot
    pass; and [equal] passes exactly when [a>=b] and [b>=a] both do. *)
Theorem check_expectation_tolerance (row : CompareFileRow) (expect : str)
    (ratio : spec_float) (t t' : Z) :
  (t <= t' ->
   check_expectation row expect ratio t = Some true ->
   check_expectation row expect ratio t' = Some true) /\
  (is_Some (check_expectation row expect ratio t) <->
   is_Some (check_expectation row expect ratio t')) /\
  (t < 0 ->
   check_expectation row expect_equal ratio t = Some false /\
   check_expectation row expect_ratio ratio t <> Some true) /\
  (check_expectation row expect_equal ratio t = Some true <->
   check_expectation row expect_a_ge_b ratio t = Some true /\
   check_expectation row expect_b_ge_a ratio t = Some true).
Proof.
  destruct (check_expectation_int row ratio t) as (He & Ha & Hb).
  split; [|split; [|split]].
  - intros Ht. unfold check_expectation.
    repeat case_bool_decide.
    + intros [= Hp]. f_equal. apply Z.leb_le. apply Z.leb_le in Hp. lia.
    + intros [= Hp]. f_equal. apply Z.geb_le. apply Z.geb_le in Hp. lia.
    + intros [= Hp]. f_equal. apply Z.leb_le. apply Z.leb_le in Hp. lia.
    + destruct (float_of_int (count_b row)) as [fb|]; [|done].
      destruct (float_of_int (count_a row)) as [fa|]; [|done].
      intros [= Hp]. f_equal. by apply (float_le_int_mono _ t t').
  - unfold check_expectation. repeat case_bool_decide; try by split; eexists.
    destruct (float_of_int (count_b row)) as [fb|]; [|done].
    destruct (float_of_int (count_a row)) as [fa|]; [|done].
    split; by eexists.
  - intros Ht. rewrite He. split; [f_equal; apply Z.leb_gt; lia|].
    unfold check_expectation.
    change (bool_decide (expect_ratio = expect_equal)) with false.
    change (bool_decide (expect_ratio = expect_a_ge_b)) with false.
    change (bool_decide (expect_ratio = expect_b_ge_a)) with false.
    cbv iota.
    destruct (float_of_int (count_b row)) as [fb|]; [|done].
    destruct (float_of_int (count_a row)) as [fa|]; [|done].
    by rewrite float_le_int_abs_negative.
  - rewrite He, Ha, Hb. split.
    + intros [= H%Z.leb_le]. split; f_equal; [apply Z.geb_le|apply Z.leb_le]; lia.
    + intros [[= H1%Z.geb_le] [= H2%Z.leb_le]]. f_equal. apply Z.leb_le. lia.
Qed.

(** ** Skipping directories *)

Lemma starts_with_prefix (sub rest : str) :
  starts_with sub rest = true <-> exists tl, rest = sub ++ tl.
Proof.
  revert rest. induction sub as [|x sub IH]; intros rest; cbn [starts_with].
  - split; [by exists rest|done].
  - destruct rest as [|y rest].
    + split; [done|]. by intros (tl & ?).
    + rewrite andb_true_iff, IH. split.
      * intros [->%Ascii.eqb_eq (tl & ->)]. by exists tl.
      * intros (tl & [= -> ->]). split; [apply Ascii.eqb_refl|by exists tl].
Qed.

Lemma ends_with_star_spec (p : str) :
  ends_with_star p = true <-> exists q, p = q ++ ["*"%char].
Proof.
  unfold ends_with_star. destruct p as [|c p] using rev_ind.
  - split; [done|]. intros (q & Hq). by destruct q.
  - rewrite last_snoc. split.
    + intros ->%Ascii.eqb_eq. by exists p.
    + intros (q & [-> ->]%app_inj_tail). apply Ascii.eqb_refl.
Qed.

Lemma should_skip_dir_iff (dirname : str) (patterns : list str) :
  should_skip_dir dirname patterns = true <->
  exists p, In p patterns /\
    ((exists q tl, p = q ++ ["*"%char] /\ dirname = q ++ tl) \/
     (ends_with_star p = false /\ dirname = p)).
Proof.
  induction patterns as [|p patterns IH]; cbn [should_skip_dir In].
  { split; [done|]. by intros (? & [] & _). }
  destruct (ends_with_star p) eqn:Hstar.
  - pose proof Hstar as (q & ->)%ends_with_star_spec. rewrite removelast_last.
    destruct (starts_with q dirname) eqn:Hq.
    + split; [|done]. intros _. apply starts_with_prefix in Hq as (tl & ->).
      exists (q ++ ["*"%char]). split; [by left|]. left. by exists q, tl.
    + rewrite IH. split.
      * intros (p & Hin & Hp). exists p. by split; [right|].
      * intros (p & [<-|Hin] & Hp); [|by exists p].
        destruct Hp as [(q' & tl & [-> _]%app_inj_tail & ->)|[Hns _]].
        -- assert (starts_with q' (q' ++ tl) = true) as Hq'
             by (apply starts_with_prefix; by exists tl).
           congruence.
        -- congruence.
  - case_bool_decide as Hd.
    + split; [|done]. intros _. exists p. split; [by left|]. by right.
    + rewrite IH. split.
      * intros (p' & Hin & Hp). exists p'. by split; [right|].
      * intros (p' & [<-|Hin] & Hp); [|by exists p'].
        destruct Hp as [(q' & tl & -> & ->)|[_ ->]]; [|done].
        assert (ends_with_star (q' ++ ["*"%char]) = true) as Hs
          by (apply ends_with_star_spec; by exists q').
        congruence.
Qed.

Lemma should_skip_dir_app (dirname : str) (patterns more : list str) :
  should_skip_dir dirname (patterns ++ more) =
  should_skip_dir dirname patterns || should_skip_dir dirname more.
Proof.
  induction patterns as [|p patterns IH]; [done|].
  cbn [app should_skip_dir]. rewrite IH.
  by destruct (ends_with_star p), (starts_with (removelast p) dirname),
    (bool_decide (dirname = p)).
Qed.

(** X22. A directory name is skipped exactly when a pattern that ends in
    a star has the rest of the pattern as a prefix of the name, or a
    pattern without a star at its end is the name itself; a star elsewhere
    in a pattern stands for itself.  So the patterns act one by one, and
    the pattern made of a star alone skips every directory. *)
Theorem should_skip_dir_spec (dirname : str) (patterns : list str) :
  (should_skip_dir dirname patterns = true <->
   exists p, In p patterns /\
     ((exists q tl, p = q ++ ["*"%char] /\ dirname = q ++ tl) \/
      (ends_with_star p = false /\ dirname = p))) /\
  (forall more,
     should_skip_dir dirname (patterns ++ more) =
     should_skip_dir dirname patterns || should_skip_dir dirname more) /\
  (In ["*"%char] patterns -> should_skip_dir dirname patterns = true).
Proof.
  split; [apply should_skip_dir_iff|]. split; [intros more; apply should_skip_dir_app|].
  intros Hstar. apply should_skip_dir_iff. exists ["*"%char]. split; [done|].
  left. by exists [], dirname.
Qed.

(** ** Walking the source tree *)

Lemma rfind_dot_spec (name : str) (i : nat) :
  match rfind_dot name i with
  | Some j =>
      exists stem ext, name = stem ++ "."%char :: ext /\ ("."%char ∉ ext) /\
                       j = (i + length stem)%nat
  | None => "."%char ∉ name
  end.
Proof.
  revert i. induction name as [|c name IH]; intros i; cbn [rfind_dot].
  { apply not_elem_of_nil. }
  specialize (IH (S i)). destruct (rfind_dot name (S i)) as [j|].
  - destruct IH as (stem & ext & -> & Hext & ->).
    exists (c :: stem), ext. cbn [length app]. split; [done|]. split; [done|lia].
  - destruct (Ascii.eqb_spec c ".") as [->|Hc].
    + exists [], name. cbn [length app]. split; [done|]. split; [done|lia].
    + by apply not_elem_of_cons.
Qed.

Lemma suffix_spec (fn sfx : str) :
  suffix fn = sfx /\ sfx <> [] <->
  exists stem ext, fn = stem ++ "."%char :: ext /\ stem <> [] /\ ext <> [] /\
                   ("."%char ∉ ext) /\ sfx = "."%char :: ext.
Proof.
  unfold suffix. pose proof (rfind_dot_spec fn 0) as Hr.
  destruct (rfind_dot fn 0) as [j|].
  - destruct Hr as (stem & ext & -> & Hext & ->). cbn [Nat.add].
    rewrite length_app. cbn [length].
    destruct (Nat.ltb_spec 0 (length stem)) as [Hs|Hs];
      destruct (Nat.ltb_spec (length stem) (length stem + S (length ext) - 1)) as [He|He];
      cbn [andb].
    + rewrite drop_app_length. split.
      * intros [<- _]. exists stem, ext. repeat split; try done.
        -- intros ->. cbn in Hs. lia.
        -- intros ->. cbn in He. lia.
      * intros (stem' & ext' & Heq & Hs' & He' & Hext' & ->). split; [|done].
        f_equal. clear Hs He Hs' He'. revert stem' Heq.
        induction stem as [|x stem IHs]; intros [|y stem'] Heq; cbn [app] in Heq.
        -- by injection Heq.
        -- injection Heq as <- ->. destruct Hext. apply elem_of_app. right. by left.
        -- injection Heq as -> <-. destruct Hext'. apply elem_of_app. right. by left.
        -- injection Heq as _ Heq. by apply IHs in Heq.
    + split; [by intros [<- ?]|].
      intros (stem' & ext' & Heq & Hs' & He' & Hext' & ->).
      assert (ext = []) as -> by (destruct ext; [done|cbn [length] in He; lia]).
      apply (f_equal (@rev ascii)) in Heq. rewrite !rev_app_distr in Heq. cbn [rev app] in Heq.
      destruct (rev ext') as [|z r] eqn:Hrev.
      { apply (f_equal (@rev ascii)) in Hrev. rewrite rev_involutive in Hrev. done. }
      cbn [app] in Heq. injection Heq as <- _. destruct Hext'.
      apply list_elem_of_In, in_rev. rewrite Hrev. by left.
    + split; [by intros [<- ?]|].
      intros (stem' & ext' & Heq & Hs' & He' & Hext' & ->).
      assert (stem = []) as -> by (destruct stem; [done|cbn [length] in Hs; lia]).
      destruct stem' as [|y stem']; [done|]. cbn [app] in Heq. injection Heq as <- ->.
      destruct Hext. apply elem_of_app. right. by left.
    + split; [by intros [<- ?]|].
      intros (stem' & ext' & Heq & Hs' & He' & Hext' & ->).
      assert (stem = []) as -> by (destruct stem; [done|cbn [length] in Hs; lia]).
      destruct stem' as [|y stem']; [done|]. cbn [app] in Heq. injection Heq as <- ->.
      destruct Hext. apply elem_of_app. right. by left.
  - split; [by intros [<- ?]|].
    intros (stem' & ext' & -> & _). destruct Hr. apply elem_of_app. right. by left.
Qed.


Lemma walk_source_files_spec (exts skip_dirs : list str) (t : dir_tree) :
  forall dirpath p,
    In p (walk_source_files exts skip_dirs t dirpath) <->
    exists dirs fn,
      p = dirpath ++ dirs ++ [fn] /\ has_file t dirs fn /\ In (suffix fn) exts /\
      Forall (fun d => should_skip_dir d skip_dirs = false) dirs.
Proof.
  induction t as [name subdirs files IH] using dir_tree_ind. intros dirpath p.
  cbn [walk_source_files].
  set (below := fix below (l : list dir_tree) : list (list str) :=
         match l with
         | [] => []
         | t' :: l' =>
             if should_skip_dir (tree_name t') skip_dirs then below l'
             else walk_source_files exts skip_dirs t' (dirpath ++ [tree_name t']) ++
                  below l'
         end).
  assert (In p (below subdirs) <->
          exists t', In t' subdirs /\ should_skip_dir (tree_name t') skip_dirs = false /\
                     In p (walk_source_files exts skip_dirs t' (dirpath ++ [tree_name t'])))
    as Hbelow.
  { clear IH. induction subdirs as [|t' l IHl]; cbn [below In].
    { split; [done|]. by intros (? & [] & _). }
    destruct (should_skip_dir (tree_name t') skip_dirs) eqn:Hskip.
    - rewrite IHl. split.
      + intros (t'' & Hin & H). exists t''. by split; [right|].
      + intros (t'' & [<-|Hin] & Hs & H); [congruence|]. by exists t''.
    - rewrite in_app_iff, IHl. split.
      + intros [H|(t'' & Hin & H)]; [exists t'; by split; [left|]|].
        exists t''. by split; [right|].
      + intros (t'' & [<-|Hin] & Hs & H); [by left|]. right. by exists t''. }
  rewrite in_app_iff, Hbelow, in_map_iff. split.
  - intros [(fn & <- & Hfn)|(t' & Hin & Hskip & Hp)].
    + apply list_elem_of_In, list_elem_of_filter in Hfn as [Hsfx Hfn].
      exists [], fn. cbn [app has_file tree_files].
      split; [done|]. split; [by apply list_elem_of_In|].
      split; [by apply list_elem_of_In|constructor].
    + rewrite Forall_forall in IH. apply (IH t') in Hp; [|by apply list_elem_of_In].
      destruct Hp as (dirs & fn & -> & Hfile & Hsfx & Hdirs).
      exists (tree_name t' :: dirs), fn. cbn [has_file tree_subdirs].
      split; [by rewrite <- app_assoc|]. split; [by exists t'|].
      split; [done|by constructor].
  - intros (dirs & fn & -> & Hfile & Hsfx & Hdirs).
    destruct dirs as [|d dirs]; cbn [has_file tree_files tree_subdirs] in Hfile.
    + left. exists fn. split; [done|].
      apply list_elem_of_In, list_elem_of_filter. split; by apply list_elem_of_In.
    + right. destruct Hfile as (t' & Hin & <- & Hfile).
      apply Forall_cons in Hdirs as [Hskip Hdirs].
      exists t'. split; [done|]. split; [done|].
      rewrite Forall_forall in IH. apply IH; [by apply list_elem_of_In|].
      exists dirs, fn. cbn [app]. by rewrite <- app_assoc.
Qed.

(** X23. The walk returns a file exactly when the suffix of its name is
    one of the extensions and no directory on the way to it from the
    root, the root itself apart, is skipped: a skipped directory hides all
    that is below it.  A suffix that is not empty is what follows the last
    dot of the name, with that dot, when the dot is neither the first nor
    the last character, so that a name such as [.cpp] has no suffix. *)
Theorem iter_source_files_spec (root : dir_tree) (exts skip_dirs : list str) :
  (forall p,
     In p (iter_source_files root exts skip_dirs) <->
     exists dirs fn,
       p = dirs ++ [fn] /\ has_file root dirs fn /\ In (suffix fn) exts /\
       Forall (fun d => should_skip_dir d skip_dirs = false) dirs) /\
  (forall fn sfx,
     suffix fn = sfx /\ sfx <> [] <->
     exists stem ext, fn = stem ++ "."%char :: ext /\ stem <> [] /\ ext <> [] /\
                      ("."%char ∉ ext) /\ sfx = "."%char :: ext).
Proof.
  split; [|apply suffix_spec].
  intros p. unfold iter_source_files. by rewrite walk_source_files_spec.
Qed.
